(** * Cycle detection on Ethereum transactions: the core in Rocq

    A shallow embedding of [wei_parser.c] and [graph.c]:
    - the Wei value parser [parse_wei_optimized] (GMP integers are [Z]);
    - the identifier index ([addToHash], [addAllVertexToHashmap],
      [getVertexIndex]) over a [gmap string nat];
    - the adjacency-list graph ([initGraph], [insertEdge]) and its loader
      ([hashToGraph], [loadGraph]);
    - the depth-first cycle search ([recursiveDFS], [depthFirstSearch]).

    C strings are modelled by [string]: the characters before the
    terminating NUL. [malloc] is taken to succeed. A GMP integer is a
    [Z], except that [mpz_ui_pow_ui] ends the process when the power is
    too large for an [mpz_t] ([ParseAbort]). *)

From Stdlib Require Import ZArith Ascii String Lia.
From stdpp Require Import gmap strings list.

Local Open Scope Z_scope.

(** ** Characters *)

Module Chars.

Definition code (c : ascii) : Z := Z.of_nat (nat_of_ascii c).

(** [isdigit] in the C locale. *)
Definition isdigit (c : ascii) : bool := (48 <=? code c) && (code c <=? 57).

(** [isspace] in the C locale: space, and [\t \n \v \f \r]. *)
Definition isspace (c : ascii) : bool :=
  (code c =? 32) || ((9 <=? code c) && (code c <=? 13)).

(** [*p - '0'] *)
Definition digit_val (c : ascii) : Z := code c - 48.

Definition is_dot (c : ascii) : bool := code c =? 46.
Definition is_plus (c : ascii) : bool := code c =? 43.
Definition is_minus (c : ascii) : bool := code c =? 45.
Definition is_sign (c : ascii) : bool := is_plus c || is_minus c.
(** membership in the accept set ["eE"] of [strpbrk] *)
Definition is_eE (c : ascii) : bool := (code c =? 101) || (code c =? 69).

End Chars.
Import Chars.

(** ** wei_parser.c *)

Module WeiParser.

Definition POW10_CACHE_SIZE : Z := 60.

(** C [long] and [unsigned long] on the LP64 targets the Makefile builds
    for: 64 bits, two's complement; arithmetic is written with its
    wrap-around. *)
Definition LONG_MAX : Z := 2 ^ 63 - 1.
Definition LONG_MIN : Z := - 2 ^ 63.
Definition wrap_long (z : Z) : Z := (z + 2 ^ 63) mod 2 ^ 64 - 2 ^ 63.
Definition wrap_ulong (z : Z) : Z := z mod 2 ^ 64.

(** The cache filled by [parse_wei_ctx_create]: entry 0 is 1, entry [i] is
    ten times entry [i - 1]. *)
Fixpoint fill_cache (n : nat) (prev : Z) : list Z :=
  match n with
  | O => []
  | S n' => prev :: fill_cache n' (prev * 10)
  end.

Definition pow10_cache : list Z := fill_cache (Z.to_nat POW10_CACHE_SIZE) 1.

(** An [mpz_t] counts its limbs in an [int] and a limb has at most 64
    bits, so it holds no number of [MPZ_MAX_BITS] bits or more. *)
Definition MPZ_MAX_BITS : Z := 64 * (2 ^ 31 - 1).

(** [mpz_ui_pow_ui (rop, 10, n)]. GMP does not return an error: when the
    result does not fit an [mpz_t], or cannot be allocated, it writes a
    message and calls [abort] ([None]). [limit] is the largest exponent
    for which the call returns where the program runs; it depends on the
    GMP build and on the memory at hand. Whatever the limit, [10 ^ n] has
    more than [n] bits, so the call never returns from [MPZ_MAX_BITS] on.
    The product of the mantissa of a token with a power that was
    computed is taken to fit as well. *)
Definition mpz_ui_pow_ui_10 (limit n : Z) : option Z :=
  if (n <=? limit) && (n <? MPZ_MAX_BITS) then Some (10 ^ n) else None.

(** [ctx->power_of_10] as set by either branch: a cache hit below
    [POW10_CACHE_SIZE], [mpz_ui_pow_ui] otherwise. *)
Definition power_of_10 (limit n : Z) : option Z :=
  if n <? POW10_CACHE_SIZE then Some (default 0 (pow10_cache !! Z.to_nat n))
  else mpz_ui_pow_ui_10 limit n.

(** [strpbrk(s, "eE")]: the text before the first [e]/[E] (the mantissa
    region, up to [mantissa_end]) and, when there is one, the text after
    it ([e_ptr + 1]). *)
Fixpoint strpbrk_eE (s : string) : string * option string :=
  match s with
  | EmptyString => (EmptyString, None)
  | String c r =>
      if is_eE c then (EmptyString, Some r)
      else let '(m, e) := strpbrk_eE r in (String c m, e)
  end.

Record mantissa_state := MState {
  mantissa_int : Z;
  decimal_places : Z;
  dot_found : bool;
  has_digits : bool
}.

Definition mantissa_init : mantissa_state := MState 0 0 false false.

(** The [for] loop over the mantissa region. [first] is [p == s]; [None]
    is the [return -1] inside the loop. [decimal_places] counts
    characters of the token, so it stays far below [LONG_MAX]. *)
Fixpoint mantissa_loop (first : bool) (p : string) (st : mantissa_state)
  : option mantissa_state :=
  match p with
  | EmptyString => Some st
  | String c p' =>
      if isdigit c then
        mantissa_loop false p'
          (MState (mantissa_int st * 10 + digit_val c)
                  (if dot_found st then decimal_places st + 1
                   else decimal_places st)
                  (dot_found st) true)
      else if is_dot c && negb (dot_found st) then
        mantissa_loop false p'
          (MState (mantissa_int st) (decimal_places st) true (has_digits st))
      else if is_sign c && first then
        mantissa_loop false p' st
      else None
  end.

(** [strtol(nptr, NULL, 10)]: leading white space, an optional sign, the
    longest run of digits; no digits gives 0; a value out of range gives
    [LONG_MIN] or [LONG_MAX]. *)
Fixpoint skip_space (s : string) : string :=
  match s with
  | String c r => if isspace c then skip_space r else s
  | EmptyString => EmptyString
  end.

Fixpoint strtol_digits (acc : Z) (s : string) : Z :=
  match s with
  | String c r => if isdigit c then strtol_digits (acc * 10 + digit_val c) r else acc
  | EmptyString => acc
  end.

Definition clamp_long (z : Z) : Z :=
  if z <? LONG_MIN then LONG_MIN else if LONG_MAX <? z then LONG_MAX else z.

Definition strtol (nptr : string) : Z :=
  match skip_space nptr with
  | String c r =>
      if is_minus c then clamp_long (- strtol_digits 0 r)
      else if is_plus c then clamp_long (strtol_digits 0 r)
      else clamp_long (strtol_digits 0 (String c r))
  | EmptyString => 0
  end.

(** How a call of [parse_wei_optimized] ends: with the return code 0 and
    the value left in [out], with a negative return code, or inside GMP
    with the process aborted. *)
Inductive parse_result :=
  | ParseOk (out : Z)
  | ParseErr (code : Z)
  | ParseAbort.

Definition ERR_INVALID_CHAR : Z := -1.
Definition ERR_NOT_INTEGER : Z := -2.

(** The value returned, when the call returns. *)
Definition return_code (r : parse_result) : option Z :=
  match r with
  | ParseOk _ => Some 0
  | ParseErr c => Some c
  | ParseAbort => None
  end.

Definition exponent_of (e_ptr : option string) : Z :=
  match e_ptr with Some after => strtol after | None => 0 end.

(** The three-way branch on [final_power_of_10]. [mpz_tdiv_qr] truncates
    towards zero: [Z.quot] and [Z.rem]. *)
Definition apply_power (limit mantissa final_power_of_10 : Z) : parse_result :=
  if 0 <? final_power_of_10 then
    match power_of_10 limit final_power_of_10 with
    | Some p => ParseOk (mantissa * p)
    | None => ParseAbort
    end
  else if final_power_of_10 <? 0 then
    let divisor_exp := wrap_ulong (- final_power_of_10) in
    match power_of_10 limit divisor_exp with
    | Some p =>
        if Z.rem mantissa p =? 0 then ParseOk (Z.quot mantissa p)
        else ParseErr ERR_NOT_INTEGER
    | None => ParseAbort
    end
  else ParseOk mantissa.

Definition parse_wei_optimized (limit : Z) (s : string) : parse_result :=
  let '(region, e_ptr) := strpbrk_eE s in
  match mantissa_loop true region mantissa_init with
  | None => ParseErr ERR_INVALID_CHAR
  | Some st =>
      if negb (has_digits st) then ParseErr ERR_INVALID_CHAR
      else
        let exponent_val := exponent_of e_ptr in
        let final_power_of_10 := wrap_long (exponent_val - decimal_places st) in
        apply_power limit (mantissa_int st) final_power_of_10
  end.

End WeiParser.

(** ** graph.c: the graph *)

Module Graph.

(** A node of an adjacency list; the list itself stands for the chain of
    [next] pointers. [vertex] is [int]. *)
Record Transaction := Tx {
  destination : Z;
  transactionValue : Z
}.

(** [vertexAmount] and [edgesAmount] are [size_t] counters of allocated
    objects, so they stay below [SIZE_MAX]; they are natural numbers here.
    [adjList] is the [malloc]ed array of list heads. *)
Record GraphDS := MkGraph {
  vertexAmount : nat;
  edgesAmount : nat;
  adjList : list (list Transaction)
}.

(** [initGraph]; [malloc] is taken to return a block, also for the size
    0 that [V = 0] asks for. *)
Definition initGraph (V : nat) : GraphDS := MkGraph V 0 (replicate V []).

(** [G->adjList[v]] *)
Definition adj (G : GraphDS) (v : Z) : list Transaction :=
  default [] (adjList G !! Z.to_nat v).

(** [insertEdge]: the new graph and the returned indicator. [malloc] is
    taken to succeed. *)
Definition insertEdge (G : GraphDS) (v w : Z) (value : Z) : GraphDS * Z :=
  if (v <? 0) || (Z.of_nat (vertexAmount G) <=? v)
     || (w <? 0) || (Z.of_nat (vertexAmount G) <=? w)
  then (G, 0)
  else
    let newNode := Tx w value in
    (MkGraph (vertexAmount G) (S (edgesAmount G))
             (<[Z.to_nat v := newNode :: adj G v]> (adjList G)), 1).

End Graph.

(** ** graph.c: the identifier index *)

Module Index.

(** [addToHash]: the hash table [vertex_map] and [*current_index]. The
    names come from [%42s], so [strcpy] stays inside [key[43]]; the counter
    is a [size_t] that counts allocated entries, a natural number here. *)
Definition addToHash (name : string) (st : gmap string nat * nat)
  : gmap string nat * nat :=
  let '(vertex_map, current_index) := st in
  match vertex_map !! name with
  | None => (<[name := current_index]> vertex_map, S current_index)
  | Some _ => (vertex_map, current_index)
  end.

(** [getVertexIndex]: [None] is the dereference of the [NULL] that
    [HASH_FIND_STR] leaves for a name that was never added. *)
Definition getVertexIndex (vertex_map : gmap string nat) (name : string)
  : option nat := vertex_map !! name.

(** The conversion [%Ns] of [fscanf]: white space is skipped, then at most
    [width] characters that are not white space are stored. *)
Fixpoint scan_chars (width : nat) (s : string) : string * string :=
  match width, s with
  | S width', String c r =>
      if isspace c then (EmptyString, s)
      else let '(t, r') := scan_chars width' r in (String c t, r')
  | _, _ => (EmptyString, s)
  end.

Definition scan_s (width : nat) (s : string) : option (string * string) :=
  match scan_chars width (WeiParser.skip_space s) with
  | (EmptyString, _) => None
  | (t, r) => Some (t, r)
  end.

(** The C string that a buffer holds: its characters before the first
    NUL. A NUL byte of the file is no white space, so [%s] stores it like
    any other character, and [HASH_FIND_STR], [strcpy], [strpbrk] and
    [strlen] then see the field end there. *)
Fixpoint c_str (buf : string) : string :=
  match buf with
  | String c r => if code c =? 0 then EmptyString else String c (c_str r)
  | EmptyString => EmptyString
  end.

(** [fscanf(file, "%42s %42s %99s", ...)] on the unread part of the file:
    the three fields, as the C strings left in the buffers, when it
    returns 3, and the part left unread. A [%s] only fails at the end of
    the file. *)
Definition fscanf3 (file : string) : option (string * string * string) * string :=
  match scan_s 42 file with
  | None => (None, EmptyString)
  | Some (from_ad, r1) =>
      match scan_s 42 r1 with
      | None => (None, EmptyString)
      | Some (to_ad, r2) =>
          match scan_s 99 r2 with
          | None => (None, EmptyString)
          | Some (value_str, r3) =>
              (Some (c_str from_ad, c_str to_ad, c_str value_str), r3)
          end
      end
  end.

(** The [while] loop of [addAllVertexToHashmap]. Every round consumes
    characters, so [fuel] above the length of the file is never used up
    ([addAll_loop_fuel]). *)
Fixpoint addAll_loop (fuel : nat) (file : string) (st : gmap string nat * nat)
  : gmap string nat * nat :=
  match fuel with
  | O => st
  | S fuel' =>
      match fscanf3 file with
      | (Some (from_ad, to_ad, _), rest) =>
          addAll_loop fuel' rest (addToHash to_ad (addToHash from_ad st))
      | (None, _) => st
      end
  end.

(** [addAllVertexToHashmap] on a [vertex_map]: the filled map and the
    returned count. *)
Definition addAllVertexToHashmap (file : string) (vertex_map : gmap string nat)
  : gmap string nat * nat :=
  addAll_loop (String.length file) file (vertex_map, O).

(** The identifiers handed to [addToHash], in order. *)
Fixpoint interned_names (fuel : nat) (file : string) : list string :=
  match fuel with
  | O => []
  | S fuel' =>
      match fscanf3 file with
      | (Some (from_ad, to_ad, _), rest) =>
          from_ad :: to_ad :: interned_names fuel' rest
      | (None, _) => []
      end
  end.

End Index.

(** ** graph.c: the loader *)

Module Loader.
Import Graph Index WeiParser.

(** [size_t] to [int] at the call of [insertEdge]. *)
Definition int_of_size_t (n : nat) : Z :=
  (Z.of_nat n + 2 ^ 31) mod 2 ^ 32 - 2 ^ 31.

Inductive warning :=
  | MalformedLine (i : nat)
  | ValueFailure (value_str : string).

(** How the loader ends: it returns the graph, with the warnings it
    wrote on [stderr]; or the process is aborted inside
    [parse_wei_optimized]; or [getVertexIndex] dereferences the null
    pointer of a miss, which C leaves undefined. *)
Inductive load_result :=
  | Loaded (G : GraphDS) (stderr : list warning)
  | LoadAbort
  | LoadUndefined.

(** The [for] loop of [hashToGraph], from transaction [i] for [n] more
    rounds. *)
Fixpoint hashToGraph_loop (limit : Z) (n i : nat) (file : string)
    (vertex_map : gmap string nat) (G : GraphDS) (stderr : list warning)
  : load_result :=
  match n with
  | O => Loaded G stderr
  | S n' =>
      match fscanf3 file with
      | (None, rest) =>
          hashToGraph_loop limit n' (S i) rest vertex_map G
                           (stderr ++ [MalformedLine i])
      | (Some (from_ad, to_ad, value_str), rest) =>
          match parse_wei_optimized limit value_str with
          | ParseAbort => LoadAbort
          | ParseErr _ =>
              hashToGraph_loop limit n' (S i) rest vertex_map G
                               (stderr ++ [ValueFailure value_str])
          | ParseOk parsed_value =>
              match getVertexIndex vertex_map from_ad,
                    getVertexIndex vertex_map to_ad with
              | Some from_index, Some to_index =>
                  hashToGraph_loop limit n' (S i) rest vertex_map
                    (insertEdge G (int_of_size_t from_index)
                                (int_of_size_t to_index) parsed_value).1
                    stderr
              | _, _ => LoadUndefined
              end
          end
      end
  end.

Definition hashToGraph (limit : Z) (file : string) (vertex_map : gmap string nat)
    (G : GraphDS) (totalTransactions : nat) : load_result :=
  hashToGraph_loop limit totalTransactions O file vertex_map G [].

(** [loadGraph], started with the empty global [vertex_map]; the file is
    rewound between the passes. *)
Definition loadGraph (limit : Z) (file : string) : load_result :=
  let '(vertex_map, vertexCount) := addAllVertexToHashmap file ∅ in
  let graph := initGraph vertexCount in
  hashToGraph limit file vertex_map graph (vertexAmount graph).

End Loader.

(** ** graph.c: cycle detection *)

Module DFS.
Import Graph.

(** One block of the output file:
    [Cycle #n: v0 -> ... -> vk -> v0] and [Max Flow: m WEI]. *)
Record cycle_record := Cycle {
  cycle_no : nat;
  cycle_vertices : list Z;
  max_flow : Z
}.

(** The scratch arrays of [depthFirstSearch], the counters, the lines
    written to the file [p], and the trace of the calls of [recursiveDFS]
    (their argument [v], in call order), which the program does not
    store. *)
Record dfs_state := DfsState {
  visited : list Z;
  recStack : list Z;
  path : list Z;
  valuesPath : list Z;
  depth : nat;
  cycle_count : nat;
  out : list cycle_record;
  calls : list Z
}.

(** [a[i]] and [a[i] = x] for the [int] index [i]. The arrays have
    [vertexAmount] cells and the indices used are vertices of the graph
    or positions below [depth]; see [wf_graph] and [dfs_inv]. *)
Definition get (a : list Z) (i : Z) : Z := default 0 (a !! Z.to_nat i).
Definition set (a : list Z) (i : Z) (x : Z) : list Z := <[Z.to_nat i := x]> a.

(** Cells [i], ..., [j - 1] of an array. *)
Definition slice (a : list Z) (i j : nat) : list Z := take (j - i) (drop i a).

(** The search loop for [start_index]: the first position below [depth]
    from [start_index] on that holds [w], or [depth]. *)
Fixpoint find_start (path : list Z) (w : Z) (start_index remaining : nat) : nat :=
  match remaining with
  | O => start_index
  | S r =>
      if default 0 (path !! start_index) =? w then start_index
      else find_start path w (S start_index) r
  end.

(** [if (mpz_cmp(cycle_max_value, x) < 0) mpz_set(cycle_max_value, x)] *)
Definition max_step (cycle_max_value x : Z) : Z :=
  if cycle_max_value <? x then x else cycle_max_value.

(** The first four statements of [recursiveDFS]. *)
Definition enter (st : dfs_state) (v : Z) : dfs_state :=
  DfsState (set (visited st) v 1) (set (recStack st) v 1)
           (<[depth st := v]> (path st)) (valuesPath st)
           (S (depth st)) (cycle_count st) (out st) (calls st ++ [v]).

(** [mpz_set(valuesPath[*depth - 1], curr->transactionValue)] *)
Definition set_value (st : dfs_state) (value : Z) : dfs_state :=
  DfsState (visited st) (recStack st) (path st)
           (<[pred (depth st) := value]> (valuesPath st))
           (depth st) (cycle_count st) (out st) (calls st).

(** The branch [else if (recStack[w])]: a cycle is counted and written. *)
Definition report (st : dfs_state) (w value : Z) : dfs_state :=
  let n := S (cycle_count st) in
  let start_index := find_start (path st) w 0 (depth st) in
  let inner := foldl max_step 0 (slice (valuesPath st) start_index (pred (depth st))) in
  let cycle_max_value := max_step inner value in
  let printed :=
    slice (path st) start_index (pred (depth st))
      ++ [default 0 (path st !! pred (depth st)); w] in
  DfsState (visited st) (recStack st) (path st) (valuesPath st)
           (depth st) n (out st ++ [Cycle n printed cycle_max_value]) (calls st).

(** The last two statements of [recursiveDFS]. *)
Definition leave (st : dfs_state) (v : Z) : dfs_state :=
  DfsState (visited st) (set (recStack st) v 0) (path st) (valuesPath st)
           (pred (depth st)) (cycle_count st) (out st) (calls st).

(** The [while (curr)] loop, over the rest of the edge list; [rec] is the
    recursive call. *)
Fixpoint edge_loop (rec : dfs_state -> Z -> option dfs_state)
    (curr : list Transaction) (st : dfs_state) : option dfs_state :=
  match curr with
  | [] => Some st
  | e :: next =>
      let w := destination e in
      let st1 := set_value st (transactionValue e) in
      if get (visited st1) w =? 0 then
        match rec st1 w with
        | Some st2 => edge_loop rec next st2
        | None => None
        end
      else if negb (get (recStack st1) w =? 0) then
        edge_loop rec next (report st1 w (transactionValue e))
      else edge_loop rec next st1
  end.

(** [recursiveDFS]; [fuel] bounds the nesting of calls and [None] means
    that it ran out. *)
Fixpoint recursiveDFS (fuel : nat) (G : GraphDS) (st : dfs_state) (v : Z)
  : option dfs_state :=
  match fuel with
  | O => None
  | S fuel' =>
      match edge_loop (recursiveDFS fuel' G) (adj G v) (enter st v) with
      | Some st' => Some (leave st' v)
      | None => None
      end
  end.

(** The state after the allocations: [calloc] zeroes [visited] and
    [recStack], [mpz_init] zeroes [valuesPath]; the cells of [path] are read
    only after they were written. *)
Definition dfs_init (V : nat) : dfs_state :=
  DfsState (replicate V 0) (replicate V 0) (replicate V 0) (replicate V 0)
           O O [] [].

(** The loop over all vertices. *)
Fixpoint root_loop (fuel : nat) (G : GraphDS) (vs : list Z) (st : dfs_state)
  : option dfs_state :=
  match vs with
  | [] => Some st
  | v :: vs' =>
      if get (visited st) v =? 0 then
        match recursiveDFS fuel G st v with
        | Some st' => root_loop fuel G vs' st'
        | None => None
        end
      else root_loop fuel G vs' st
  end.

(** [depthFirstSearch], the output file opened: the final state holds the
    lines written ([out]) and [*total_cycles_found] ([cycle_count]). With
    no vertex the function returns at once and nothing is written. The
    nesting of calls never exceeds the number of vertices
    ([depthFirstSearch_total]). *)
Definition depthFirstSearch (G : GraphDS) : option dfs_state :=
  root_loop (vertexAmount G) G (seqZ 0 (Z.of_nat (vertexAmount G)))
            (dfs_init (vertexAmount G)).

(** Graphs as [initGraph] and [insertEdge] build them. *)
Definition wf_graph (G : GraphDS) : Prop :=
  length (adjList G) = vertexAmount G ∧
  ∀ es e, es ∈ adjList G → e ∈ es →
          0 <= destination e < Z.of_nat (vertexAmount G).

End DFS.

Module DFSExamples.
Import Graph DFS.

Definition insert (G : GraphDS) (e : Z * Z * Z) : GraphDS :=
  (insertEdge G e.1.1 e.1.2 e.2).1.

Definition triangle : GraphDS := foldl insert (initGraph 3) [(0, 1, 5); (1, 2, 9); (2, 0, 2)].
Definition selfloop : GraphDS := foldl insert (initGraph 1) [(0, 0, 7)].

End DFSExamples.
(** ** Numeric tokens, as the specification describes them *)

Module Token.

Fixpoint all_digits (s : string) : bool :=
  match s with
  | EmptyString => true
  | String c r => isdigit c && all_digits r
  end.

(** The number a string of decimal digits denotes. *)
Fixpoint dec_value (s : string) : Z :=
  match s with
  | EmptyString => 0
  | String c r => digit_val c * 10 ^ Z.of_nat (String.length r) + dec_value r
  end.

Definition opt_char (o : option ascii) : string :=
  match o with Some c => String c EmptyString | None => EmptyString end.

Definition sign_ok (o : option ascii) : bool :=
  match o with Some c => is_sign c | None => true end.

Definition negative (o : option ascii) : bool :=
  match o with Some c => is_minus c | None => false end.

(** An optional sign, digits with an optional decimal point, an optional
    exponent: marker, optional sign, digits. *)
Record token := Token {
  tk_sign : option ascii;
  tk_int : string;
  tk_frac : option string;
  tk_exp : option (ascii * option ascii * string)
}.

Definition frac_digits (t : token) : string := default EmptyString (tk_frac t).

Definition render_frac (t : token) : string :=
  match tk_frac t with
  | Some f => String "." f
  | None => EmptyString
  end.

Definition render_exp (t : token) : string :=
  match tk_exp t with
  | Some (marker, s, ds) => String marker (opt_char s +:+ ds)
  | None => EmptyString
  end.

Definition render (t : token) : string :=
  opt_char (tk_sign t) +:+ tk_int t +:+ render_frac t +:+ render_exp t.

(** The token without its exponent. *)
Definition mantissa_text (t : token) : string :=
  opt_char (tk_sign t) +:+ tk_int t +:+ render_frac t.

Definition exp_ok (t : token) : bool :=
  match tk_exp t with
  | Some (marker, s, ds) =>
      is_eE marker && sign_ok s && all_digits ds && negb (String.length ds =? 0)%nat
  | None => true
  end.

Definition valid (t : token) : bool :=
  sign_ok (tk_sign t) && all_digits (tk_int t) && all_digits (frac_digits t)
  && negb (String.length (tk_int t +:+ frac_digits t) =? 0)%nat
  && exp_ok t.

(** Mantissa [M]: the digits with the decimal point ignored. *)
Definition mantissa (t : token) : Z := dec_value (tk_int t +:+ frac_digits t).

(** [decimalPlaces], [d]. *)
Definition places (t : token) : Z := Z.of_nat (String.length (frac_digits t)).

(** Exponent [x]. *)
Definition exponent (t : token) : Z :=
  match tk_exp t with
  | Some (_, s, ds) => if negative s then - dec_value ds else dec_value ds
  | None => 0
  end.

End Token.

(** ** Vocabulary for statements about tokens *)

Module TokenFacts.
Import WeiParser.

(** Some character of [s] satisfies [P]. *)
Fixpoint has_char (P : ascii -> bool) (s : string) : bool :=
  match s with
  | EmptyString => false
  | String c r => P c || has_char P r
  end.

(** The characters [0-9 . e E + -]. *)
Definition in_charset (c : ascii) : bool :=
  isdigit c || is_dot c || is_eE c || is_sign c.

Definition outside_charset (c : ascii) : bool := negb (in_charset c).

(** The mantissa region of a token and what follows its marker. *)
Definition region (s : string) : string := (strpbrk_eE s).1.
Definition after_marker (s : string) : option string := (strpbrk_eE s).2.

(** The state in which the mantissa loop ends, when it does. *)
Definition scan (s : string) : option mantissa_state :=
  mantissa_loop true (region s) mantissa_init.

(** [final_power_of_10] as the code computes it from the scanned state. *)
Definition net_power (s : string) (st : mantissa_state) : Z :=
  wrap_long (exponent_of (after_marker s) - decimal_places st).

Definition starts_with (P : ascii -> bool) (s : string) : bool :=
  match s with
  | String c _ => P c
  | EmptyString => false
  end.

(** GMP has the power [10 ^ n]: in the cache, or from a call of
    [mpz_ui_pow_ui] that returns. *)
Definition power_fits (limit n : Z) : Prop :=
  n < POW10_CACHE_SIZE ∨ (n <= limit ∧ n < MPZ_MAX_BITS).

(** [strtol] finds nothing to convert: after white space and an optional
    sign there is no digit. *)
Definition no_conversion (s : string) : bool :=
  match skip_space s with
  | String c r =>
      if is_sign c then negb (starts_with isdigit r) else negb (isdigit c)
  | EmptyString => true
  end.

End TokenFacts.

(** ** Vocabulary for statements about the index and the input file *)

Module IndexFacts.
Import Index.

(** A sequence of calls of [addToHash]. *)
Definition intern_all (names : list string) (st : gmap string nat * nat)
  : gmap string nat * nat :=
  foldl (λ st name, addToHash name st) st names.

(** The distinct identifiers of a sequence, in order of first appearance. *)
Fixpoint first_seen (names : list string) : list string :=
  match names with
  | [] => []
  | x :: rest => x :: filter (λ y, y ≠ x) (first_seen rest)
  end.

(** The map and the counter hold the list [acc] of identifiers, each at
    its position. *)
Definition represents (st : gmap string nat * nat) (acc : list string) : Prop :=
  st.2 = length acc ∧ NoDup acc ∧
  ∀ name i, st.1 !! name = Some i ↔ acc !! i = Some name.

(** Every identifier that the first pass will meet in [file] is in the
    table. *)
Definition names_known (vertex_map : gmap string nat) (file : string) : Prop :=
  ∀ name, name ∈ interned_names (String.length file) file →
          is_Some (vertex_map !! name).

End IndexFacts.

Module FileFacts.
Import WeiParser.

Definition is_newline (c : ascii) : bool := code c =? 10.

(** The pieces of [s] between the characters that satisfy [sep]; [cur]
    holds the current piece, reversed. With [keep_empty] an empty piece
    counts (lines), without it does not (fields). *)
Fixpoint split_go (sep : ascii -> bool) (keep_empty : bool) (s : string)
    (cur : list ascii) : list string :=
  let piece := string_of_list_ascii (rev cur) in
  let emit := if keep_empty then true else negb (bool_decide (cur = [])) in
  match s with
  | EmptyString => if emit then [piece] else []
  | String c r =>
      if sep c then
        (if emit then [piece] else []) ++ split_go sep keep_empty r []
      else split_go sep keep_empty r (c :: cur)
  end.

Definition lines (file : string) : list string := split_go is_newline true file [].
Definition fields (line : string) : list string := split_go isspace false line [].

(** A line with exactly three fields whose value token parses. *)
Definition well_formed_line (limit : Z) (line : string) : bool :=
  match fields line with
  | [_; _; value_str] =>
      match parse_wei_optimized limit value_str with
      | ParseOk _ => true
      | ParseErr _ | ParseAbort => false
      end
  | _ => false
  end.

Definition well_formed_lines (limit : Z) (file : string) : nat :=
  length (filter (λ l, well_formed_line limit l = true) (lines file)).

Definition newline : string := String (ascii_of_nat 10) EmptyString.

(** Three transactions between two wallets. *)
Definition three_lines : string :=
  "A B 1" +:+ newline +:+ "B A 2" +:+ newline +:+ "A B 3" +:+ newline.

End FileFacts.

(** ** Vocabulary for statements about the search *)

Module DFSFacts.
Import Graph DFS.

Definition in_range (G : GraphDS) (v : Z) : Prop :=
  0 <= v < Z.of_nat (vertexAmount G).

(** [chain G vs cs]: every vertex of [vs] has an edge of [G] to the next
    one, and [cs] lists the values of these edges in order. *)
Inductive chain (G : GraphDS) : list Z → list Z → Prop :=
  | chain_one x : chain G [x] []
  | chain_cons x y vs c cs :
      Tx y c ∈ adj G x → chain G (y :: vs) cs → chain G (x :: y :: vs) (c :: cs).

(** A written cycle is sound: its vertices are joined by edges of the
    graph, the last one is the first one again, and the flow written is
    what [max_step] accumulates from 0 over the values of these edges. *)
Definition good_cycle (G : GraphDS) (r : cycle_record) : Prop :=
  ∃ cs, chain G (cycle_vertices r) cs ∧ cs ≠ [] ∧
        head (cycle_vertices r) = last (cycle_vertices r) ∧
        max_flow r = foldl max_step 0 cs.

(** No edge carries a negative value. *)
Definition nonneg_values (G : GraphDS) : Prop :=
  ∀ es e, es ∈ adjList G → e ∈ es → 0 <= transactionValue e.

(** The vertices not yet visited. *)
Definition unvisited (st : dfs_state) : nat :=
  length (filter (λ x, x = 0) (visited st)).

(** What holds of the state between any two steps of the search. *)
Record dfs_inv (G : GraphDS) (st : dfs_state) : Prop := DfsInv {
  inv_len_visited : length (visited st) = vertexAmount G;
  inv_len_recStack : length (recStack st) = vertexAmount G;
  inv_len_path : length (path st) = vertexAmount G;
  inv_len_values : length (valuesPath st) = vertexAmount G;
  inv_depth : (depth st <= vertexAmount G)%nat;
  inv_nodup : NoDup (take (depth st) (path st));
  inv_path : ∀ u, u ∈ take (depth st) (path st) →
      in_range G u ∧ get (visited st) u ≠ 0 ∧ get (recStack st) u ≠ 0;
  inv_stack : ∀ u, in_range G u → get (recStack st) u ≠ 0 →
      u ∈ take (depth st) (path st);
  inv_calls_nodup : NoDup (calls st);
  inv_calls : ∀ u, u ∈ calls st ↔ in_range G u ∧ get (visited st) u ≠ 0;
  inv_out : ∀ r, r ∈ out st → good_cycle G r;
  inv_loops : ∀ u c, u ∈ calls st → get (recStack st) u = 0 →
      Tx u c ∈ adj G u → ∃ n, Cycle n [u; u] (max_step 0 c) ∈ out st
}.

(** What a call, or a run of the edge loop, leaves as it was: the sizes,
    the depth, the path below the depth, the first [k] values, what was
    visited, the stack marks of what was visited, and the lines already
    written. *)
Record frame (k : nat) (st st' : dfs_state) : Prop := Frame {
  fr_depth : depth st' = depth st;
  fr_path : take (depth st) (path st') = take (depth st) (path st);
  fr_values : take k (valuesPath st') = take k (valuesPath st);
  fr_visited : ∀ u, get (visited st) u ≠ 0 → get (visited st') u ≠ 0;
  fr_recStack : ∀ u, get (visited st) u ≠ 0 →
      get (recStack st') u = get (recStack st) u;
  fr_out : ∃ new, out st' = out st ++ new;
  fr_calls : ∃ new, calls st' = calls st ++ new;
  fr_unvisited : (unvisited st' <= unvisited st)%nat
}.

(** The state at the head of the edge loop of the call for [v]. *)
Record loop_inv (G : GraphDS) (v : Z) (st : dfs_state) : Prop := LoopInv {
  li_inv : dfs_inv G st;
  li_top : path st !! pred (depth st) = Some v;
  li_depth : (1 <= depth st)%nat;
  li_chain : chain G (take (depth st) (path st))
                     (take (pred (depth st)) (valuesPath st))
}.

(** The state in which [recursiveDFS] is called for [v]. *)
Record call_pre (G : GraphDS) (st : dfs_state) (v : Z) : Prop := CallPre {
  cp_inv : dfs_inv G st;
  cp_range : in_range G v;
  cp_fresh : get (visited st) v = 0;
  cp_chain : chain G (take (depth st) (path st) ++ [v])
                     (take (depth st) (valuesPath st))
}.

(** What the edge loop needs of the calls it makes, for states with at
    most [bound] unvisited vertices: they return, keep [dfs_inv] and the
    frame, and visit their vertex. *)
Definition call_spec (G : GraphDS) (rec : dfs_state → Z → option dfs_state)
    (bound : nat) : Prop :=
  ∀ st w, call_pre G st w → (unvisited st <= bound)%nat →
    ∃ st', rec st w = Some st' ∧ dfs_inv G st' ∧
           frame (depth st) st st' ∧ get (visited st') w ≠ 0.

(** The self-loops of [v] among [es] have their cycle in the output. *)
Definition loops_reported (v : Z) (es : list Transaction) (st : dfs_state) : Prop :=
  ∀ c, Tx v c ∈ es → ∃ n, Cycle n [v; v] (max_step 0 c) ∈ out st.

End DFSFacts.

(** ** The shape of a mantissa *)

Module MantissaForm.

Fixpoint count_char (P : ascii -> bool) (s : string) : nat :=
  match s with
  | EmptyString => O
  | String c r => ((if P c then 1 else 0) + count_char P r)%nat
  end.

(** The region without its first character when that is a sign. *)
Definition strip_sign (s : string) : string :=
  match s with
  | String c r => if is_sign c then r else s
  | EmptyString => EmptyString
  end.

Definition digit_or_dot (c : ascii) : bool := isdigit c || is_dot c.

(** Digits and dots only, at most one dot, at least one digit. *)
Definition body_ok (body : string) : bool :=
  negb (TokenFacts.has_char (λ c, negb (digit_or_dot c)) body)
  && (count_char is_dot body <=? 1)%nat
  && TokenFacts.has_char isdigit body.

(** An optional sign, then such a body. *)
Definition mantissa_form (m : string) : bool := body_ok (strip_sign m).

End MantissaForm.

(** ** Graphs built by a series of [insertEdge] calls *)

Module GraphFacts.
Import Graph.

(** The number of edge records in the adjacency lists. *)
Definition edge_total (G : GraphDS) : nat := sum_list (length <$> adjList G).

(** [insertEdge] for each (source, destination, value) of [es] in turn,
    on a graph of [V] vertices from [initGraph]. *)
Definition build (V : nat) (es : list (Z * Z * Z)) : GraphDS :=
  foldl (λ G e, (insertEdge G e.1.1 e.1.2 e.2).1) (initGraph V) es.

(** Both endpoints are vertices of a graph of [V] vertices. *)
Definition accepted (V : nat) (e : Z * Z * Z) : Prop :=
  (0 <= e.1.1 < Z.of_nat V) ∧ (0 <= e.1.2 < Z.of_nat V).

(** The records of the accepted edges of [es] that leave [v], in the
    order of [es]. *)
Definition edges_from (V : nat) (v : Z) (es : list (Z * Z * Z)) : list Transaction :=
  (λ e, Tx e.1.2 e.2) <$> filter (λ e, e.1.1 = v ∧ accepted V e) es.

(** The value fields of the first [n] records of a file: what the [n]
    rounds of the second pass hand to [parse_wei_optimized], as long as
    none of them stops the pass. *)
Fixpoint values_read (n : nat) (file : string) : list string :=
  match n with
  | O => []
  | S n' =>
      match Index.fscanf3 file with
      | (None, rest) => values_read n' rest
      | (Some (_, _, value_str), rest) => value_str :: values_read n' rest
      end
  end.

(** How a second pass of [n] rounds over [file] can end: with a
    well-formed graph without negative values, none of the values read
    having made GMP abort; or aborted, by one of the values read. *)
Definition pass_ok (limit : Z) (n : nat) (file : string)
    (r : Loader.load_result) : Prop :=
  (∃ G stderr, r = Loader.Loaded G stderr ∧
     DFS.wf_graph G ∧ DFSFacts.nonneg_values G ∧
     ∀ v, v ∈ values_read n file →
          WeiParser.parse_wei_optimized limit v ≠ WeiParser.ParseAbort) ∨
  (r = Loader.LoadAbort ∧
     ∃ v, v ∈ values_read n file ∧
          WeiParser.parse_wei_optimized limit v = WeiParser.ParseAbort).

End GraphFacts.

(** ** Vocabulary for more statements about the search *)

Module SearchFacts.
Import Graph DFS DFSFacts.

(** The graph has an edge from [x] to [y]. *)
Definition edge (G : GraphDS) (x y : Z) : Prop := ∃ c, Tx y c ∈ adj G x.

(** A vertex whose call has returned. *)
Definition finished (G : GraphDS) (st : dfs_state) (u : Z) : Prop :=
  in_range G u ∧ get (visited st) u ≠ 0 ∧ get (recStack st) u = 0.

(** As long as nothing was written, the finished vertices are closed
    under the edges and none of them lies on a cycle. *)
Definition no_cycle_so_far (G : GraphDS) (st : dfs_state) : Prop :=
  out st = [] →
  (∀ x y, finished G st x → edge G x y → finished G st y) ∧
  (∀ x, finished G st x → ¬ tc (edge G) x x).

(** The counter equals the number of blocks written, and the blocks
    carry the numbers 1, 2, ... in order. *)
Definition numbered (st : dfs_state) : Prop :=
  cycle_count st = length (out st) ∧
  cycle_no <$> out st = seq 1 (length (out st)).

(** The vertices written for a cycle are distinct vertices of the graph,
    followed by the first of them again. *)
Definition simple_cycle (G : GraphDS) (r : cycle_record) : Prop :=
  ∃ vs w, cycle_vertices r = vs ++ [w] ∧ head vs = Some w ∧ NoDup vs ∧
          ∀ u, u ∈ vs → in_range G u.

(** The edges that leave the vertices not yet visited. *)
Definition pending_edges (G : GraphDS) (st : dfs_state) : nat :=
  sum_list (zip_with (λ vis es, if vis =? 0 then length es else O)
                     (visited st) (adjList G)).

End SearchFacts.

(** ** Vocabulary for the flow of a cycle *)

Module FlowFacts.
Import Graph DFS DFSFacts.

(** The value of the first record of a list that leads to [w]. *)
Fixpoint first_value (es : list Transaction) (w : Z) : option Z :=
  match es with
  | [] => None
  | e :: rest =>
      if destination e =? w then Some (transactionValue e)
      else first_value rest w
  end.

(** The values of the edges that the search follows along [vs]: from
    each vertex, the first record of its list that leads to the next
    vertex. *)
Fixpoint tree_values (G : GraphDS) (vs : list Z) : list Z :=
  match vs with
  | u :: rest =>
      match rest with
      | u' :: _ => default 0 (first_value (adj G u) u') :: tree_values G rest
      | [] => []
      end
  | [] => []
  end.

(** The values of the records of [u] that lead to [w], in the order of
    the list of [u]. *)
Definition closing_values (G : GraphDS) (u w : Z) : list Z :=
  transactionValue <$> filter (λ e, destination e = w) (adj G u).

(** What [cycle_max_value] holds in the end for the walk along [vs]
    closed by an edge of value [c]. *)
Definition walk_flow (G : GraphDS) (vs : list Z) (c : Z) : Z :=
  foldl max_step 0 (tree_values G vs ++ [c]).

(** [m] is the largest element of [l]. *)
Definition largest (l : list Z) (m : Z) : Prop := m ∈ l ∧ ∀ x, x ∈ l → x <= m.

(** The vertex in whose edge loop a record was written: the last but one
    of its vertices. *)
Definition maker (r : cycle_record) : option Z :=
  match reverse (cycle_vertices r) with
  | _ :: u :: _ => Some u
  | _ => None
  end.

(** The record [r] of [out] shows a walk [vs] from [w] to [u] along
    edges that the search follows, closed by an edge from [u] to [w]; the
    records of [out] with the same vertices are as many as the records
    of [u] that lead to [w], and the flow of the k-th of them is what
    [cycle_max_value] holds for the walk and the k-th of these edges. *)
Definition exact_flows (G : GraphDS) (out : list cycle_record)
    (r : cycle_record) : Prop :=
  ∃ vs u w,
    cycle_vertices r = vs ++ [w] ∧ head vs = Some w ∧ last vs = Some u ∧
    chain G vs (tree_values G vs) ∧
    max_flow <$> filter (λ r', cycle_vertices r' = cycle_vertices r) out
    = walk_flow G vs <$> closing_values G u w.

(** The values below the top of the path are those of the edges
    followed. *)
Definition tree_inv (G : GraphDS) (st : dfs_state) : Prop :=
  take (pred (depth st)) (valuesPath st)
  = tree_values G (take (depth st) (path st)).

(** The same, in the state in which [recursiveDFS] is called for [w]. *)
Definition tree_pre (G : GraphDS) (st : dfs_state) (w : Z) : Prop :=
  take (depth st) (valuesPath st)
  = tree_values G (take (depth st) (path st) ++ [w]).

(** Every record was written in the loop of a visited vertex, and the
    records of a vertex whose call has returned are exact. *)
Definition records_inv (G : GraphDS) (st : dfs_state) : Prop :=
  ∀ r, r ∈ out st →
    ∃ u, maker r = Some u ∧ in_range G u ∧ get (visited st) u ≠ 0 ∧
         (get (recStack st) u = 0 → exact_flows G (out st) r).

(** The path from position [i] to the top. *)
Definition segment (st : dfs_state) (i : nat) : list Z :=
  drop i (take (depth st) (path st)).

(** The records written so far in the loop of the top vertex [v], the
    edges [done] of its list dealt with: each closes the path from a
    vertex on it, and for each vertex [w] on the path they answer, in
    order, the edges of [done] that lead to [w]. *)
Definition loop_records (G : GraphDS) (v : Z) (done : list Transaction)
    (st : dfs_state) : Prop :=
  (∀ r, r ∈ out st → maker r = Some v →
     ∃ i w, (i < depth st)%nat ∧ path st !! i = Some w ∧
            cycle_vertices r = segment st i ++ [w]) ∧
  (∀ i w, (i < depth st)%nat → path st !! i = Some w →
     max_flow <$> filter (λ r, cycle_vertices r = segment st i ++ [w]) (out st)
     = walk_flow G (segment st i)
         <$> (transactionValue <$> filter (λ e, destination e = w) done)).

(** The destinations of the edges dealt with are visited. *)
Definition done_visited (st : dfs_state) (done : list Transaction) : Prop :=
  ∀ e, e ∈ done → get (visited st) (destination e) ≠ 0.

(** What holds at the head of the edge loop of [v], the edges [done]
    dealt with. *)
Definition loop_flows (G : GraphDS) (v : Z) (done : list Transaction)
    (st : dfs_state) : Prop :=
  tree_inv G st ∧ done_visited st done ∧ records_inv G st ∧
  loop_records G v done st.

(** The records that a call, or a run of the edge loop, adds come from
    the loops of the vertices in [fresh]. *)
Definition adds_from (fresh : Z → Prop) (st st' : dfs_state) : Prop :=
  ∃ new, out st' = out st ++ new ∧
         ∀ r, r ∈ new → ∃ u, maker r = Some u ∧ fresh u.

(** What the edge loop needs of the calls it makes, for the flows. *)
Definition flow_spec (G : GraphDS) (rec : dfs_state → Z → option dfs_state)
    (bound : nat) : Prop :=
  ∀ st w st', call_pre G st w → (unvisited st <= bound)%nat →
    tree_pre G st w → records_inv G st → rec st w = Some st' →
    records_inv G st' ∧ adds_from (λ u, get (visited st) u = 0) st st'.

(** Two edges from 0 to 1 and one back. *)
Definition parallel : GraphDS :=
  foldl DFSExamples.insert (initGraph 2) [(0, 1, 9); (0, 1, 1); (1, 0, 2)].

End FlowFacts.

(** ** main.c, with the output name of cli_parser.c *)

Module Main.
Import Graph Loader DFS.

(** [CLIOptions] as [parse_cli_args] hands it over: [output_file] is the
    argument of [-o] ([None] for the null pointer) and [positionals] the
    rest of [argv] from [optind] on. *)
Record CLIOptions := MkOptions {
  output_file : option string;
  verbose : bool;
  show_help : bool;
  short_help : bool;
  user_specified_output : bool;
  positional_count : Z;
  positionals : list string
}.

(** What the program meets outside itself: the files that can be opened
    for reading, with their content; the name that [make_unique_filename]
    makes of the clock; the names that can be opened for writing; the
    largest exponent for which [mpz_ui_pow_ui] returns
    ([WeiParser.mpz_ui_pow_ui_10]). *)
Record world := World {
  readable : string → option string;
  unique_name : string;
  writable : string → bool;
  pow_limit : Z
}.

Definition make_output_filename (w : world) (opts : CLIOptions) : option string :=
  if user_specified_output opts then output_file opts else Some (unique_name w).

(** [openFile]: the stream, or [None] for the null pointer. *)
Definition openFile (w : world) (filename : string) : option string :=
  readable w filename.

(** How [main] ends: one of the early [return]s with its status; the
    [return 0] at the end, with the output file created in between (its
    name and its blocks) and the value of [total_cycles_found]; or the
    [abort] of GMP while the graph is loaded, with no exit status and no
    output file. *)
Inductive outcome :=
  | Exit (status : Z)
  | Ran (created : option (string * list cycle_record)) (total_cycles_found : nat)
  | Killed.

(** The exit status, when [main] returns. *)
Definition status (o : outcome) : option Z :=
  match o with
  | Exit s => Some s
  | Ran _ _ => Some 0
  | Killed => None
  end.

(** [depthFirstSearch] with its two early returns, before which neither
    the file nor [*total_cycles_found] is touched. *)
Definition depthFirstSearch_file (w : world) (G : GraphDS) (filename : string)
    (total_cycles_found : nat) : option outcome :=
  if (vertexAmount G =? 0)%nat then Some (Ran None total_cycles_found)
  else if negb (writable w filename) then Some (Ran None total_cycles_found)
  else match depthFirstSearch G with
       | Some st => Some (Ran (Some (filename, out st)) (cycle_count st))
       | None => None
       end.

(** [main] from the return of [parse_cli_args] on. [None] stands for what
    C leaves undefined: a null output name, a missing first positional, a
    lookup of [getVertexIndex] that misses. [loadGraph] has no [return]
    of a null pointer, so the branch [graph == NULL] is not taken. *)
Definition main (w : world) (opts : CLIOptions) : option outcome :=
  if show_help opts then Some (Exit 0)
  else if short_help opts then Some (Exit 0)
  else if positional_count opts <? 1 then Some (Exit 1)
  else
    match make_output_filename w opts, positionals opts !! 0%nat with
    | Some outName, Some input =>
        match openFile w input with
        | None => Some (Exit 1)
        | Some file =>
            match loadGraph (pow_limit w) file with
            | Loaded graph _ => depthFirstSearch_file w graph outName 0
            | LoadAbort => Some Killed
            | LoadUndefined => None
            end
        end
    | _, _ => None
    end.

(** The options that [parse_cli_args] can leave. *)
Definition parsed (opts : CLIOptions) : Prop :=
  (user_specified_output opts = true → is_Some (output_file opts)) ∧
  positional_count opts = Z.of_nat (length (positionals opts)).

(** A run on [FileFacts.three_lines] under the name [tx.txt]. *)
Definition example_world : world :=
  World (λ name, if String.eqb name "tx.txt" then Some FileFacts.three_lines else None)
        "output--2024-01-01_00-00-00.txt" (λ _, true) 1000.

Definition example_options : CLIOptions :=
  MkOptions None false false false false 1 ["tx.txt"].

End Main.

Module DFSChecks.
Import Graph DFS DFSExamples.

Example no_edge_no_cycle :
  option_map out (depthFirstSearch (initGraph 3)) = Some [].
Proof. reflexivity. Qed.

Example triangle_adjacency :
  adjList triangle = [[Tx 1 5]; [Tx 2 9]; [Tx 0 2]].
Proof. reflexivity. Qed.

Example two_disjoint_cycles :
  option_map out
    (depthFirstSearch
       (foldl insert (initGraph 4) [(0, 1, 3); (1, 0, 4); (2, 3, 8); (3, 2, 6)]))
  = Some [Cycle 1 [0; 1; 0] 4; Cycle 2 [2; 3; 2] 8].
Proof. reflexivity. Qed.

(** The newest edge of a vertex is followed first, and a vertex that is
    finished is not entered again: 1 is reached through 2, so the edge
    0 -> 1 adds nothing. *)
Example newest_edge_first :
  option_map (λ st, (out st, calls st))
    (depthFirstSearch
       (foldl insert (initGraph 3) [(0, 1, 5); (0, 2, 6); (2, 1, 7); (1, 0, 8)]))
  = Some ([Cycle 1 [0; 2; 1; 0] 8], [0; 2; 1]).
Proof. reflexivity. Qed.

Example out_of_range_edge :
  insertEdge (initGraph 2) 0 2 5 = (initGraph 2, 0) ∧
  insertEdge (initGraph 2) (-1) 0 5 = (initGraph 2, 0).
Proof. split; reflexivity. Qed.

End DFSChecks.

Module WeiExamples.
Import WeiParser.

(** Powers below [POW10_CACHE_SIZE] come from the cache, whatever the
    limit of [mpz_ui_pow_ui]. *)
Example parse_1_23e4 limit : parse_wei_optimized limit "1.23e4" = ParseOk 12300.
Proof. reflexivity. Qed.
Example parse_54e18 limit :
  parse_wei_optimized limit "54e18" = ParseOk 54000000000000000000.
Proof. reflexivity. Qed.
Example parse_1000 limit : parse_wei_optimized limit "1000" = ParseOk 1000.
Proof. reflexivity. Qed.
Example parse_12x3 limit : parse_wei_optimized limit "12x3" = ParseErr (-1).
Proof. reflexivity. Qed.
Example parse_1_23e1 limit : parse_wei_optimized limit "1.23e1" = ParseErr (-2).
Proof. reflexivity. Qed.
Example parse_neg limit :
  parse_wei_optimized limit "-5e18" = ParseOk 5000000000000000000.
Proof. reflexivity. Qed.
Example parse_5e limit : parse_wei_optimized limit "5e" = ParseOk 5.
Proof. reflexivity. Qed.
Example parse_5eX limit : parse_wei_optimized limit "5eX" = ParseOk 5.
Proof. reflexivity. Qed.
Example parse_1_5e limit : parse_wei_optimized limit "1.5e" = ParseErr (-2).
Proof. reflexivity. Qed.
(** With a limit of 100, [10 ^ 100] is computed and [10 ^ 101] is not. *)
Example parse_1e100 : parse_wei_optimized 100 "1e100" = ParseOk (10 ^ 100).
Proof. vm_compute. reflexivity. Qed.
Example parse_1e101 : parse_wei_optimized 100 "1e101" = ParseAbort.
Proof. vm_compute. reflexivity. Qed.

End WeiExamples.

(** * Properties of the parser *)

Module WeiProofs.
Import WeiParser Token TokenFacts.

Ltac cmp_cases :=
  repeat match goal with
  | |- context [(?x =? ?y)%Z] => case (Z.eqb_spec x y); intro
  | |- context [(?x <=? ?y)%Z] => case (Z.leb_spec0 x y); intro
  | |- context [(?x <? ?y)%Z] => case (Z.ltb_spec0 x y); intro
  end.

Ltac char_facts :=
  unfold in_charset, outside_charset, isdigit, isspace, is_sign, is_dot,
    is_plus, is_minus, is_eE, digit_val in *;
  repeat match goal with
  | H : _ |- _ => revert H
  end;
  cmp_cases; simpl; intros; try congruence; try lia.

Lemma digit_not_eE c : isdigit c = true → is_eE c = false.
Proof. char_facts. Qed.
Lemma digit_not_space c : isdigit c = true → isspace c = false.
Proof. char_facts. Qed.
Lemma digit_not_dot c : isdigit c = true → is_dot c = false.
Proof. char_facts. Qed.
Lemma digit_not_sign c : isdigit c = true → is_sign c = false.
Proof. char_facts. Qed.
Lemma sign_not_digit c : is_sign c = true → isdigit c = false.
Proof. char_facts. Qed.
Lemma sign_not_dot c : is_sign c = true → is_dot c = false.
Proof. char_facts. Qed.
Lemma sign_not_eE c : is_sign c = true → is_eE c = false.
Proof. char_facts. Qed.
Lemma sign_not_space c : is_sign c = true → isspace c = false.
Proof. char_facts. Qed.
Lemma sign_cases c : is_sign c = true → is_minus c = true ∨ (is_minus c = false ∧ is_plus c = true).
Proof. char_facts; auto. Qed.
Lemma eE_not_digit c : is_eE c = true → isdigit c = false.
Proof. char_facts. Qed.
Lemma eE_not_dot c : is_eE c = true → is_dot c = false.
Proof. char_facts. Qed.
Lemma eE_not_sign c : is_eE c = true → is_sign c = false.
Proof. char_facts. Qed.
Lemma dot_not_eE c : is_dot c = true → is_eE c = false.
Proof. char_facts. Qed.
Lemma dot_not_digit c : is_dot c = true → isdigit c = false.
Proof. char_facts. Qed.
Lemma digit_val_range c : isdigit c = true → 0 <= digit_val c <= 9.
Proof. char_facts. Qed.


(** *** Powers of ten *)

Lemma fill_cache_lookup n p i :
  (i < n)%nat → fill_cache n p !! i = Some (p * 10 ^ Z.of_nat i).
Proof.
  revert p i. induction n as [|n IH]; intros p i Hi; [lia|].
  destruct i as [|i]; simpl.
  - f_equal. lia.
  - rewrite IH by lia. f_equal.
    rewrite Nat2Z.inj_succ, Z.pow_succ_r by lia. lia.
Qed.

Lemma power_of_10_cached limit n :
  0 <= n < POW10_CACHE_SIZE → power_of_10 limit n = Some (10 ^ n).
Proof.
  intros Hn. unfold power_of_10.
  destruct (Z.ltb_spec n POW10_CACHE_SIZE) as [Hlt|]; [|lia].
  unfold pow10_cache. rewrite fill_cache_lookup by (unfold POW10_CACHE_SIZE in *; lia).
  simpl. rewrite Z2Nat.id by lia. f_equal. lia.
Qed.

(** The power is there exactly when it fits. *)
Lemma power_of_10_fits limit n :
  0 <= n → power_fits limit n → power_of_10 limit n = Some (10 ^ n).
Proof.
  intros Hn Hfit.
  destruct (Z.lt_ge_cases n POW10_CACHE_SIZE) as [Hlt|Hge].
  { by apply power_of_10_cached. }
  destruct Hfit as [Hlt|[Hle Hbits]]; [lia|].
  unfold power_of_10, mpz_ui_pow_ui_10.
  destruct (Z.ltb_spec n POW10_CACHE_SIZE); [lia|].
  destruct (Z.leb_spec n limit); [|lia].
  by destruct (Z.ltb_spec n MPZ_MAX_BITS); [|lia].
Qed.

Lemma power_of_10_abort limit n :
  ¬ power_fits limit n → power_of_10 limit n = None.
Proof.
  intros Hfit. unfold power_of_10, mpz_ui_pow_ui_10.
  destruct (Z.ltb_spec n POW10_CACHE_SIZE); [exfalso; apply Hfit; by left|].
  destruct (Z.leb_spec n limit); [|done].
  destruct (Z.ltb_spec n MPZ_MAX_BITS); [|done].
  exfalso. apply Hfit. by right.
Qed.

Lemma power_of_10_nonneg limit n p : power_of_10 limit n = Some p → 0 <= p.
Proof.
  unfold power_of_10, mpz_ui_pow_ui_10.
  destruct (Z.ltb_spec n POW10_CACHE_SIZE).
  - intros [= <-].
    destruct (pow10_cache !! Z.to_nat n) as [x|] eqn:E; simpl; [|lia].
    unfold pow10_cache in E.
    assert (Hlt : (Z.to_nat n < Z.to_nat POW10_CACHE_SIZE)%nat).
    { apply lookup_lt_Some in E. clear -E.
      assert (∀ k p, length (fill_cache k p) = k) as Hlen.
      { induction k; simpl; intros; [done|]. by rewrite IHk. }
      by rewrite Hlen in E. }
    rewrite fill_cache_lookup in E by done. injection E as <-.
    rewrite Z.mul_1_l. apply Z.pow_nonneg. lia.
  - destruct ((n <=? limit) && (n <? MPZ_MAX_BITS)); [|done].
    intros [= <-]. apply Z.pow_nonneg. lia.
Qed.

Lemma wrap_long_id z : LONG_MIN <= z <= LONG_MAX → wrap_long z = z.
Proof.
  unfold LONG_MIN, LONG_MAX, wrap_long. intros H.
  rewrite Z.mod_small; lia.
Qed.

Lemma wrap_long_range z : LONG_MIN <= wrap_long z <= LONG_MAX.
Proof.
  unfold LONG_MIN, LONG_MAX, wrap_long.
  pose proof (Z.mod_pos_bound (z + 2 ^ 63) (2 ^ 64)). lia.
Qed.

Lemma wrap_ulong_id z : 0 <= z < 2 ^ 64 → wrap_ulong z = z.
Proof. intros H. unfold wrap_ulong. by rewrite Z.mod_small. Qed.

(** The three branches of [apply_power], for a power that the C types
    and GMP hold, and the two ways into [abort]. *)
Lemma apply_power_pos limit M fp :
  0 < fp → power_fits limit fp →
  apply_power limit M fp = ParseOk (M * 10 ^ fp).
Proof.
  intros H Hfit. unfold apply_power.
  destruct (Z.ltb_spec 0 fp); [|lia]. by rewrite power_of_10_fits by (done || lia).
Qed.

Lemma apply_power_zero limit M : apply_power limit M 0 = ParseOk M.
Proof. reflexivity. Qed.

Lemma apply_power_neg limit M fp :
  LONG_MIN <= fp < 0 → power_fits limit (- fp) →
  apply_power limit M fp =
    if Z.rem M (10 ^ (- fp)) =? 0 then ParseOk (Z.quot M (10 ^ (- fp)))
    else ParseErr ERR_NOT_INTEGER.
Proof.
  intros H Hfit. unfold apply_power.
  destruct (Z.ltb_spec 0 fp); [lia|]. destruct (Z.ltb_spec fp 0); [|lia].
  simpl. rewrite wrap_ulong_id by (unfold LONG_MIN in H; lia).
  by rewrite power_of_10_fits by (done || lia).
Qed.

Lemma apply_power_pos_abort limit M fp :
  0 < fp → ¬ power_fits limit fp → apply_power limit M fp = ParseAbort.
Proof.
  intros H Hfit. unfold apply_power.
  destruct (Z.ltb_spec 0 fp); [|lia]. by rewrite power_of_10_abort.
Qed.

Lemma apply_power_neg_abort limit M fp :
  LONG_MIN <= fp < 0 → ¬ power_fits limit (- fp) →
  apply_power limit M fp = ParseAbort.
Proof.
  intros H Hfit. unfold apply_power.
  destruct (Z.ltb_spec 0 fp); [lia|]. destruct (Z.ltb_spec fp 0); [|lia].
  simpl. rewrite wrap_ulong_id by (unfold LONG_MIN in H; lia).
  by rewrite power_of_10_abort.
Qed.

Lemma apply_power_not_invalid limit M fp :
  apply_power limit M fp ≠ ParseErr ERR_INVALID_CHAR.
Proof.
  unfold apply_power.
  repeat match goal with
         | |- context [if ?b then _ else _] => destruct b
         | |- context [match power_of_10 ?l ?n with _ => _ end] =>
             destruct (power_of_10 l n)
         end; done.
Qed.

Lemma apply_power_nonneg limit M fp v :
  0 <= M → apply_power limit M fp = ParseOk v → 0 <= v.
Proof.
  intros HM. unfold apply_power.
  destruct (0 <? fp).
  { destruct (power_of_10 limit fp) as [p|] eqn:E; [|done].
    apply power_of_10_nonneg in E. intros [= <-]. by apply Z.mul_nonneg_nonneg. }
  destruct (fp <? 0); [|by intros [= <-]].
  simpl. destruct (power_of_10 limit (wrap_ulong (- fp))) as [p|] eqn:E; [|done].
  apply power_of_10_nonneg in E.
  destruct (Z.rem M p =? 0); [|done]. intros [= <-].
  destruct (Z.eq_dec p 0) as [->|]; [by destruct M|].
  apply Z.quot_pos; lia.
Qed.

(** *** Strings *)

Lemma app_cons_string x (a b : string) : String x a +:+ b = String x (a +:+ b).
Proof. reflexivity. Qed.

Lemma app_nil_l_string (b : string) : EmptyString +:+ b = b.
Proof. reflexivity. Qed.

Ltac sapp := rewrite ?app_cons_string, ?app_nil_l_string.

Lemma app_assoc_string (a b c : string) : (a +:+ b) +:+ c = a +:+ (b +:+ c).
Proof. induction a as [|x a IH]; sapp; [done|]. by rewrite IH. Qed.

Lemma app_nil_r_string (a : string) : a +:+ EmptyString = a.
Proof. induction a as [|x a IH]; sapp; [done|]. by rewrite IH. Qed.

Lemma length_app_string (a b : string) :
  String.length (a +:+ b) = (String.length a + String.length b)%nat.
Proof.
  induction a as [|x a IH]; sapp; simpl; [done|]. by rewrite IH.
Qed.

Lemma all_digits_app a b :
  all_digits (a +:+ b) = all_digits a && all_digits b.
Proof.
  induction a as [|x a IH]; sapp; simpl; [done|]. rewrite IH. by rewrite andb_assoc.
Qed.

Lemma all_digits_no_eE ds : all_digits ds = true → has_char is_eE ds = false.
Proof.
  induction ds as [|c ds IH]; simpl; [done|].
  intros [Hc Hds]%andb_true_iff. by rewrite (digit_not_eE c), IH.
Qed.

Lemma has_char_app P a b : has_char P (a +:+ b) = has_char P a || has_char P b.
Proof.
  induction a as [|x a IH]; sapp; simpl; [done|]. rewrite IH. by rewrite orb_assoc.
Qed.

Lemma dec_value_nonneg ds : all_digits ds = true → 0 <= dec_value ds.
Proof.
  induction ds as [|c ds IH]; simpl; [done|].
  intros [Hc Hds]%andb_true_iff. pose proof (digit_val_range c Hc).
  specialize (IH Hds).
  assert (0 <= 10 ^ Z.of_nat (String.length ds)) by (apply Z.pow_nonneg; lia).
  nia.
Qed.

Lemma dec_value_app a b :
  dec_value (a +:+ b) = dec_value a * 10 ^ Z.of_nat (String.length b) + dec_value b.
Proof.
  induction a as [|x a IH]; sapp; simpl; [lia|].
  rewrite IH, length_app_string, Nat2Z.inj_add, Z.pow_add_r by lia. lia.
Qed.

(** *** [strpbrk] *)

Lemma strpbrk_marker m c after :
  has_char is_eE m = false → is_eE c = true →
  strpbrk_eE (m +:+ String c after) = (m, Some after).
Proof.
  intros Hm Hc. induction m as [|x m IH]; sapp; simpl in *.
  - by rewrite Hc.
  - apply orb_false_iff in Hm as [Hx Hm]. by rewrite Hx, IH.
Qed.

Lemma strpbrk_none m : has_char is_eE m = false → strpbrk_eE m = (m, None).
Proof.
  intros Hm. induction m as [|x m IH]; simpl in *; [done|].
  apply orb_false_iff in Hm as [Hx Hm]. by rewrite Hx, IH.
Qed.

Lemma region_no_eE s : has_char is_eE (region s) = false.
Proof.
  unfold region. induction s as [|c s IH]; simpl; [done|].
  destruct (is_eE c) eqn:Hc; simpl; [done|].
  destruct (strpbrk_eE s) as [m e]; simpl in *. by rewrite Hc, IH.
Qed.

Lemma has_char_region P s : has_char P (region s) = true → has_char P s = true.
Proof.
  unfold region. induction s as [|c s IH]; simpl; [done|].
  destruct (is_eE c) eqn:Hc; simpl; [done|].
  destruct (strpbrk_eE s) as [m e]; simpl in *.
  intros [H|H]%orb_true_iff; apply orb_true_iff; auto.
Qed.

(** *** The mantissa loop *)

Lemma mantissa_loop_digits ds rest first st :
  all_digits ds = true →
  mantissa_loop first (ds +:+ rest) st =
    mantissa_loop (if (String.length ds =? 0)%nat then first else false) rest
      (MState (mantissa_int st * 10 ^ Z.of_nat (String.length ds) + dec_value ds)
              (if dot_found st then decimal_places st + Z.of_nat (String.length ds)
               else decimal_places st)
              (dot_found st)
              (if (String.length ds =? 0)%nat then has_digits st else true)).
Proof.
  revert first st. induction ds as [|c ds IH]; intros first st Hds.
  - sapp. simpl. destruct st as [M d dot h]; simpl. f_equal. f_equal; [lia|].
    destruct dot; lia.
  - simpl in Hds. apply andb_true_iff in Hds as [Hc Hds].
    sapp. cbn [mantissa_loop]. rewrite Hc, IH by done.
    cbn [mantissa_int decimal_places dot_found has_digits String.length Nat.eqb].
    f_equal; [by destruct (String.length ds =? 0)%nat|].
    f_equal.
    + rewrite Nat2Z.inj_succ, Z.pow_succ_r by lia. cbn [dec_value]. lia.
    + destruct (dot_found st); lia.
    + by destruct (String.length ds =? 0)%nat.
Qed.

(** A character the loop rejects anywhere stops it with the error. *)
Lemma mantissa_loop_outside m first st :
  has_char outside_charset m = true → mantissa_loop first m st = None.
Proof.
  revert first st. induction m as [|c m IH]; intros first st; simpl; [done|].
  intros [Hc|Hm]%orb_true_iff.
  - assert (isdigit c = false ∧ is_dot c = false ∧ is_sign c = false) as (-> & -> & ->).
    { unfold outside_charset, in_charset in Hc.
      apply negb_true_iff in Hc.
      repeat (apply orb_false_iff in Hc as [Hc ?]). done. }
    done.
  - destruct (isdigit c); [by apply IH|].
    destruct (is_dot c && negb (dot_found st)); [by apply IH|].
    destruct (is_sign c && first); [by apply IH|done].
Qed.

Lemma mantissa_loop_no_digit m first st st' :
  has_char isdigit m = false → mantissa_loop first m st = Some st' →
  has_digits st' = has_digits st.
Proof.
  revert first st. induction m as [|c m IH]; intros first st; simpl.
  - by intros _ [= <-].
  - intros [Hc Hm]%orb_false_iff. rewrite Hc.
    destruct (is_dot c && negb (dot_found st)).
    { intros H. by rewrite (IH _ _ Hm H). }
    destruct (is_sign c && first); [|done].
    intros H. by rewrite (IH _ _ Hm H).
Qed.

Lemma mantissa_loop_nonneg m first st st' :
  0 <= mantissa_int st → mantissa_loop first m st = Some st' →
  0 <= mantissa_int st'.
Proof.
  revert first st. induction m as [|c m IH]; intros first st HM; simpl.
  - by intros [= <-].
  - destruct (isdigit c) eqn:Hc.
    { apply IH. simpl. pose proof (digit_val_range c Hc). lia. }
    destruct (is_dot c && negb (dot_found st)); [by apply IH|].
    destruct (is_sign c && first); [by apply IH|done].
Qed.

(** A region the loop accepts holds no marker. *)
Lemma mantissa_loop_no_eE m first st st' :
  mantissa_loop first m st = Some st' → has_char is_eE m = false.
Proof.
  revert first st. induction m as [|c m IH]; intros first st; simpl; [done|].
  destruct (is_eE c) eqn:Hc; simpl.
  - by rewrite (eE_not_digit c), (eE_not_dot c), (eE_not_sign c).
  - destruct (isdigit c); [by apply IH|].
    destruct (is_dot c && negb (dot_found st)); [by apply IH|].
    destruct (is_sign c && first); [by apply IH|done].
Qed.

(** Only a sign in the first position makes [p == s] matter. *)
Lemma mantissa_loop_first m st :
  starts_with is_sign m = false →
  mantissa_loop true m st = mantissa_loop false m st.
Proof.
  destruct m as [|c m]; simpl; [done|]. intros ->.
  by rewrite !andb_false_l.
Qed.

(** *** [strtol] *)

Lemma strtol_digits_all ds acc :
  all_digits ds = true →
  strtol_digits acc ds = acc * 10 ^ Z.of_nat (String.length ds) + dec_value ds.
Proof.
  revert acc. induction ds as [|c ds IH]; intros acc; simpl; [lia|].
  intros [Hc Hds]%andb_true_iff. rewrite Hc, IH by done.
  change (Z.pos (Pos.of_succ_nat (String.length ds)))
    with (Z.of_nat (S (String.length ds))).
  rewrite Nat2Z.inj_succ, Z.pow_succ_r by lia. lia.
Qed.

Lemma strtol_digits_no_digit s acc :
  starts_with isdigit s = false → strtol_digits acc s = acc.
Proof. destruct s as [|c s]; simpl; [done|]. by intros ->. Qed.

Lemma clamp_long_id z : LONG_MIN <= z <= LONG_MAX → clamp_long z = z.
Proof.
  intros H. unfold clamp_long.
  destruct (Z.ltb_spec z LONG_MIN); [lia|].
  destruct (Z.ltb_spec LONG_MAX z); [lia|done].
Qed.

Lemma no_conversion_strtol s : no_conversion s = true → strtol s = 0.
Proof.
  unfold no_conversion, strtol.
  destruct (skip_space s) as [|c r]; [done|].
  destruct (is_sign c) eqn:Hs.
  - intros Hr%negb_true_iff.
    rewrite (strtol_digits_no_digit r) by done.
    destruct (sign_cases c Hs) as [->| [-> ->]]; reflexivity.
  - intros Hc%negb_true_iff.
    apply orb_false_iff in Hs as [-> ->].
    simpl. by rewrite Hc.
Qed.

(** A signed run of digits converts to its value, clamped. *)
Lemma strtol_signed s ds :
  sign_ok s = true → all_digits ds = true → (String.length ds ≠ 0)%nat →
  strtol (opt_char s +:+ ds) =
    clamp_long (if negative s then - dec_value ds else dec_value ds).
Proof.
  intros Hs Hds Hlen. unfold strtol.
  destruct s as [c|]; simpl in Hs |- *.
  - sapp. simpl. rewrite (sign_not_space c) by done.
    rewrite (strtol_digits_all ds) by done.
    destruct (sign_cases c Hs) as [->| [-> ->]]; f_equal; lia.
  - sapp. destruct ds as [|c ds]; [done|]. simpl in Hds.
    apply andb_true_iff in Hds as [Hc Hds].
    cbn [skip_space]. rewrite (digit_not_space c) by done.
    pose proof (digit_not_sign c Hc) as [Hp Hm]%orb_false_iff.
    rewrite Hp, Hm. f_equal.
    change (strtol_digits 0 (String c ds) = dec_value (String c ds)).
    rewrite strtol_digits_all by (simpl; by rewrite Hc, Hds). lia.
Qed.

(** *** What the parser does on a rendered token *)

Lemma render_frac_no_eE t :
  all_digits (frac_digits t) = true → has_char is_eE (render_frac t) = false.
Proof.
  unfold render_frac, frac_digits. destruct (tk_frac t) as [f|]; simpl; [|done].
  intros H. by rewrite all_digits_no_eE.
Qed.

Lemma opt_sign_no_eE s : sign_ok s = true → has_char is_eE (opt_char s) = false.
Proof.
  destruct s as [c|]; simpl; [|done]. intros H. by rewrite sign_not_eE.
Qed.

Lemma mantissa_text_no_eE t :
  valid t = true → has_char is_eE (mantissa_text t) = false.
Proof.
  unfold valid, mantissa_text. rewrite !andb_true_iff.
  intros ((((Hs & Hi) & Hf) & _) & _).
  rewrite !has_char_app, opt_sign_no_eE, all_digits_no_eE, render_frac_no_eE; done.
Qed.

Lemma render_split t :
  render t = mantissa_text t +:+ render_exp t.
Proof. unfold render, mantissa_text. by rewrite !app_assoc_string. Qed.

Lemma region_render t : valid t = true → region (render t) = mantissa_text t.
Proof.
  intros Hv. pose proof (mantissa_text_no_eE t Hv) as Hm.
  unfold region. rewrite render_split. unfold render_exp.
  destruct (tk_exp t) as [[[marker s] ds]|] eqn:He.
  - rewrite strpbrk_marker; [done|done|].
    unfold valid, exp_ok in Hv. rewrite He in Hv.
    rewrite !andb_true_iff in Hv. tauto.
  - rewrite app_nil_r_string. by rewrite strpbrk_none.
Qed.

Lemma exponent_render t :
  valid t = true →
  exponent_of (after_marker (render t)) = clamp_long (exponent t).
Proof.
  intros Hv. pose proof (mantissa_text_no_eE t Hv) as Hm.
  unfold after_marker, exponent. rewrite render_split. unfold render_exp.
  unfold valid, exp_ok in Hv.
  destruct (tk_exp t) as [[[marker s] ds]|] eqn:He.
  - rewrite !andb_true_iff in Hv. destruct Hv as (_ & ((Hmk & Hs) & Hds) & Hlen).
    rewrite strpbrk_marker by done. simpl.
    apply strtol_signed; [done|done|].
    apply negb_true_iff, Nat.eqb_neq in Hlen. done.
  - rewrite app_nil_r_string, strpbrk_none by done. reflexivity.
Qed.

Lemma mantissa_loop_dot rest first st :
  dot_found st = false →
  mantissa_loop first (String "." rest) st =
    mantissa_loop false rest
      (MState (mantissa_int st) (decimal_places st) true (has_digits st)).
Proof. intros H. cbn [mantissa_loop]. rewrite H. reflexivity. Qed.

Lemma mantissa_loop_sign s rest st :
  sign_ok s = true →
  mantissa_loop true (opt_char s +:+ rest) st =
    mantissa_loop (match s with Some _ => false | None => true end) rest st.
Proof.
  destruct s as [c|]; simpl; intros Hs; sapp; [|done].
  cbn [mantissa_loop]. by rewrite (sign_not_digit c), (sign_not_dot c), Hs.
Qed.

Lemma scan_render t :
  valid t = true →
  ∃ dot, scan (render t) = Some (MState (mantissa t) (places t) dot true).
Proof.
  intros Hv. unfold scan. rewrite region_render by done.
  unfold valid in Hv. rewrite !andb_true_iff in Hv.
  destruct Hv as ((((Hs & Hi) & Hf) & Hlen) & _).
  apply negb_true_iff, Nat.eqb_neq in Hlen.
  unfold mantissa_text.
  rewrite mantissa_loop_sign, mantissa_loop_digits by done.
  unfold mantissa, places, render_frac, frac_digits in *.
  destruct (tk_frac t) as [f|]; cbn [default] in *.
  - rewrite mantissa_loop_dot by done.
    pose proof (mantissa_loop_digits f EmptyString) as E.
    rewrite app_nil_r_string in E. rewrite E by done. clear E.
    cbn [mantissa_loop mantissa_int decimal_places dot_found has_digits mantissa_init].
    exists true. f_equal. rewrite dec_value_app.
    rewrite length_app_string in Hlen.
    f_equal; try lia. unfold id in *.
    destruct (String.length (tk_int t)), (String.length f); simpl; done.
  - rewrite app_nil_r_string in *. cbn [mantissa_loop].
    exists false. f_equal. cbn [mantissa_int decimal_places dot_found has_digits mantissa_init].
    f_equal; try lia.
    destruct (String.length (tk_int t)); simpl in *; done.
Qed.

Lemma parse_unfold limit s :
  parse_wei_optimized limit s =
    match scan s with
    | None => ParseErr ERR_INVALID_CHAR
    | Some st =>
        if negb (has_digits st) then ParseErr ERR_INVALID_CHAR
        else apply_power limit (mantissa_int st) (net_power s st)
    end.
Proof.
  unfold parse_wei_optimized, scan, net_power, region, after_marker.
  by destruct (strpbrk_eE s) as [m e].
Qed.

Lemma parse_render limit t :
  valid t = true →
  parse_wei_optimized limit (render t) =
    apply_power limit (mantissa t) (wrap_long (clamp_long (exponent t) - places t)).
Proof.
  intros Hv. rewrite parse_unfold.
  destruct (scan_render t Hv) as [dot ->]. simpl.
  unfold net_power. by rewrite exponent_render.
Qed.

Lemma mantissa_loop_zero m first st st' :
  (has_digits st = false → mantissa_int st = 0) →
  mantissa_loop first m st = Some st' →
  has_digits st' = false → mantissa_int st' = 0.
Proof.
  revert first st. induction m as [|c m IH]; intros first st Hinv; simpl.
  - by intros [= <-].
  - destruct (isdigit c); [by apply IH|].
    destruct (is_dot c && negb (dot_found st)); [by apply IH|].
    destruct (is_sign c && first); [by apply IH|done].
Qed.

Lemma ParseOk_inj a b : ParseOk a = ParseOk b → a = b.
Proof. by intros [= ->]. Qed.

Lemma pow10_lt a b : 0 <= a < b → 10 ^ a < 10 ^ b.
Proof. intros H. apply Z.pow_lt_mono_r; lia. Qed.

Lemma parse_nonneg limit s v : parse_wei_optimized limit s = ParseOk v → 0 <= v.
Proof.
  rewrite parse_unfold. unfold scan.
  destruct (mantissa_loop true (region s) mantissa_init) as [st|] eqn:E; [|done].
  destruct (has_digits st); simpl; [|done].
  apply apply_power_nonneg.
  by apply (mantissa_loop_nonneg (region s) true mantissa_init st).
Qed.

(** *** The claims about the parser *)

(** C2, as stated, fails: the token [1e9223372036854775807] is digits
    and an exponent that a [long] holds, but no [mpz_t] holds ten to that
    power: [mpz_ui_pow_ui] ends the process, whatever its limit, and
    [parse_wei_optimized] returns nothing. *)
Lemma parse_power_beyond_gmp :
  let t := Token None "1" None (Some ("e"%char, None, "9223372036854775807")) in
  render t = "1e9223372036854775807" ∧ valid t = true ∧
  exponent t = LONG_MAX ∧ 0 <= exponent t - places t ∧
  ∀ limit,
    parse_wei_optimized limit (render t) = ParseAbort ∧
    parse_wei_optimized limit (render t)
      ≠ ParseOk (mantissa t * 10 ^ (exponent t - places t)).
Proof.
  intros t.
  assert (Hv : valid t = true) by reflexivity.
  assert (Hx : exponent t = LONG_MAX) by reflexivity.
  assert (Hp : places t = 0) by reflexivity.
  assert (Habort : ∀ limit, parse_wei_optimized limit (render t) = ParseAbort).
  { intros limit. rewrite parse_render by done. rewrite Hx, Hp.
    replace (wrap_long (clamp_long LONG_MAX - 0)) with LONG_MAX by reflexivity.
    apply apply_power_pos_abort; [unfold LONG_MAX; lia|].
    unfold power_fits, LONG_MAX, POW10_CACHE_SIZE, MPZ_MAX_BITS. lia. }
  split; [reflexivity|]. split; [done|]. split; [done|].
  split; [rewrite Hx, Hp; unfold LONG_MAX; lia|].
  intros limit. split; [done|]. rewrite Habort. discriminate.
Qed.

(** C2, amended: for every token made of an optional sign, digits with an
    optional decimal point and an optional exponent, whose exponent [x]
    fits a C [long] and whose power of ten [|x - d|] GMP has (it is below
    the cache size, or within the limit of [mpz_ui_pow_ui]), the parser
    succeeds with [M * 10 ^ (x - d)] when [x - d >= 0], and with
    [M / 10 ^ (d - x)] when [x - d < 0] and the division is exact. When
    GMP does not have the power, the process is aborted. ["1.23e4"] gives
    12300, ["54e18"] gives 54000000000000000000 and ["1000"] gives 1000,
    whatever the limit. *)
Theorem parse_valid_token :
  (∀ (limit : Z) (t : token),
     valid t = true →
     exponent t <= LONG_MAX →
     power_fits limit (Z.abs (exponent t - places t)) →
     (0 <= exponent t - places t →
      parse_wei_optimized limit (render t)
        = ParseOk (mantissa t * 10 ^ (exponent t - places t))) ∧
     (exponent t - places t < 0 →
      (10 ^ (places t - exponent t) | mantissa t) →
      parse_wei_optimized limit (render t)
        = ParseOk (mantissa t / 10 ^ (places t - exponent t)))) ∧
  (∀ (limit : Z) (t : token),
     valid t = true →
     LONG_MIN <= exponent t - places t → exponent t <= LONG_MAX →
     ¬ power_fits limit (Z.abs (exponent t - places t)) →
     parse_wei_optimized limit (render t) = ParseAbort) ∧
  (∀ limit, parse_wei_optimized limit "1.23e4" = ParseOk 12300) ∧
  (∀ limit, parse_wei_optimized limit "54e18" = ParseOk 54000000000000000000) ∧
  (∀ limit, parse_wei_optimized limit "1000" = ParseOk 1000).
Proof.
  split; [|split; [|repeat split; reflexivity]].
  - intros limit t Hv Hhi Hfit.
    assert (Hd : 0 <= places t) by (unfold places; lia).
    assert (Hlo : - MPZ_MAX_BITS < exponent t - places t).
    { destruct Hfit as [Hfit|[_ Hfit]];
        unfold POW10_CACHE_SIZE, MPZ_MAX_BITS in *; lia. }
    rewrite parse_render by done.
    rewrite clamp_long_id by (unfold LONG_MIN, LONG_MAX, MPZ_MAX_BITS in *; lia).
    rewrite wrap_long_id by (unfold LONG_MIN, LONG_MAX, MPZ_MAX_BITS in *; lia).
    split.
    + intros Hnp. destruct (Z.eq_dec (exponent t - places t) 0) as [->|Hne].
      * rewrite apply_power_zero. f_equal. simpl. lia.
      * rewrite Z.abs_eq in Hfit by done. by rewrite apply_power_pos by (done || lia).
    + intros Hnp Hdiv.
      rewrite Z.abs_neq in Hfit by lia.
      rewrite apply_power_neg
        by (done || (unfold LONG_MIN, MPZ_MAX_BITS in *; lia)).
      replace (- (exponent t - places t)) with (places t - exponent t) by lia.
      set (p := 10 ^ (places t - exponent t)) in *.
      assert (Hp : 0 < p) by (apply Z.pow_pos_nonneg; lia).
      assert (HM : 0 <= mantissa t).
      { unfold mantissa. apply dec_value_nonneg. rewrite all_digits_app.
        unfold valid in Hv. rewrite !andb_true_iff in Hv. rewrite andb_true_iff. tauto. }
      rewrite Z.rem_mod_nonneg, Z.quot_div_nonneg by lia.
      apply Z.mod_divide in Hdiv; [|lia]. rewrite Hdiv. reflexivity.
  - intros limit t Hv Hlo Hhi Hfit.
    assert (Hd : 0 <= places t) by (unfold places; lia).
    rewrite parse_render by done.
    rewrite clamp_long_id by (unfold LONG_MIN, LONG_MAX in *; lia).
    rewrite wrap_long_id by (unfold LONG_MIN, LONG_MAX in *; lia).
    destruct (Z.lt_trichotomy (exponent t - places t) 0) as [Hneg|[Hz|Hpos]].
    + rewrite Z.abs_neq in Hfit by lia. by apply apply_power_neg_abort.
    + exfalso. apply Hfit. left. rewrite Hz. reflexivity.
    + rewrite Z.abs_eq in Hfit by lia. by apply apply_power_pos_abort.
Qed.

Lemma parse_valid_token_witness :
  let t := Token (Some "+"%char) "120" (Some "0") (Some ("E"%char, Some "-"%char, "1")) in
  let big := Token None "7" None (Some ("e"%char, None, "80")) in
  let huge := Token None "3" None (Some ("e"%char, None, "137438953408")) in
  render t = "+120.0E-1" ∧
  (10 ^ (places t - exponent t) | mantissa t) ∧
  parse_wei_optimized 100 (render t) = ParseOk 12 ∧
  render big = "7e80" ∧
  parse_wei_optimized 100 (render big) = ParseOk (7 * 10 ^ 80) ∧
  render huge = "3e137438953408" ∧
  parse_wei_optimized (2 ^ 62) (render huge) = ParseAbort.
Proof.
  intros t big huge. split; [reflexivity|].
  assert (Hdiv : (10 ^ (places t - exponent t) | mantissa t)).
  { exists 12. reflexivity. }
  split; [done|].
  destruct parse_valid_token as (H & Habort & _).
  destruct (H 100 t) as [_ Hneg]; [reflexivity|discriminate|left; reflexivity|].
  split; [rewrite Hneg; [reflexivity|reflexivity|done]|].
  split; [reflexivity|].
  destruct (H 100 big) as [Hpos _];
    [reflexivity|discriminate|right; split; [discriminate|reflexivity]|].
  split; [apply Hpos; discriminate|].
  split; [reflexivity|].
  apply (Habort (2 ^ 62) huge); [reflexivity|discriminate|discriminate|].
  intros [Hc|[_ Hc]]; discriminate Hc.
Defined.

(** C3, as stated, fails for the code -2: the token
    [1e-9223372036854775808] has a negative net power and a division that
    leaves a remainder, but GMP has no [10 ^ (2 ^ 63)]: the process is
    aborted and no code is returned. *)
Lemma not_integer_beyond_gmp :
  let t := Token None "1" None
             (Some ("e"%char, Some "-"%char, "9223372036854775808")) in
  render t = "1e-9223372036854775808" ∧ valid t = true ∧
  exponent t - places t < 0 ∧
  mantissa t mod 10 ^ (places t - exponent t) ≠ 0 ∧
  ∀ limit,
    parse_wei_optimized limit (render t) = ParseAbort ∧
    parse_wei_optimized limit (render t) ≠ ParseErr ERR_NOT_INTEGER.
Proof.
  intros t.
  assert (Hv : valid t = true) by reflexivity.
  assert (Hx : exponent t = LONG_MIN) by reflexivity.
  assert (Hp : places t = 0) by reflexivity.
  assert (Hm : mantissa t = 1) by reflexivity.
  assert (Habort : ∀ limit, parse_wei_optimized limit (render t) = ParseAbort).
  { intros limit. rewrite parse_render by done. rewrite Hx, Hp.
    replace (wrap_long (clamp_long LONG_MIN - 0)) with LONG_MIN by reflexivity.
    apply apply_power_neg_abort; [unfold LONG_MIN; lia|].
    unfold power_fits, LONG_MIN, POW10_CACHE_SIZE, MPZ_MAX_BITS. lia. }
  split; [reflexivity|]. split; [done|].
  split; [rewrite Hx, Hp; unfold LONG_MIN; lia|].
  split.
  - rewrite Hx, Hp, Hm.
    assert (Hexp : 0 <= 0 < 0 - LONG_MIN) by (unfold LONG_MIN; lia).
    pose proof (pow10_lt _ _ Hexp) as Hbig. change (10 ^ 0) with 1 in Hbig.
    set (P := 10 ^ (0 - LONG_MIN)) in *. clearbody P.
    rewrite Z.mod_small by lia. discriminate.
  - intros limit. split; [done|]. rewrite Habort. discriminate.
Qed.

(** C3, amended: a character outside [0-9.eE+-] in the mantissa region,
    or a token (or a mantissa region) without any digit, gives the code
    -1; a token with mantissa [M], [d] decimal places and exponent [x]
    that fits a [long], with [x - d < 0] and [M] not a multiple of
    [10 ^ (d - x)], gives the different code -2 whenever GMP has that
    power; ["12x3"] gives -1 and ["1.23e1"] gives -2. *)
Theorem parse_error_kinds :
  (∀ limit s, has_char outside_charset (region s) = true →
        parse_wei_optimized limit s = ParseErr ERR_INVALID_CHAR) ∧
  (∀ limit s, has_char isdigit s = false →
        parse_wei_optimized limit s = ParseErr ERR_INVALID_CHAR) ∧
  (∀ limit s, has_char isdigit (region s) = false →
        parse_wei_optimized limit s = ParseErr ERR_INVALID_CHAR) ∧
  (∀ limit (t : token),
        valid t = true →
        exponent t - places t < 0 → exponent t <= LONG_MAX →
        power_fits limit (places t - exponent t) →
        mantissa t mod 10 ^ (places t - exponent t) ≠ 0 →
        parse_wei_optimized limit (render t) = ParseErr ERR_NOT_INTEGER) ∧
  ERR_INVALID_CHAR ≠ ERR_NOT_INTEGER ∧
  (∀ limit, parse_wei_optimized limit "12x3" = ParseErr ERR_INVALID_CHAR) ∧
  (∀ limit, parse_wei_optimized limit "1.23e1" = ParseErr ERR_NOT_INTEGER).
Proof.
  assert (Hnodigit : ∀ limit s, has_char isdigit (region s) = false →
            parse_wei_optimized limit s = ParseErr ERR_INVALID_CHAR).
  { intros limit s H. rewrite parse_unfold. unfold scan.
    destruct (mantissa_loop true (region s) mantissa_init) as [st|] eqn:E; [|done].
    by rewrite (mantissa_loop_no_digit _ _ _ _ H E). }
  split; [|split; [|split; [|split; [|split; [|split]]]]];
    try reflexivity; try done.
  - intros limit s H. rewrite parse_unfold. unfold scan.
    by rewrite mantissa_loop_outside.
  - intros limit s H. apply Hnodigit.
    destruct (has_char isdigit (region s)) eqn:E; [|done].
    apply has_char_region in E. congruence.
  - intros limit t Hv Hneg Hhi Hfit Hrem.
    assert (Hd : 0 <= places t) by (unfold places; lia).
    assert (Hlo : - MPZ_MAX_BITS < exponent t - places t).
    { destruct Hfit as [Hfit|[_ Hfit]];
        unfold POW10_CACHE_SIZE, MPZ_MAX_BITS in *; lia. }
    assert (HM : 0 <= mantissa t).
    { unfold mantissa. apply dec_value_nonneg. rewrite all_digits_app.
      unfold valid in Hv. rewrite !andb_true_iff in Hv. rewrite andb_true_iff. tauto. }
    rewrite parse_render by done.
    rewrite clamp_long_id by (unfold LONG_MIN, LONG_MAX, MPZ_MAX_BITS in *; lia).
    rewrite wrap_long_id by (unfold LONG_MIN, LONG_MAX, MPZ_MAX_BITS in *; lia).
    rewrite apply_power_neg.
    + replace (- (exponent t - places t)) with (places t - exponent t) by lia.
      set (p := 10 ^ (places t - exponent t)) in *.
      assert (Hp : 0 < p) by (apply Z.pow_pos_nonneg; lia).
      rewrite Z.rem_mod_nonneg by lia.
      by destruct (Z.eqb_spec (mantissa t mod p) 0).
    + unfold LONG_MIN, MPZ_MAX_BITS in *. lia.
    + by replace (- (exponent t - places t)) with (places t - exponent t) by lia.
Qed.

Lemma parse_error_kinds_witness :
  let t := Token None "1" (Some "23") (Some ("e"%char, None, "1")) in
  let u := Token None "5" None (Some ("e"%char, Some "-"%char, "1")) in
  parse_wei_optimized 100 "12x3" = ParseErr ERR_INVALID_CHAR ∧
  parse_wei_optimized 100 "+." = ParseErr ERR_INVALID_CHAR ∧
  parse_wei_optimized 100 ".e5" = ParseErr ERR_INVALID_CHAR ∧
  render t = "1.23e1" ∧
  parse_wei_optimized 100 (render t) = ParseErr ERR_NOT_INTEGER ∧
  render u = "5e-1" ∧
  parse_wei_optimized 100 (render u) = ParseErr ERR_NOT_INTEGER.
Proof.
  intros t u.
  destruct parse_error_kinds as (Ha & Hb & Hc & Hd & _).
  split; [apply Ha; reflexivity|].
  split; [apply Hb; reflexivity|].
  split; [apply Hc; reflexivity|].
  split; [reflexivity|].
  split; [apply (Hd 100 t); [reflexivity|reflexivity|discriminate|left; reflexivity|discriminate]|].
  split; [reflexivity|].
  apply (Hd 100 u); [reflexivity|reflexivity|discriminate|left; reflexivity|discriminate].
Defined.

(** C9: a leading sign is dropped: for every text [T] that does not
    itself begin with a sign, ["-T"] and ["+T"] parse as [T] does; every
    value parsed is nonnegative; ["-5e18"] gives 5000000000000000000. *)
Theorem sign_discarded :
  (∀ (limit : Z) (T : string) (c : ascii),
     is_sign c = true → starts_with is_sign T = false →
     parse_wei_optimized limit (String c T) = parse_wei_optimized limit T) ∧
  (∀ limit s v, parse_wei_optimized limit s = ParseOk v → 0 <= v) ∧
  (∀ limit, parse_wei_optimized limit "-5e18" = ParseOk 5000000000000000000).
Proof.
  split; [|split; [|reflexivity]].
  - intros limit T c Hc HT. unfold parse_wei_optimized.
    cbn [strpbrk_eE]. rewrite (sign_not_eE c) by done.
    assert (Hreg : starts_with is_sign (strpbrk_eE T).1 = false).
    { destruct T as [|x T]; simpl in *; [done|].
      destruct (is_eE x); [done|]. by destruct (strpbrk_eE T). }
    destruct (strpbrk_eE T) as [m e]. simpl in Hreg.
    cbn [mantissa_loop]. rewrite (sign_not_digit c), (sign_not_dot c), Hc by done.
    simpl. by rewrite (mantissa_loop_first m).
  - apply parse_nonneg.
Qed.

Lemma sign_discarded_witness :
  parse_wei_optimized 100 "-5e18" = parse_wei_optimized 100 "5e18" ∧
  parse_wei_optimized 100 "+5e18" = parse_wei_optimized 100 "5e18" ∧
  0 <= 5000000000000000000.
Proof.
  destruct sign_discarded as (Hs & Hn & _).
  split; [apply (Hs 100 "5e18" "-"%char); reflexivity|].
  split; [apply (Hs 100 "5e18" "+"%char); reflexivity|].
  apply (Hn 100 "-5e18"). reflexivity.
Defined.

(** C10, as stated, fails: ["1.5e"] has a well-formed mantissa and
    nothing after the marker, and the parser does not succeed on it. *)
Lemma exponent_suffix_not_always_success :
  scan "1.5" = Some (MState 15 1 true true) ∧
  no_conversion "" = true ∧
  ∀ limit,
    parse_wei_optimized limit "1.5e" = ParseErr ERR_NOT_INTEGER ∧
    return_code (parse_wei_optimized limit "1.5e") ≠ Some 0.
Proof. repeat split; discriminate. Qed.

(** C10, amended: what follows the marker is never validated; when
    [strtol] finds no integer there, the exponent is 0 and the token is
    parsed exactly as its mantissa alone: never rejected as a syntax
    error, successful with the mantissa when there are no fractional
    digits (["5e"] and ["5eX"] give 5), and subject to the same
    divisibility test as the mantissa alone otherwise. *)
Theorem exponent_suffix_unchecked :
  (∀ (limit : Z) (m : string) (c : ascii) (suffix : string) (st : mantissa_state),
     is_eE c = true →
     mantissa_loop true m mantissa_init = Some st → has_digits st = true →
     no_conversion suffix = true →
     let s := m +:+ String c suffix in
     exponent_of (after_marker s) = 0 ∧
     parse_wei_optimized limit s = parse_wei_optimized limit m ∧
     return_code (parse_wei_optimized limit s) ≠ Some ERR_INVALID_CHAR ∧
     (decimal_places st = 0 →
      parse_wei_optimized limit s = ParseOk (mantissa_int st))) ∧
  (∀ limit, parse_wei_optimized limit "5e" = ParseOk 5) ∧
  (∀ limit, parse_wei_optimized limit "5eX" = ParseOk 5).
Proof.
  split; [|split; reflexivity].
  intros limit m c suffix st Hc Hscan Hd Hsuf s.
  pose proof (mantissa_loop_no_eE _ _ _ _ Hscan) as Hm.
  assert (Hs : strpbrk_eE s = (m, Some suffix)) by by apply strpbrk_marker.
  assert (He : exponent_of (after_marker s) = 0).
  { unfold after_marker. rewrite Hs. simpl. by apply no_conversion_strtol. }
  assert (Hparse : parse_wei_optimized limit s
            = apply_power limit (mantissa_int st) (wrap_long (0 - decimal_places st))).
  { rewrite parse_unfold. unfold scan, region, net_power. rewrite He, Hs. simpl.
    by rewrite Hscan, Hd. }
  split; [done|]. split; [|split].
  - rewrite Hparse, (parse_unfold limit m). unfold scan, region, net_power, after_marker.
    rewrite strpbrk_none by done. simpl. by rewrite Hscan, Hd.
  - rewrite Hparse.
    pose proof (apply_power_not_invalid limit (mantissa_int st)
                  (wrap_long (0 - decimal_places st))) as Hne.
    destruct (apply_power limit (mantissa_int st) (wrap_long (0 - decimal_places st)))
      as [v|code|]; simpl; [done| |done].
    intros [= ->]. done.
  - intros Hz. by rewrite Hparse, Hz.
Qed.

Lemma exponent_suffix_unchecked_witness :
  parse_wei_optimized 100 "-25E+x" = parse_wei_optimized 100 "-25" ∧
  parse_wei_optimized 100 "-25E+x" = ParseOk 25.
Proof.
  destruct exponent_suffix_unchecked as [H _].
  destruct (H 100 "-25" "E"%char "+x" (MState 25 0 false true))
    as (_ & Hsame & _ & Hok); try reflexivity.
  split; [exact Hsame|]. apply Hok. reflexivity.
Defined.
End WeiProofs.

(** * Properties of the graph, the index and the loader *)

Module GraphProofs.
Import Graph Index Loader DFS DFSFacts IndexFacts FileFacts GraphFacts WeiParser.

(** C6: an endpoint outside [0, vertexAmount) makes [insertEdge] return 0
    and leave the graph as it is; otherwise a record with the value is put
    at the head of the list of [v], [edgesAmount] grows by one, nothing
    else changes, and 1 is returned. *)
Theorem insertEdge_spec (G : GraphDS) (v w value : Z) :
  length (adjList G) = vertexAmount G →
  let V := Z.of_nat (vertexAmount G) in
  ((v < 0 ∨ V <= v ∨ w < 0 ∨ V <= w) → insertEdge G v w value = (G, 0)) ∧
  (0 <= v < V → 0 <= w < V →
   ∃ G', insertEdge G v w value = (G', 1) ∧
     vertexAmount G' = vertexAmount G ∧
     edgesAmount G' = S (edgesAmount G) ∧
     length (adjList G') = vertexAmount G' ∧
     adj G' v = Tx w value :: adj G v ∧
     (∀ u, 0 <= u → u ≠ v → adj G' u = adj G u)).
Proof.
  intros Hlen V. unfold insertEdge. fold V. split.
  - intros H.
    destruct (Z.ltb_spec v 0), (Z.leb_spec V v), (Z.ltb_spec w 0),
      (Z.leb_spec V w); simpl; try done; lia.
  - intros Hv Hw.
    destruct (Z.ltb_spec v 0), (Z.leb_spec V v), (Z.ltb_spec w 0),
      (Z.leb_spec V w); simpl; try lia.
    eexists. split; [done|]. simpl. repeat split.
    + by rewrite length_insert.
    + unfold adj at 1. simpl. rewrite list_lookup_insert_eq; [done|]. lia.
    + intros u Hu Hne. unfold adj at 1. simpl.
      rewrite list_lookup_insert_ne; [done|]. lia.
Qed.

Lemma insertEdge_spec_witness :
  let G := initGraph 2 in
  insertEdge G 5 0 7 = (G, 0) ∧
  ∃ G', insertEdge G 1 0 7 = (G', 1) ∧ adj G' 1 = [Tx 0 7] ∧ edgesAmount G' = 1%nat.
Proof.
  intros G.
  destruct (insertEdge_spec G 5 0 7 eq_refl) as [Hout _].
  destruct (insertEdge_spec G 1 0 7 eq_refl) as [_ Hin].
  split; [apply Hout; right; left; simpl; lia|].
  destruct Hin as (G' & HG' & _ & He & _ & Hadj & _); [simpl; lia|simpl; lia|].
  exists G'. split; [exact HG'|]. split; [exact Hadj|exact He].
Defined.

(** *** Well-formed graphs *)

Lemma initGraph_wf V : wf_graph (initGraph V).
Proof.
  split; simpl; [apply length_replicate|].
  intros es e [-> _]%elem_of_replicate. by intros ?%elem_of_nil.
Qed.

Lemma insertEdge_wf G v w value :
  wf_graph G → wf_graph (insertEdge G v w value).1.
Proof.
  intros [Hlen Hrange]. unfold insertEdge.
  destruct (Z.ltb_spec v 0), (Z.leb_spec (Z.of_nat (vertexAmount G)) v),
    (Z.ltb_spec w 0), (Z.leb_spec (Z.of_nat (vertexAmount G)) w);
    simpl; try done.
  split; simpl; [by rewrite length_insert|].
  intros es e Hes He.
  apply list_elem_of_lookup in Hes as [i Hi].
  destruct (decide (i = Z.to_nat v)) as [->|Hne].
  - rewrite list_lookup_insert_eq in Hi by lia. injection Hi as <-.
    apply elem_of_cons in He as [->|He]; [simpl; lia|].
    unfold adj in He.
    destruct (adjList G !! Z.to_nat v) as [es|] eqn:E; simpl in He.
    + apply (Hrange es e); [|done]. apply list_elem_of_lookup. eauto.
    + by apply elem_of_nil in He.
  - rewrite list_lookup_insert_ne in Hi by done.
    apply (Hrange es e); [|done]. apply list_elem_of_lookup. eauto.
Qed.

Lemma foldl_insert_wf G es :
  wf_graph G → wf_graph (foldl DFSExamples.insert G es).
Proof.
  revert G. induction es as [|e es IH]; intros G HG; [done|].
  simpl. apply IH. by apply insertEdge_wf.
Qed.

Lemma insertEdge_nonneg G v w value :
  length (adjList G) = vertexAmount G → 0 <= value →
  nonneg_values G → nonneg_values (insertEdge G v w value).1.
Proof.
  intros Hlen Hvalue Hnn. unfold insertEdge.
  destruct (Z.ltb_spec v 0), (Z.leb_spec (Z.of_nat (vertexAmount G)) v),
    (Z.ltb_spec w 0), (Z.leb_spec (Z.of_nat (vertexAmount G)) w);
    simpl; try done.
  intros es e Hes He. simpl in Hes.
  apply list_elem_of_lookup in Hes as [i Hi].
  destruct (decide (i = Z.to_nat v)) as [->|Hne].
  - rewrite list_lookup_insert_eq in Hi by lia. injection Hi as <-.
    apply elem_of_cons in He as [->|He]; [done|].
    unfold adj in He.
    destruct (adjList G !! Z.to_nat v) as [es|] eqn:E; simpl in He.
    + apply (Hnn es e); [|done]. apply list_elem_of_lookup. eauto.
    + by apply elem_of_nil in He.
  - rewrite list_lookup_insert_ne in Hi by done.
    apply (Hnn es e); [|done]. apply list_elem_of_lookup. eauto.
Qed.

(** *** The index *)

Lemma represents_empty : represents (∅, O) [].
Proof.
  split; [done|]. split; [constructor|]. intros name i. simpl.
  by rewrite lookup_empty.
Qed.

Lemma represents_mem st acc name :
  represents st acc → (is_Some (st.1 !! name) ↔ name ∈ acc).
Proof.
  intros (_ & _ & H). rewrite list_elem_of_lookup. split.
  - intros [i Hi]. exists i. by apply H.
  - intros [i Hi]. exists i. by apply H.
Qed.

Lemma addToHash_old name st acc :
  represents st acc → name ∈ acc → addToHash name st = st.
Proof.
  intros Hrep Hin. destruct st as [m n]. unfold addToHash.
  apply (represents_mem _ _ name Hrep) in Hin as [i Hi]. simpl in Hi.
  by rewrite Hi.
Qed.

Lemma addToHash_new name st acc :
  represents st acc → name ∉ acc →
  represents (addToHash name st) (acc ++ [name]) ∧
  (addToHash name st).1 !! name = Some st.2.
Proof.
  intros Hrep Hnin. destruct st as [m n]. unfold addToHash.
  assert (Hnone : m !! name = None).
  { destruct (m !! name) eqn:E; [|done]. exfalso. apply Hnin.
    apply (represents_mem _ _ name Hrep). simpl. by rewrite E. }
  rewrite Hnone. destruct Hrep as (Hn & Hnd & Hmap). simpl in *.
  split; [|by rewrite lookup_insert_eq].
  split; [|split]; simpl.
  - rewrite length_app. simpl. lia.
  - apply NoDup_app. split; [done|]. split; [|apply NoDup_singleton].
    intros x Hx ->%list_elem_of_singleton. done.
  - intros x i. rewrite lookup_snoc_Some.
    destruct (decide (name = x)) as [->|Hne].
    + rewrite lookup_insert_eq. split.
      * intros [= <-]. right. done.
      * intros [[_ Hi]|[-> _]]; [|by rewrite Hn].
        exfalso. apply Hnin. apply list_elem_of_lookup. eauto.
    + rewrite lookup_insert_ne by done. rewrite Hmap. split.
      * intros Hi. left. split; [|done]. by apply lookup_lt_Some in Hi.
      * intros [[_ Hi]|[_ ?]]; [done|congruence].
Qed.

Lemma intern_all_represents names st acc :
  represents st acc →
  represents (intern_all names st)
             (acc ++ filter (λ y, y ∉ acc) (first_seen names)).
Proof.
  revert st acc. induction names as [|x names IH]; intros st acc Hrep.
  - simpl. by rewrite app_nil_r.
  - cbn [intern_all foldl first_seen]. fold (intern_all names (addToHash x st)).
    destruct (decide (x ∈ acc)) as [Hin|Hnin].
    + rewrite (addToHash_old x st acc) by done.
      rewrite filter_cons_False by (intros H; by apply H).
      rewrite list_filter_filter_l; [by apply IH|].
      intros y Hy ->. done.
    + rewrite filter_cons_True by done.
      destruct (addToHash_new x st acc Hrep Hnin) as [Hrep' _].
      specialize (IH _ _ Hrep').
      rewrite <- app_assoc in IH. simpl in IH.
      rewrite list_filter_filter.
      erewrite list_filter_iff; [exact IH|].
      intros y. simpl. rewrite not_elem_of_app, list_elem_of_singleton. tauto.
Qed.

Lemma filter_not_in_nil (l : list string) : filter (λ y, y ∉ []) l = l.
Proof.
  induction l as [|x l IH]; [done|].
  rewrite filter_cons_True by apply not_elem_of_nil. by rewrite IH.
Qed.

Lemma first_seen_elem names x : x ∈ first_seen names ↔ x ∈ names.
Proof.
  induction names as [|y names IH]; simpl; [done|].
  rewrite !elem_of_cons, list_elem_of_filter, IH.
  destruct (decide (x = y)); tauto.
Qed.

(** Every round of the [while] loop consumes characters. *)
Lemma skip_space_length s : (String.length (skip_space s) <= String.length s)%nat.
Proof.
  induction s as [|c s IH]; simpl; [lia|]. destruct (isspace c); simpl; lia.
Qed.

Lemma scan_chars_length width s t r :
  scan_chars width s = (t, r) →
  (String.length t + String.length r = String.length s)%nat.
Proof.
  revert s t r. induction width as [|width IH]; intros s t r; simpl.
  - intros [= <- <-]. simpl. lia.
  - destruct s as [|c s]; [intros [= <- <-]; simpl; lia|].
    destruct (isspace c); [intros [= <- <-]; simpl; lia|].
    destruct (scan_chars width s) as [t' r'] eqn:E. intros [= <- <-].
    specialize (IH _ _ _ E). simpl. lia.
Qed.

Lemma scan_s_shorter width s t r :
  scan_s width s = Some (t, r) → (String.length r < String.length s)%nat.
Proof.
  unfold scan_s. destruct (scan_chars width (skip_space s)) as [t' r'] eqn:E.
  apply scan_chars_length in E. pose proof (skip_space_length s).
  destruct t' as [|c t']; [done|]. intros [= <- <-]. simpl in E. lia.
Qed.

Lemma fscanf3_shorter file x rest :
  fscanf3 file = (Some x, rest) → (String.length rest < String.length file)%nat.
Proof.
  unfold fscanf3.
  destruct (scan_s 42 file) as [[a r1]|] eqn:E1; [|done].
  destruct (scan_s 42 r1) as [[b r2]|] eqn:E2; [|done].
  destruct (scan_s 99 r2) as [[c r3]|] eqn:E3; [|done].
  intros [= <- <-].
  apply scan_s_shorter in E1, E2, E3. lia.
Qed.

(** Fuel equal to the length of the file is never used up: more fuel
    gives the same result. *)
Lemma addAll_loop_fuel fuel fuel' file st :
  (String.length file <= fuel)%nat → (String.length file <= fuel')%nat →
  addAll_loop fuel file st = addAll_loop fuel' file st.
Proof.
  revert fuel' file st. induction fuel as [|fuel IH]; intros fuel' file st H H'.
  - destruct file; [|simpl in H; lia]. by destruct fuel'.
  - destruct fuel' as [|fuel'].
    { destruct file; [done|simpl in H'; lia]. }
    simpl. destruct (fscanf3 file) as [[[[a b] c]|] rest] eqn:E; [|done].
    apply fscanf3_shorter in E. apply IH; lia.
Qed.

Lemma addAll_loop_names fuel file st :
  addAll_loop fuel file st = intern_all (interned_names fuel file) st.
Proof.
  revert file st. induction fuel as [|fuel IH]; intros file st; [done|].
  simpl. destruct (fscanf3 file) as [[[[a b] c]|] rest]; [|done].
  by rewrite IH.
Qed.

(** C4: starting from the empty table, a sequence of calls of [addToHash]
    gives every distinct identifier one index, its rank in the order of
    first appearance: the table is a bijection between the identifiers
    seen and the indices below their number [N], and the counter ends at
    [N]; a second call for the same identifier changes nothing. The
    count that [addAllVertexToHashmap] returns is that counter. *)
Theorem interning_bijection (names : list string) :
  let st := intern_all names (∅, O) in
  let order := first_seen names in
  st.2 = length order ∧
  NoDup order ∧
  (∀ name, name ∈ order ↔ name ∈ names) ∧
  (∀ name i, getVertexIndex st.1 name = Some i ↔ order !! i = Some name) ∧
  (∀ i, (i < st.2)%nat ↔ ∃ name, getVertexIndex st.1 name = Some i) ∧
  (∀ name st', addToHash name (addToHash name st') = addToHash name st') ∧
  (∀ file, addAllVertexToHashmap file ∅
           = intern_all (interned_names (String.length file) file) (∅, O)).
Proof.
  intros st order.
  pose proof (intern_all_represents names _ _ represents_empty) as Hrep.
  simpl in Hrep. fold st in Hrep.
  rewrite filter_not_in_nil in Hrep. fold order in Hrep.
  destruct Hrep as (Hn & Hnd & Hmap).
  split; [done|]. split; [done|]. split; [apply first_seen_elem|].
  split; [exact Hmap|]. split; [|split].
  - intros i. rewrite Hn. split.
    + intros Hi. apply lookup_lt_is_Some_2 in Hi as [name Hname].
      exists name. by apply Hmap.
    + intros [name Hname]. apply Hmap in Hname. by apply lookup_lt_Some in Hname.
  - intros name [m n]. unfold addToHash at 2 3.
    destruct (m !! name) eqn:E; simpl.
    + by rewrite E.
    + by rewrite lookup_insert_eq.
  - intros file. apply addAll_loop_names.
Qed.


(** *** The loader *)

Lemma insertEdge_counts G v w value :
  vertexAmount (insertEdge G v w value).1 = vertexAmount G ∧
  (edgesAmount (insertEdge G v w value).1 <= S (edgesAmount G))%nat.
Proof.
  unfold insertEdge.
  destruct ((v <? 0) || (Z.of_nat (vertexAmount G) <=? v) || (w <? 0)
            || (Z.of_nat (vertexAmount G) <=? w)); simpl; split; lia.
Qed.

Lemma hashToGraph_loop_counts limit n i file vertex_map G stderr G' stderr' :
  hashToGraph_loop limit n i file vertex_map G stderr = Loaded G' stderr' →
  vertexAmount G' = vertexAmount G ∧
  (edgesAmount G' <= edgesAmount G + n)%nat.
Proof.
  revert i file G stderr. induction n as [|n IH]; intros i file G stderr; simpl.
  - intros [= <- <-]. split; lia.
  - destruct (fscanf3 file) as [[[[a b] c]|] rest].
    + destruct (parse_wei_optimized limit c) as [value|code|]; [| |done].
      * destruct (getVertexIndex vertex_map a) as [fi|]; [|done].
        destruct (getVertexIndex vertex_map b) as [ti|]; [|done].
        intros H. apply IH in H as [Hv He].
        pose proof (insertEdge_counts G (int_of_size_t fi) (int_of_size_t ti) value)
          as [Hv' He'].
        split; [congruence|lia].
      * intros H. apply IH in H as [Hv He]. split; [done|lia].
    + intros H. apply IH in H as [Hv He]. split; [done|lia].
Qed.

Lemma interned_names_fuel fuel fuel' file :
  (String.length file <= fuel)%nat → (String.length file <= fuel')%nat →
  interned_names fuel file = interned_names fuel' file.
Proof.
  revert fuel' file. induction fuel as [|fuel IH]; intros fuel' file H H'.
  - destruct file; [|simpl in H; lia]. by destruct fuel'.
  - destruct fuel' as [|fuel'].
    { destruct file; [done|simpl in H'; lia]. }
    simpl. destruct (fscanf3 file) as [[[[a b] c]|] rest] eqn:E; [|done].
    apply fscanf3_shorter in E. do 2 f_equal. apply IH; lia.
Qed.

Lemma names_known_step vertex_map file a b c rest :
  names_known vertex_map file → fscanf3 file = (Some (a, b, c), rest) →
  is_Some (vertex_map !! a) ∧ is_Some (vertex_map !! b) ∧
  names_known vertex_map rest.
Proof.
  intros Hknown E. pose proof (fscanf3_shorter _ _ _ E) as Hlt.
  unfold names_known in *.
  destruct (String.length file) as [|k] eqn:Hk; [lia|].
  simpl in Hknown. rewrite E in Hknown.
  split; [apply Hknown; apply elem_of_cons; by left|].
  split; [apply Hknown; apply elem_of_cons; right; apply elem_of_cons; by left|].
  intros name Hname. apply Hknown. do 2 (apply elem_of_cons; right).
  by rewrite (interned_names_fuel k (String.length rest)) by lia.
Qed.

Lemma fscanf3_eof file rest : fscanf3 file = (None, rest) → rest = EmptyString.
Proof.
  unfold fscanf3.
  destruct (scan_s 42 file) as [[a r1]|]; [|by intros [= <-]].
  destruct (scan_s 42 r1) as [[b r2]|]; [|by intros [= <-]].
  destruct (scan_s 99 r2) as [[c r3]|]; [done|by intros [= <-]].
Qed.

(** The second pass never looks up an identifier the first pass did not
    add; it keeps the graph well formed with nonnegative values, and it
    is cut short exactly when GMP aborts on one of the values read. *)
Lemma hashToGraph_loop_total limit vertex_map n :
  ∀ i file G stderr,
    names_known vertex_map file → wf_graph G → nonneg_values G →
    pass_ok limit n file (hashToGraph_loop limit n i file vertex_map G stderr).
Proof.
  induction n as [|n IH]; intros i file G stderr Hknown Hwf Hnn.
  - left. exists G, stderr. split; [done|]. split; [done|]. split; [done|].
    by intros v ?%elem_of_nil.
  - cbn [hashToGraph_loop values_read].
    destruct (fscanf3 file) as [[[[a b] c]|] rest] eqn:E.
    + destruct (names_known_step _ _ _ _ _ _ Hknown E) as ([fi Hfi] & [ti Hti] & Hrest).
      assert (Hcons : ∀ r, parse_wei_optimized limit c ≠ ParseAbort →
                pass_ok limit n rest r →
                pass_ok limit (S n) file r).
      { intros r Hc [(G' & stderr' & -> & HG' & Hnn' & Hall)|(-> & v & Hv & Habort)].
        - left. exists G', stderr'. split; [done|]. split; [done|]. split; [done|].
          cbn [values_read]. rewrite E.
          intros v [->|Hv]%elem_of_cons; [done|by apply Hall].
        - right. split; [done|]. exists v. cbn [values_read]. rewrite E.
          split; [apply elem_of_cons; by right|done]. }
      destruct (parse_wei_optimized limit c) as [value|code|] eqn:Hparse.
      * unfold getVertexIndex. rewrite Hfi, Hti.
        apply Hcons; [done|].
        apply IH; [done|by apply insertEdge_wf|].
        apply insertEdge_nonneg; [apply Hwf| |done].
        by apply (WeiProofs.parse_nonneg limit c).
      * apply Hcons; [done|]. by apply IH.
      * right. split; [done|]. exists c. cbn [values_read]. rewrite E.
        split; [apply elem_of_cons; by left|done].
    + assert (Hsame : values_read (S n) file = values_read n rest)
        by (cbn [values_read]; by rewrite E).
      unfold pass_ok. rewrite Hsame.
      apply fscanf3_eof in E as ->. apply IH; [|done|done].
      by intros name ?%elem_of_nil.
Qed.

Lemma loadGraph_total limit file :
  pass_ok limit (addAllVertexToHashmap file ∅).2 file (loadGraph limit file).
Proof.
  unfold loadGraph, hashToGraph.
  destruct (addAllVertexToHashmap file ∅) as [vertex_map vertexCount] eqn:E.
  apply hashToGraph_loop_total.
  - unfold addAllVertexToHashmap in E. rewrite addAll_loop_names in E.
    pose proof (intern_all_represents
                  (interned_names (String.length file) file) _ _ represents_empty) as Hrep.
    rewrite E in Hrep. simpl in Hrep. rewrite filter_not_in_nil in Hrep.
    intros name Hname.
    apply (represents_mem _ _ name Hrep). by apply first_seen_elem.
  - apply initGraph_wf.
  - intros es e [-> _]%elem_of_replicate. by intros ?%elem_of_nil.
Qed.

(** A graph that the loader returns is well formed and carries no
    negative value. *)
Lemma loadGraph_loaded limit file G stderr :
  loadGraph limit file = Loaded G stderr → wf_graph G ∧ nonneg_values G.
Proof.
  intros Hload.
  destruct (loadGraph_total limit file)
    as [(G' & stderr' & Hload' & Hwf & Hnn & _)|[Habort _]].
  - rewrite Hload in Hload'. by injection Hload' as <- <-.
  - by rewrite Hload in Habort.
Qed.

(** C1 does not hold of the code: [loadGraph] passes the number of
    vertices as [totalTransactions], so the second pass stops after
    that many transactions: for every file the loader, unless GMP aborts
    it, returns a graph with no more edges than vertices. The file
    [three_lines] has three well-formed lines over two wallets and ends
    with two edges. *)
Theorem loader_stops_at_vertex_count :
  (∀ limit file,
     (∃ G stderr, loadGraph limit file = Loaded G stderr ∧
                  (edgesAmount G <= vertexAmount G)%nat) ∨
     loadGraph limit file = LoadAbort) ∧
  (∀ limit, well_formed_lines limit three_lines = 3%nat) ∧
  ∀ limit, ∃ G, loadGraph limit three_lines = Loaded G [] ∧
                vertexAmount G = 2%nat ∧ edgesAmount G = 2%nat.
Proof.
  split; [|split; [reflexivity|]].
  - intros limit file.
    destruct (loadGraph_total limit file) as [(G & stderr & HG & _)|[Habort _]];
      [left|by right].
    exists G, stderr. split; [done|].
    unfold loadGraph, hashToGraph in HG.
    destruct (addAllVertexToHashmap file ∅) as [vertex_map vertexCount].
    apply hashToGraph_loop_counts in HG as [Hv He]. simpl in *. lia.
  - intros limit. eexists. split; [vm_compute; reflexivity|]. split; reflexivity.
Qed.

End GraphProofs.

(** * Properties of the cycle search *)

Module DFSProofs.
Import Graph DFS DFSFacts.

(** *** Arrays *)

Lemma get_set_eq a i x :
  (Z.to_nat i < length a)%nat → get (set a i x) i = x.
Proof. intros H. unfold get, set. by rewrite list_lookup_insert_eq. Qed.

Lemma get_set_ne a i j x :
  Z.to_nat i ≠ Z.to_nat j → get (set a i x) j = get a j.
Proof. intros H. unfold get, set. by rewrite list_lookup_insert_ne. Qed.

Lemma length_set a i x : length (set a i x) = length a.
Proof. apply length_insert. Qed.

Lemma get_differ a u v : get a u ≠ get a v → Z.to_nat u ≠ Z.to_nat v.
Proof. unfold get. intros H E. apply H. by rewrite E. Qed.

Lemma get_lookup a v :
  (Z.to_nat v < length a)%nat → a !! Z.to_nat v = Some (get a v).
Proof.
  intros H. unfold get. apply lookup_lt_is_Some_2 in H as [x ->]. done.
Qed.

Lemma count_zero_insert (l : list Z) i :
  l !! i = Some 0 →
  S (length (filter (λ x, x = 0) (<[i:=1]> l))) = length (filter (λ x, x = 0) l).
Proof.
  intros H. pose proof (lookup_lt_Some _ _ _ H) as Hlt.
  rewrite insert_take_drop by done.
  rewrite <- (take_drop_middle l i 0 H) at 3.
  rewrite !filter_app, !length_app.
  rewrite filter_cons_False by lia. rewrite filter_cons_True by done.
  simpl. lia.
Qed.

Lemma unvisited_enter st v :
  (Z.to_nat v < length (visited st))%nat → get (visited st) v = 0 →
  S (unvisited (enter st v)) = unvisited st.
Proof.
  intros Hlt Hv. unfold unvisited, enter, set. simpl.
  apply count_zero_insert. rewrite get_lookup by done. by rewrite Hv.
Qed.

(** A list of distinct vertices is no longer than the vertex count. *)
Lemma distinct_vertices_bound G (l : list Z) :
  NoDup l → (∀ u, u ∈ l → in_range G u) → (length l <= vertexAmount G)%nat.
Proof.
  intros Hnd Hin.
  assert (Hsub : l ⊆ seqZ 0 (Z.of_nat (vertexAmount G))).
  { intros u Hu. apply elem_of_seqZ. specialize (Hin u Hu). unfold in_range in Hin. lia. }
  apply NoDup_submseteq in Hsub; [|done].
  apply submseteq_length in Hsub. rewrite length_seqZ in Hsub. lia.
Qed.

(** *** Chains of edges *)

Lemma chain_last G l cs v w c :
  chain G l cs → last l = Some v → Tx w c ∈ adj G v →
  chain G (l ++ [w]) (cs ++ [c]).
Proof.
  intros H. induction H as [x|x y vs c' cs He H IH]; intros Hlast Hw.
  - injection Hlast as ->. constructor; [done|constructor].
  - simpl. constructor; [done|]. apply IH; [|done].
    by rewrite last_cons_cons in Hlast.
Qed.

Lemma chain_drop G vs cs k :
  chain G vs cs → (k <= length cs)%nat → chain G (drop k vs) (drop k cs).
Proof.
  intros H. revert k. induction H as [x|x y vs c cs He H IH]; intros k Hk.
  - simpl in Hk. replace k with O by lia. constructor.
  - destruct k as [|k]; [by constructor|]. simpl in *. apply IH. lia.
Qed.

Lemma chain_values_nonneg G vs cs :
  nonneg_values G → chain G vs cs → ∀ c, c ∈ cs → 0 <= c.
Proof.
  intros Hnn H. induction H as [x|x y vs c cs He H IH]; intros c' Hc'.
  - by apply elem_of_nil in Hc'.
  - apply elem_of_cons in Hc' as [->|Hc']; [|by apply IH].
    unfold adj in He.
    destruct (adjList G !! Z.to_nat x) as [es|] eqn:E; simpl in He.
    + apply (Hnn es (Tx y c)); [|done]. apply list_elem_of_lookup. eauto.
    + by apply elem_of_nil in He.
Qed.

(** *** The search for [start_index] *)

Lemma find_start_spec (p : list Z) w s r i :
  (s <= i < s + r)%nat → p !! i = Some w →
  (∀ j, (s <= j < i)%nat → p !! j ≠ Some w) →
  find_start p w s r = i.
Proof.
  revert s. induction r as [|r IH]; intros s Hi Hw Hbefore; [lia|].
  simpl. destruct (decide (s = i)) as [->|Hne].
  - rewrite Hw. simpl. by rewrite Z.eqb_refl.
  - assert (Hs : p !! s ≠ Some w) by (apply Hbefore; lia).
    assert (Hlt : (s < length p)%nat).
    { apply lookup_lt_Some in Hw. lia. }
    apply lookup_lt_is_Some_2 in Hlt as [x Hx]. rewrite Hx in Hs |- *. simpl.
    destruct (Z.eqb_spec x w) as [->|_]; [done|].
    apply IH; [lia|done|]. intros j Hj. apply Hbefore. lia.
Qed.

Lemma find_start_nodup (p : list Z) w d :
  NoDup (take d p) → w ∈ take d p →
  ∃ i, (i < d)%nat ∧ p !! i = Some w ∧ find_start p w 0 d = i.
Proof.
  intros Hnd Hin. apply list_elem_of_lookup in Hin as [i Hi].
  pose proof (lookup_lt_Some _ _ _ Hi) as Hlt. rewrite length_take in Hlt.
  assert (Hpi : p !! i = Some w) by (rewrite lookup_take_lt in Hi; [done|lia]).
  exists i. split; [lia|]. split; [done|].
  apply find_start_spec; [lia|done|].
  intros j Hj Hpj.
  assert (take d p !! j = Some w) by (rewrite lookup_take_lt; [done|lia]).
  pose proof (NoDup_lookup _ _ _ _ Hnd H Hi). lia.
Qed.


Lemma take_S_insert (l : list Z) d x :
  (d < length l)%nat → take (S d) (<[d:=x]> l) = take d l ++ [x].
Proof.
  intros H. rewrite (take_S_r _ _ x) by by apply list_lookup_insert_eq.
  by rewrite take_insert_ge.
Qed.

Lemma frame_refl k st : frame k st st.
Proof. split; try done; by exists []; rewrite app_nil_r. Qed.

Lemma frame_trans k st1 st2 st3 :
  frame k st1 st2 → frame k st2 st3 → frame k st1 st3.
Proof.
  intros [Hd1 Hp1 Hv1 Hvis1 Hrs1 [o1 Ho1] [c1 Hc1] Hu1]
         [Hd2 Hp2 Hv2 Hvis2 Hrs2 [o2 Ho2] [c2 Hc2] Hu2].
  split.
  - congruence.
  - rewrite Hd1 in Hp2. congruence.
  - congruence.
  - auto.
  - intros u Hu. rewrite Hrs2 by auto. auto.
  - exists (o1 ++ o2). by rewrite Ho2, Ho1, app_assoc.
  - exists (c1 ++ c2). by rewrite Hc2, Hc1, app_assoc.
  - lia.
Qed.

Lemma frame_weaken k k' st st' : (k' <= k)%nat → frame k st st' → frame k' st st'.
Proof.
  intros Hk [Hd Hp Hv Hvis Hrs Ho Hc Hu]. split; try done.
  replace k' with (min k' k) by lia. by rewrite <- !take_take, Hv.
Qed.

Lemma slice_drop_take (a : list Z) i j :
  (i <= j)%nat → slice a i j = drop i (take j a).
Proof.
  intros H. unfold slice. rewrite take_drop_commute. do 2 f_equal. lia.
Qed.

Lemma foldl_max_step_snoc cs c :
  max_step (foldl max_step 0 cs) c = foldl max_step 0 (cs ++ [c]).
Proof. by rewrite foldl_snoc. Qed.

(** *** The steps of the search on a well-formed graph *)

Section Search.

Variable G : GraphDS.
Hypothesis Hwf : wf_graph G.

Lemma adj_in_range v e : e ∈ adj G v → in_range G (destination e).
Proof.
  unfold adj. destruct (adjList G !! Z.to_nat v) as [es|] eqn:E; simpl.
  - intros He. destruct Hwf as [_ H]. apply (H es e); [|done].
    apply list_elem_of_lookup. eauto.
  - by intros ?%elem_of_nil.
Qed.

Lemma in_range_index st v :
  dfs_inv G st → in_range G v →
  (Z.to_nat v < length (visited st))%nat ∧ (Z.to_nat v < length (recStack st))%nat.
Proof.
  intros Hinv Hv. rewrite (inv_len_visited _ _ Hinv), (inv_len_recStack _ _ Hinv).
  unfold in_range in Hv. lia.
Qed.

Lemma in_range_ne u v :
  in_range G u → in_range G v → u ≠ v → Z.to_nat u ≠ Z.to_nat v.
Proof. unfold in_range. lia. Qed.

(** The path buffer has room for the vertex entered. *)
Lemma call_pre_depth st v : call_pre G st v → (depth st < vertexAmount G)%nat.
Proof.
  intros [Hinv Hv Hfresh _].
  assert (Hnin : v ∉ take (depth st) (path st)).
  { intros Hin. apply (inv_path _ _ Hinv) in Hin as (_ & Hvis & _). done. }
  assert (Hnd : NoDup (take (depth st) (path st) ++ [v])).
  { apply NoDup_app. split; [apply (inv_nodup _ _ Hinv)|].
    split; [|apply NoDup_singleton].
    intros u Hu ->%list_elem_of_singleton. done. }
  apply (distinct_vertices_bound G) in Hnd.
  - rewrite length_app, length_take_le in Hnd; simpl in Hnd; [lia|].
    rewrite (inv_len_path _ _ Hinv). apply (inv_depth _ _ Hinv).
  - intros u [Hu| ->%list_elem_of_singleton]%elem_of_app; [|done].
    by apply (inv_path _ _ Hinv) in Hu as (? & _).
Qed.

Lemma enter_frame st v :
  call_pre G st v →
  depth (enter st v) = S (depth st) ∧
  take (depth st) (path (enter st v)) = take (depth st) (path st) ∧
  valuesPath (enter st v) = valuesPath st ∧
  (∀ u, get (visited st) u ≠ 0 → get (visited (enter st v)) u ≠ 0) ∧
  (∀ u, get (visited st) u ≠ 0 →
        get (recStack (enter st v)) u = get (recStack st) u) ∧
  out (enter st v) = out st ∧ calls (enter st v) = calls st ++ [v] ∧
  S (unvisited (enter st v)) = unvisited st ∧
  get (visited (enter st v)) v ≠ 0.
Proof.
  intros Hpre. pose proof Hpre as [Hinv Hv Hfresh _].
  destruct (in_range_index st v Hinv Hv) as [Hlv Hlr].
  split; [done|]. split; [by apply take_insert_ge|]. split; [done|].
  assert (Hne : ∀ u, get (visited st) u ≠ 0 → Z.to_nat v ≠ Z.to_nat u).
  { intros u Hu. apply get_differ with (a := visited st). congruence. }
  split; [|split; [|split; [|split; [|split]]]]; try done.
  - intros u Hu. simpl. by rewrite get_set_ne by auto.
  - intros u Hu. simpl. by rewrite get_set_ne by auto.
  - by apply unvisited_enter.
  - simpl. by rewrite get_set_eq.
Qed.

Lemma enter_loop_inv st v : call_pre G st v → loop_inv G v (enter st v).
Proof.
  intros Hpre. pose proof (call_pre_depth st v Hpre) as Hd.
  destruct Hpre as [Hinv Hv Hfresh Hchain].
  destruct (in_range_index st v Hinv Hv) as [Hlv Hlr].
  assert (Hlp : (depth st < length (path st))%nat)
    by by rewrite (inv_len_path _ _ Hinv).
  assert (Htake : take (S (depth st)) (<[depth st:=v]> (path st))
                  = take (depth st) (path st) ++ [v]) by by apply take_S_insert.
  assert (Hnin : v ∉ take (depth st) (path st)).
  { intros Hin. apply (inv_path _ _ Hinv) in Hin as (_ & Hvis & _). done. }
  split; [split| | |]; simpl.
  - rewrite length_set. apply Hinv.
  - rewrite length_set. apply Hinv.
  - rewrite length_insert. apply Hinv.
  - apply Hinv.
  - lia.
  - rewrite Htake. apply NoDup_app. split; [apply Hinv|].
    split; [|apply NoDup_singleton].
    intros u Hu ->%list_elem_of_singleton. done.
  - rewrite Htake. intros u [Hu| ->%list_elem_of_singleton]%elem_of_app.
    + destruct (inv_path _ _ Hinv u Hu) as (Hr & Hvis & Hrs).
      assert (Z.to_nat v ≠ Z.to_nat u)
        by (apply get_differ with (a := visited st); congruence).
      by rewrite !get_set_ne by done.
    + by rewrite !get_set_eq by done.
  - rewrite Htake. intros u Hu Hrs. apply elem_of_app.
    destruct (decide (u = v)) as [->|Hne]; [right; by apply list_elem_of_singleton|].
    left. apply (inv_stack _ _ Hinv); [done|].
    by rewrite get_set_ne in Hrs by by apply in_range_ne.
  - apply NoDup_app. split; [apply Hinv|]. split; [|apply NoDup_singleton].
    intros u Hu ->%list_elem_of_singleton.
    apply (inv_calls _ _ Hinv) in Hu as [_ Hu]. done.
  - intros u. rewrite elem_of_app, list_elem_of_singleton, (inv_calls _ _ Hinv).
    destruct (decide (u = v)) as [->|Hne].
    + rewrite get_set_eq by done. split; [intros _; split; [done|lia]|auto].
    + split.
      * intros [[Hr Hvis]|?]; [|done]. split; [done|].
        by rewrite get_set_ne by by apply in_range_ne.
      * intros [Hr Hvis]. left. split; [done|].
        by rewrite get_set_ne in Hvis by by apply in_range_ne.
  - apply Hinv.
  - intros u c [Hu| ->%list_elem_of_singleton]%elem_of_app Hrs He.
    + apply (inv_loops _ _ Hinv u c); [done| |done].
      pose proof Hu as [Hr Hvis]%(inv_calls _ _ Hinv).
      assert (Z.to_nat v ≠ Z.to_nat u)
        by (apply get_differ with (a := visited st); congruence).
      by rewrite get_set_ne in Hrs.
    + rewrite get_set_eq in Hrs by done. done.
  - by rewrite list_lookup_insert_eq.
  - lia.
  - by rewrite Htake.
Qed.


(** The cycle that [report] writes for a back edge to [w], in a state
    whose top value cell holds the value [c] of that edge. *)
Lemma report_good st v w c :
  dfs_inv G st → (1 <= depth st)%nat →
  path st !! pred (depth st) = Some v →
  valuesPath st !! pred (depth st) = Some c →
  chain G (take (depth st) (path st) ++ [w]) (take (depth st) (valuesPath st)) →
  in_range G w → get (recStack st) w ≠ 0 →
  ∃ r, out (report st w c) = out st ++ [r] ∧ good_cycle G r ∧
       (w = v → cycle_vertices r = [v; v] ∧ max_flow r = max_step 0 c).
Proof.
  intros Hinv Hd Htop Hval Hchain Hw Hrs.
  set (d := depth st) in *.
  assert (Hin : w ∈ take d (path st)) by by apply (inv_stack _ _ Hinv).
  destruct (find_start_nodup _ _ _ (inv_nodup _ _ Hinv) Hin) as (i & Hi & Hpi & Hfind).
  fold d in Hfind.
  assert (HSd : d = S (pred d)) by lia.
  assert (Htp : take d (path st) = take (pred d) (path st) ++ [v]).
  { rewrite HSd at 1. by apply take_S_r. }
  assert (Htv : take d (valuesPath st) = take (pred d) (valuesPath st) ++ [c]).
  { rewrite HSd at 1. by apply take_S_r. }
  assert (Hlp : length (take (pred d) (path st)) = pred d).
  { apply length_take_le. rewrite (inv_len_path _ _ Hinv).
    pose proof (inv_depth _ _ Hinv). fold d in H. lia. }
  assert (Hlv : length (take (pred d) (valuesPath st)) = pred d).
  { apply length_take_le. rewrite (inv_len_values _ _ Hinv).
    pose proof (inv_depth _ _ Hinv). fold d in H. lia. }
  eexists. split; [unfold report; simpl; reflexivity|].
  fold d. rewrite Hfind, Htop. simpl.
  rewrite !slice_drop_take by lia.
  split.
  - exists (drop i (take (pred d) (valuesPath st)) ++ [c]). simpl.
    split; [|split; [|split]].
    + apply (chain_drop _ _ _ i) in Hchain.
      2:{ rewrite Htv, length_app, Hlv. simpl. lia. }
      rewrite Htp, Htv in Hchain.
      rewrite <- app_assoc in Hchain.
      rewrite !drop_app_le in Hchain by lia. exact Hchain.
    + by destruct (drop i (take (pred d) (valuesPath st))).
    + rewrite (app_assoc _ [v] [w]), last_snoc.
      rewrite <- drop_app_le by lia. rewrite <- Htp.
      rewrite head_lookup, lookup_app_l.
      2:{ rewrite length_drop, length_take_le; [lia|].
          rewrite (inv_len_path _ _ Hinv). apply (inv_depth _ _ Hinv). }
      rewrite lookup_drop, Nat.add_0_r, lookup_take_lt by lia. done.
    + apply foldl_max_step_snoc.
  - intros ->.
    assert (i = pred d) as ->.
    { assert (H1 : take d (path st) !! i = Some v) by by rewrite lookup_take_lt.
      assert (H2 : take d (path st) !! pred d = Some v)
        by (rewrite lookup_take_lt; [done|lia]).
      apply (NoDup_lookup _ _ _ _ (inv_nodup _ _ Hinv) H1 H2). }
    rewrite !drop_ge by lia. done.
Qed.

(** The state after the value of the edge [e] was stored. *)
Lemma set_value_step st v e :
  loop_inv G v st → e ∈ adj G v →
  let st1 := set_value st (transactionValue e) in
  dfs_inv G st1 ∧ frame (pred (depth st)) st st1 ∧
  valuesPath st1 !! pred (depth st1) = Some (transactionValue e) ∧
  chain G (take (depth st1) (path st1) ++ [destination e])
          (take (depth st1) (valuesPath st1)) ∧
  in_range G (destination e).
Proof.
  intros [Hinv Htop Hd Hchain] He st1.
  assert (Hlv : (pred (depth st) < length (valuesPath st))%nat).
  { rewrite (inv_len_values _ _ Hinv). pose proof (inv_depth _ _ Hinv). lia. }
  split; [|split; [|split; [|split]]].
  - destruct Hinv. split; try done. simpl. by rewrite length_insert.
  - split; try done; simpl.
    + by apply take_insert_ge.
    + by exists []; rewrite app_nil_r.
    + by exists []; rewrite app_nil_r.
  - simpl. by apply list_lookup_insert_eq.
  - simpl.
    replace (depth st) with (S (pred (depth st))) at 2 by lia.
    rewrite take_S_insert by done.
    apply (chain_last G _ _ v); [done| |by destruct e].
    rewrite last_lookup, length_take_le, lookup_take_lt; [done|lia|].
    rewrite (inv_len_path _ _ Hinv). apply (inv_depth _ _ Hinv).
  - by apply (adj_in_range v).
Qed.


Lemma loop_inv_frame v st st2 :
  loop_inv G v st → dfs_inv G st2 → frame (pred (depth st)) st st2 →
  loop_inv G v st2.
Proof.
  intros [Hinv Htop Hd Hchain] Hinv2 [Hfd Hfp Hfv _ _ _ _ _].
  split; [done| | |].
  - rewrite Hfd. rewrite <- (lookup_take_lt _ (depth st)) by lia.
    rewrite Hfp. by rewrite lookup_take_lt by lia.
  - lia.
  - by rewrite Hfd, Hfp, Hfv.
Qed.

Lemma report_inv st w c r k :
  dfs_inv G st → out (report st w c) = out st ++ [r] → good_cycle G r →
  dfs_inv G (report st w c) ∧ frame k st (report st w c).
Proof.
  intros Hinv Hout Hgood. split.
  - destruct Hinv. split; try done.
    + rewrite Hout. intros r' [Hr'| ->%list_elem_of_singleton]%elem_of_app; auto.
    + intros u c' Hu Hrs He. rewrite Hout.
      destruct (inv_loops0 u c' Hu Hrs He) as [n Hn]. exists n.
      apply elem_of_app. by left.
  - split; try done.
    + by exists [r].
    + by exists []; rewrite app_nil_r.
Qed.

Lemma loops_reported_mono v es st st' :
  loops_reported v es st → (∃ new, out st' = out st ++ new) →
  loops_reported v es st'.
Proof.
  intros H [new Hnew] c Hc. destruct (H c Hc) as [n Hn]. exists n.
  rewrite Hnew. apply elem_of_app. by left.
Qed.

(** The edge loop of the call for [v], from any of its states on. *)
Lemma edge_loop_correct rec bound v :
  call_spec G rec bound →
  ∀ es done st,
    adj G v = done ++ es → loop_inv G v st → (unvisited st <= bound)%nat →
    loops_reported v done st →
    ∃ st', edge_loop rec es st = Some st' ∧ loop_inv G v st' ∧
           frame (pred (depth st)) st st' ∧ loops_reported v (adj G v) st'.
Proof.
  intros Hrec. induction es as [|e es IH]; intros done st Hadj Hli Hu Hrep.
  - exists st. rewrite app_nil_r in Hadj. rewrite Hadj.
    split; [done|]. split; [done|]. split; [apply frame_refl|done].
  - assert (He : e ∈ adj G v).
    { rewrite Hadj. apply elem_of_app. right. apply elem_of_cons. by left. }
    destruct (set_value_step st v e Hli He) as (Hinv1 & Hfr1 & Hval1 & Hchain1 & Hrange).
    set (st1 := set_value st (transactionValue e)) in *.
    assert (Hv : in_range G v ∧ get (visited st) v ≠ 0 ∧ get (recStack st) v ≠ 0).
    { apply (inv_path _ _ (li_inv _ _ _ Hli)).
      apply elem_of_take. exists (pred (depth st)).
      split; [apply Hli|]. pose proof (li_depth _ _ _ Hli). lia. }
    assert (Hnext : ∀ st2, dfs_inv G st2 → frame (pred (depth st)) st st2 →
              loops_reported v (done ++ [e]) st2 →
              ∃ st', edge_loop rec es st2 = Some st' ∧ loop_inv G v st' ∧
                     frame (pred (depth st)) st st' ∧ loops_reported v (adj G v) st').
    { intros st2 Hinv2 Hfr2 Hrep2.
      destruct (IH (done ++ [e]) st2) as (st' & Hst' & Hli' & Hfr' & Hrep').
      - by rewrite <- app_assoc.
      - by apply (loop_inv_frame v st).
      - pose proof (fr_unvisited _ _ _ Hfr2). lia.
      - done.
      - exists st'. split; [done|]. split; [done|]. split; [|done].
        apply (frame_trans _ _ st2); [done|].
        by rewrite (fr_depth _ _ _ Hfr2) in Hfr'. }
    cbn [edge_loop]. fold st1.
    change (visited st1) with (visited st). change (recStack st1) with (recStack st).
    destruct (Z.eqb_spec (get (visited st) (destination e)) 0) as [Hfresh|Hvis].
    + destruct (Hrec st1 (destination e)) as (st2 & Hcall & Hinv2 & Hfr2 & Hvis2).
      { by split. }
      { pose proof (fr_unvisited _ _ _ Hfr1). lia. }
      rewrite Hcall. apply Hnext; [done| |].
      * apply (frame_trans _ _ st1); [done|].
        apply (frame_weaken (depth st1)); [simpl; lia|done].
      * intros c [Hc|Heq%list_elem_of_singleton]%elem_of_app.
        -- apply (loops_reported_mono v done st); [done| |done].
           destruct (fr_out _ _ _ Hfr2) as [new Hnew]. exists new.
           by rewrite Hnew.
        -- rewrite <- Heq in Hfresh. simpl in Hfresh. tauto.
    + destruct (Z.eqb_spec (get (recStack st) (destination e)) 0) as [Hoff|Hon]; simpl.
      * apply Hnext; [done|done|].
        intros c [Hc|Heq%list_elem_of_singleton]%elem_of_app; [by apply Hrep|].
        rewrite <- Heq in Hoff. simpl in Hoff. tauto.
      * destruct (report_good st1 v (destination e) (transactionValue e))
          as (r & Hout & Hgood & Hself); try done.
        { apply Hli. }
        { apply Hli. }
        destruct (report_inv st1 (destination e) (transactionValue e) r
                    (pred (depth st)) Hinv1 Hout Hgood) as [Hinv2 Hfr2].
        apply Hnext; [done|by apply (frame_trans _ _ st1)|].
        intros c [Hc|Heq%list_elem_of_singleton]%elem_of_app.
        -- apply (loops_reported_mono v done st); [done| |done].
           exists [r]. by rewrite Hout.
        -- rewrite <- Heq in Hself. simpl in Hself.
           destruct (Hself eq_refl) as [Hvs Hflow].
           exists (cycle_no r). rewrite Hout. apply elem_of_app. right.
           apply list_elem_of_singleton. destruct r; simpl in *. congruence.
Qed.


(** The state after the last two statements of the call for [v]. *)
Lemma leave_inv st v :
  loop_inv G v st → loops_reported v (adj G v) st → dfs_inv G (leave st v).
Proof.
  intros [Hinv Htop Hd Hchain] Hrep.
  set (d := depth st) in *.
  assert (Htp : take d (path st) = take (pred d) (path st) ++ [v]).
  { replace d with (S (pred d)) at 1 by lia. by apply take_S_r. }
  pose proof (inv_nodup _ _ Hinv) as Hnd. fold d in Hnd. rewrite Htp in Hnd.
  apply NoDup_app in Hnd as (Hnd & Hnv & _).
  assert (Hvin : v ∈ take d (path st)).
  { rewrite Htp. apply elem_of_app. right. by apply list_elem_of_singleton. }
  destruct (inv_path _ _ Hinv v Hvin) as (Hvr & Hvvis & Hvrs).
  destruct (in_range_index st v Hinv Hvr) as [Hlv Hlr].
  assert (Hsub : ∀ u, u ∈ take (pred d) (path st) → u ∈ take d (path st) ∧ u ≠ v).
  { intros u Hu. split; [rewrite Htp; apply elem_of_app; by left|].
    intros ->. apply (Hnv v Hu). by apply list_elem_of_singleton. }
  split; simpl; fold d; try apply Hinv.
  - rewrite length_set. apply Hinv.
  - pose proof (inv_depth _ _ Hinv). fold d in H. lia.
  - done.
  - intros u Hu. destruct (Hsub u Hu) as [Hu' Hne].
    destruct (inv_path _ _ Hinv u Hu') as (Hr & Hvis & Hrs).
    split; [done|]. split; [done|].
    by rewrite get_set_ne by by apply in_range_ne.
  - intros u Hr Hrs.
    destruct (decide (u = v)) as [->|Hne]; [by rewrite get_set_eq in Hrs|].
    rewrite get_set_ne in Hrs by by apply in_range_ne.
    pose proof (inv_stack _ _ Hinv u Hr Hrs) as Hu. fold d in Hu.
    rewrite Htp in Hu. apply elem_of_app in Hu as [Hu|Hu%list_elem_of_singleton]; done.
  - intros u c Hu Hrs He.
    destruct (decide (u = v)) as [->|Hne]; [by apply Hrep|].
    apply (inv_loops _ _ Hinv u c); [done| |done].
    apply (inv_calls _ _ Hinv) in Hu as [Hr _].
    by rewrite get_set_ne in Hrs by by apply in_range_ne.
Qed.

(** [recursiveDFS] with fuel [f] returns whenever at most [f] vertices
    are unvisited, and meets [call_spec]. *)
Lemma recursiveDFS_correct f : call_spec G (recursiveDFS f G) f.
Proof.
  induction f as [|f IH]; intros st v Hpre Hu.
  - destruct (enter_frame st v Hpre) as (_ & _ & _ & _ & _ & _ & _ & Hcount & _).
    lia.
  - pose proof (enter_loop_inv st v Hpre) as Hli.
    destruct (enter_frame st v Hpre)
      as (Hd & Hp & Hvp & Hvis & Hrs & Hout & Hcalls & Hcount & Hvv).
    destruct (edge_loop_correct (recursiveDFS f G) f v IH (adj G v) [] (enter st v))
      as (st2 & Hloop & Hli2 & Hfr & Hrep); [done|done|lia|by intros c ?%elem_of_nil|].
    cbn [recursiveDFS]. rewrite Hloop. exists (leave st2 v).
    split; [done|]. split; [by apply leave_inv|].
    destruct Hfr as [Hfd Hfp Hfv Hfvis Hfrs [o Ho] [cl Hcl] Hfu].
    rewrite Hd in Hfp, Hfv. simpl in Hfv.
    split; [split|]; simpl.
    + rewrite Hfd, Hd. done.
    + apply (f_equal (take (depth st))) in Hfp.
      rewrite !take_take in Hfp. replace (min (depth st) (S (depth st)))
        with (depth st) in Hfp by lia. congruence.
    + done.
    + auto.
    + intros u Hu'. rewrite get_set_ne.
      * rewrite Hfrs by auto. auto.
      * apply get_differ with (a := visited st). destruct Hpre. congruence.
    + exists o. by rewrite Ho, Hout.
    + exists ([v] ++ cl). by rewrite Hcl, Hcalls, app_assoc.
    + change (unvisited st2 <= unvisited st)%nat. lia.
    + auto.
Qed.

Lemma dfs_init_inv : dfs_inv G (dfs_init (vertexAmount G)).
Proof.
  assert (Hzero : ∀ u, get (replicate (vertexAmount G) 0) u = 0).
  { intros u. unfold get.
    destruct (replicate (vertexAmount G) 0 !! Z.to_nat u) as [x|] eqn:E; [|done].
    by apply lookup_replicate in E as [-> _]. }
  split; simpl; try apply length_replicate.
  - lia.
  - constructor.
  - by intros u ?%elem_of_nil.
  - intros u _ H. by rewrite Hzero in H.
  - constructor.
  - intros u. split; [by intros ?%elem_of_nil|].
    intros [_ H]. by rewrite Hzero in H.
  - by intros r ?%elem_of_nil.
  - by intros u c ?%elem_of_nil.
Qed.

(** The loop over all vertices. *)
Lemma root_loop_correct fuel vs st :
  dfs_inv G st → depth st = O → (∀ v, v ∈ vs → in_range G v) →
  (unvisited st <= fuel)%nat →
  ∃ st', root_loop fuel G vs st = Some st' ∧ dfs_inv G st' ∧ depth st' = O ∧
         (∀ u, get (visited st) u ≠ 0 → get (visited st') u ≠ 0) ∧
         (∀ v, v ∈ vs → get (visited st') v ≠ 0).
Proof.
  revert st. induction vs as [|v vs IH]; intros st Hinv Hd Hvs Hu.
  - exists st. split; [done|]. split; [done|]. split; [done|].
    split; [done|]. by intros v ?%elem_of_nil.
  - assert (Hrest : ∀ u, u ∈ vs → in_range G u).
    { intros u Hu'. apply Hvs. apply elem_of_cons. by right. }
    cbn [root_loop].
    destruct (Z.eqb_spec (get (visited st) v) 0) as [Hfresh|Hvis].
    + destruct (recursiveDFS_correct fuel st v) as (st1 & Hcall & Hinv1 & Hfr & Hv1).
      { split; [done| |done|].
        - apply Hvs. apply elem_of_cons. by left.
        - rewrite Hd, !take_0. constructor. }
      { done. }
      rewrite Hcall.
      destruct (IH st1) as (st' & Hst' & Hinv' & Hd' & Hmono & Hall); [done| |done| |].
      { by rewrite (fr_depth _ _ _ Hfr). }
      { pose proof (fr_unvisited _ _ _ Hfr). lia. }
      exists st'. split; [done|]. split; [done|]. split; [done|]. split.
      * intros u Hu'. apply Hmono. by apply (fr_visited _ _ _ Hfr).
      * intros u [->|Hu']%elem_of_cons; [by apply Hmono|by apply Hall].
    + destruct (IH st) as (st' & Hst' & Hinv' & Hd' & Hmono & Hall); try done.
      exists st'. split; [done|]. split; [done|]. split; [done|]. split; [done|].
      intros u [->|Hu']%elem_of_cons; [by apply Hmono|by apply Hall].
Qed.

(** [depthFirstSearch] returns; in its final state the invariant holds,
    the path is empty and every vertex was visited. *)
Lemma depthFirstSearch_total :
  ∃ st, depthFirstSearch G = Some st ∧ dfs_inv G st ∧ depth st = O ∧
        ∀ v, in_range G v → get (visited st) v ≠ 0.
Proof.
  unfold depthFirstSearch.
  destruct (root_loop_correct (vertexAmount G)
              (seqZ 0 (Z.of_nat (vertexAmount G))) (dfs_init (vertexAmount G)))
    as (st & Hst & Hinv & Hd & _ & Hall).
  - apply dfs_init_inv.
  - done.
  - intros v Hv%elem_of_seqZ. unfold in_range. lia.
  - unfold unvisited. simpl.
    etransitivity; [apply length_filter|]. by rewrite length_replicate.
  - exists st. split; [done|]. split; [done|]. split; [done|].
    intros v Hv. apply Hall. apply elem_of_seqZ. unfold in_range in Hv. lia.
Qed.

End Search.

(** More fuel does not change what a call returns. *)
Lemma edge_loop_mono (rec rec' : dfs_state → Z → option dfs_state) :
  (∀ st w st', rec st w = Some st' → rec' st w = Some st') →
  ∀ es st st', edge_loop rec es st = Some st' → edge_loop rec' es st = Some st'.
Proof.
  intros Hrec. induction es as [|e es IH]; intros st st'; [done|].
  cbn [edge_loop].
  destruct (get (visited (set_value st (transactionValue e))) (destination e) =? 0).
  - destruct (rec (set_value st (transactionValue e)) (destination e))
      as [st2|] eqn:E; [|done].
    rewrite (Hrec _ _ _ E). apply IH.
  - destruct (negb _); apply IH.
Qed.

Lemma recursiveDFS_fuel_mono G f f' st v st' :
  (f <= f')%nat → recursiveDFS f G st v = Some st' →
  recursiveDFS f' G st v = Some st'.
Proof.
  revert f' st v st'. induction f as [|f IH]; intros f' st v st' Hle; [done|].
  destruct f' as [|f']; [lia|]. cbn [recursiveDFS].
  destruct (edge_loop (recursiveDFS f G) (adj G v) (enter st v)) as [st2|] eqn:E;
    [|done].
  rewrite (edge_loop_mono (recursiveDFS f G) (recursiveDFS f' G)) with (st' := st2);
    [done| |done].
  intros st0 w st0'. apply IH. lia.
Qed.

(** *** What [max_step] accumulates *)

Lemma foldl_max_step_spec cs a :
  let m := foldl max_step a cs in
  a <= m ∧ (∀ c, c ∈ cs → c <= m) ∧ (m = a ∨ m ∈ cs).
Proof.
  revert a. induction cs as [|c cs IH]; intros a; simpl.
  - split; [lia|]. split; [by intros c ?%elem_of_nil|by left].
  - destruct (IH (max_step a c)) as (Hle & Hall & Hin).
    assert (Hstep : a <= max_step a c ∧ c <= max_step a c ∧
                    (max_step a c = a ∨ max_step a c = c)).
    { unfold max_step. destruct (Z.ltb_spec a c); lia. }
    split; [lia|]. split.
    + intros x [->|Hx]%elem_of_cons; [lia|by apply Hall].
    + destruct Hin as [Hm|Hm].
      * destruct Hstep as (_ & _ & [E|E]).
        -- left. congruence.
        -- right. apply elem_of_cons. left. congruence.
      * right. apply elem_of_cons. by right.
Qed.

Lemma foldl_max_step_max cs : foldl max_step 0 cs = foldl Z.max 0 cs.
Proof.
  generalize 0. induction cs as [|c cs IH]; intros a; simpl; [done|].
  rewrite IH. f_equal. unfold max_step. destruct (Z.ltb_spec a c); lia.
Qed.

(** *** The claims about the search *)

(** C7: in any run of [depthFirstSearch], [recursiveDFS] is called at
    most once for a vertex (here: exactly once for each vertex of the
    graph). The loop over the vertices passes over a visited vertex; the
    edge loop never calls [recursiveDFS] for a visited destination; and
    for a visited destination that is not on the stack it only stores the
    edge value and moves on, with no cycle counted or written. *)
Theorem visited_never_reentered (G : GraphDS) :
  wf_graph G →
  (∃ st, depthFirstSearch G = Some st ∧ NoDup (calls st) ∧
         ∀ v, v ∈ calls st ↔ in_range G v) ∧
  (∀ fuel vs v st, get (visited st) v ≠ 0 →
     root_loop fuel G (v :: vs) st = root_loop fuel G vs st) ∧
  (∀ rec e next st, get (visited st) (destination e) ≠ 0 →
     edge_loop rec (e :: next) st =
       edge_loop rec next
         (if get (recStack st) (destination e) =? 0
          then set_value st (transactionValue e)
          else report (set_value st (transactionValue e)) (destination e)
                      (transactionValue e))) ∧
  (∀ rec e next st,
     get (visited st) (destination e) ≠ 0 →
     get (recStack st) (destination e) = 0 →
     let st1 := set_value st (transactionValue e) in
     edge_loop rec (e :: next) st = edge_loop rec next st1 ∧
     out st1 = out st ∧ cycle_count st1 = cycle_count st ∧
     calls st1 = calls st ∧ visited st1 = visited st ∧
     recStack st1 = recStack st ∧ path st1 = path st ∧ depth st1 = depth st).
Proof.
  intros Hwf. split; [|split; [|split]].
  - destruct (depthFirstSearch_total G Hwf) as (st & Hst & Hinv & _ & Hall).
    exists st. split; [done|]. split; [apply Hinv|].
    intros v. rewrite (inv_calls _ _ Hinv). split; [tauto|]. auto.
  - intros fuel vs v st Hv. cbn [root_loop].
    by destruct (Z.eqb_spec (get (visited st) v) 0).
  - intros rec e next st Hv. cbn [edge_loop].
    change (visited (set_value st (transactionValue e))) with (visited st).
    change (recStack (set_value st (transactionValue e))) with (recStack st).
    destruct (Z.eqb_spec (get (visited st) (destination e)) 0); [done|].
    by destruct (get (recStack st) (destination e) =? 0).
  - intros rec e next st Hv Hrs st1. split; [|done].
    cbn [edge_loop]. fold st1.
    change (visited st1) with (visited st). change (recStack st1) with (recStack st).
    destruct (Z.eqb_spec (get (visited st) (destination e)) 0); [done|].
    by rewrite Hrs.
Qed.

Lemma visited_never_reentered_witness :
  ∃ st, depthFirstSearch DFSExamples.triangle = Some st ∧ NoDup (calls st).
Proof.
  destruct (visited_never_reentered DFSExamples.triangle)
    as ((st & Hst & Hnd & _) & _).
  { apply GraphProofs.foldl_insert_wf, GraphProofs.initGraph_wf. }
  exists st. split; [exact Hst|exact Hnd].
Defined.

(** C8: in every graph with a self-loop [A -> A] of value 7 the search
    returns and writes a cycle [A -> A] with flow 7: the edge is met in the
    call for [A], while [A] is on the stack. *)
Theorem self_loop_detected (G : GraphDS) (A : Z) :
  wf_graph G → Tx A 7 ∈ adj G A →
  ∃ st n, depthFirstSearch G = Some st ∧ Cycle n [A; A] 7 ∈ out st.
Proof.
  intros Hwf Hloop.
  pose proof (adj_in_range G Hwf A _ Hloop) as HA. simpl in HA.
  destruct (depthFirstSearch_total G Hwf) as (st & Hst & Hinv & Hd & Hall).
  assert (Hcalled : A ∈ calls st) by (apply (inv_calls _ _ Hinv); auto).
  assert (Hoff : get (recStack st) A = 0).
  { destruct (decide (get (recStack st) A = 0)) as [|Hon]; [done|].
    apply (inv_stack _ _ Hinv A HA) in Hon. rewrite Hd, take_0 in Hon.
    by apply elem_of_nil in Hon. }
  destruct (inv_loops _ _ Hinv A 7 Hcalled Hoff Hloop) as [n Hn].
  exists st, n. split; [done|exact Hn].
Qed.

Lemma self_loop_detected_witness :
  ∃ st n, depthFirstSearch DFSExamples.selfloop = Some st ∧
          Cycle n [0; 0] 7 ∈ out st.
Proof.
  apply (self_loop_detected DFSExamples.selfloop 0).
  - apply GraphProofs.foldl_insert_wf, GraphProofs.initGraph_wf.
  - apply list_elem_of_singleton. reflexivity.
Defined.
End DFSProofs.

(** * More on the parser *)

Module WeiMore.
Import WeiParser Token TokenFacts MantissaForm WeiProofs.

(** The cache that [parse_wei_ctx_create] fills has [POW10_CACHE_SIZE]
    entries and entry [i] is [10 ^ i]. The power that
    [parse_wei_optimized] uses is [10 ^ n] on both sides of the cache
    limit: below it whatever [mpz_ui_pow_ui] can do, from it on when
    [mpz_ui_pow_ui] returns, which it does up to its limit and never from
    [MPZ_MAX_BITS] on. *)
Theorem pow10_cache_correct :
  length pow10_cache = 60%nat ∧
  (∀ i, (i < 60)%nat → pow10_cache !! i = Some (10 ^ Z.of_nat i)) ∧
  (∀ i, (60 <= i)%nat → pow10_cache !! i = None) ∧
  (∀ limit n, 0 <= n < 60 → power_of_10 limit n = Some (10 ^ n)) ∧
  (∀ limit n, 60 <= n → n <= limit → n < MPZ_MAX_BITS →
              power_of_10 limit n = Some (10 ^ n)) ∧
  (∀ limit n, 60 <= n → limit < n ∨ MPZ_MAX_BITS <= n →
              power_of_10 limit n = None).
Proof.
  assert (Hlen : ∀ k p, length (fill_cache k p) = k).
  { induction k as [|k IH]; intros p; simpl; [done|]. by rewrite IH. }
  split; [apply Hlen|]. split; [|split].
  - intros i Hi. unfold pow10_cache.
    change (Z.to_nat POW10_CACHE_SIZE) with 60%nat.
    rewrite fill_cache_lookup by done. f_equal. lia.
  - intros i Hi. apply lookup_ge_None. unfold pow10_cache. rewrite Hlen.
    change (Z.to_nat POW10_CACHE_SIZE) with 60%nat. lia.
  - split; [|split].
    + intros limit n Hn. by apply power_of_10_cached.
    + intros limit n Hn Hle Hbits. apply power_of_10_fits; [lia|by right].
    + intros limit n Hn Hout. apply power_of_10_abort.
      unfold power_fits, POW10_CACHE_SIZE. lia.
Qed.

(** *** Which mantissas the loop accepts *)

Lemma mantissa_loop_body body st :
  mantissa_loop false body st = None ↔
  has_char (λ c, negb (digit_or_dot c)) body = true ∨
  (1 < count_char is_dot body + (if dot_found st then 1 else 0))%nat.
Proof.
  revert st. induction body as [|c body IH]; intros st.
  - simpl. split; [done|]. intros [?|?]; [done|]. destruct (dot_found st); lia.
  - cbn [mantissa_loop has_char count_char]. unfold digit_or_dot at 1.
    destruct (isdigit c) eqn:Hd.
    + rewrite (digit_not_dot c Hd). simpl. rewrite IH. simpl. tauto.
    + destruct (is_dot c) eqn:Hdot; simpl.
      * destruct (dot_found st) eqn:Hf; simpl.
        -- rewrite andb_false_r. split; [intros _; right; lia|done].
        -- rewrite IH. simpl.
           replace (S (count_char is_dot body + 0))%nat
             with (count_char is_dot body + 1)%nat by lia. tauto.
      * rewrite andb_false_r. split; [by left|done].
Qed.

Lemma mantissa_loop_has_digits body st st' :
  mantissa_loop false body st = Some st' →
  has_digits st' = has_digits st || has_char isdigit body.
Proof.
  revert st. induction body as [|c body IH]; intros st.
  - simpl. intros [= <-]. by rewrite orb_false_r.
  - cbn [mantissa_loop has_char]. destruct (isdigit c) eqn:Hd.
    + intros H%IH. rewrite H. simpl. by rewrite orb_true_r.
    + destruct (is_dot c && negb (dot_found st)).
      * intros H%IH. by rewrite H.
      * by rewrite andb_false_r.
Qed.

Lemma scan_strip_sign m :
  mantissa_loop true m mantissa_init
  = mantissa_loop false (strip_sign m) mantissa_init.
Proof.
  destruct m as [|c r]; [done|]. unfold strip_sign.
  destruct (is_sign c) eqn:Hs.
  - cbn [mantissa_loop]. by rewrite (sign_not_digit c), (sign_not_dot c), Hs.
  - apply mantissa_loop_first. simpl. done.
Qed.

(** The parser answers -1 exactly when the mantissa region is not an
    optional sign followed by digits with at most one dot and at least
    one digit; when it returns, its return code is 0, -1 or -2. *)
Theorem syntax_error_exactly (limit : Z) (s : string) :
  (parse_wei_optimized limit s = ParseErr ERR_INVALID_CHAR
   ↔ mantissa_form (region s) = false) ∧
  (return_code (parse_wei_optimized limit s) = Some 0 ∨
   return_code (parse_wei_optimized limit s) = Some ERR_INVALID_CHAR ∨
   return_code (parse_wei_optimized limit s) = Some ERR_NOT_INTEGER ∨
   parse_wei_optimized limit s = ParseAbort).
Proof.
  rewrite parse_unfold. unfold scan, mantissa_form, body_ok.
  rewrite scan_strip_sign.
  set (body := strip_sign (region s)).
  pose proof (mantissa_loop_body body mantissa_init) as Hnone.
  pose proof (mantissa_loop_has_digits body mantissa_init) as Hdig.
  simpl in Hnone, Hdig.
  destruct (mantissa_loop false body mantissa_init) as [st|] eqn:E.
  - specialize (Hdig st eq_refl). rewrite Hdig.
    assert (Hok : has_char (λ c, negb (digit_or_dot c)) body = false ∧
                  (count_char is_dot body <= 1)%nat).
    { destruct (has_char (λ c, negb (digit_or_dot c)) body) eqn:E1.
      - assert (Some st = None) by (apply Hnone; by left). done.
      - split; [done|].
        destruct (le_lt_dec (count_char is_dot body) 1) as [|Hgt]; [done|].
        assert (Some st = None) by (apply Hnone; right; lia). done. }
    destruct Hok as [-> Hle]. apply Nat.leb_le in Hle. rewrite Hle. simpl.
    destruct (has_char isdigit body); simpl.
    + pose proof (apply_power_not_invalid limit (mantissa_int st) (net_power s st))
        as Hne.
      split; [by split|].
      unfold apply_power.
      repeat match goal with
             | |- context [if ?b then _ else _] => destruct b
             | |- context [match power_of_10 ?l ?n with _ => _ end] =>
                 destruct (power_of_10 l n)
             end; simpl; auto.
    + split; [done|]. right. by left.
  - split; [|right; by left]. split; [intros _|done].
    destruct (proj1 Hnone eq_refl) as [->|Hgt]; [done|].
    apply andb_false_iff. left. apply andb_false_iff. right.
    apply Nat.leb_gt. lia.
Qed.

(** *** What follows the exponent digits *)

Lemma strtol_digits_tail ds rest acc :
  all_digits ds = true → starts_with isdigit rest = false →
  strtol_digits acc (ds +:+ rest) = strtol_digits acc ds.
Proof.
  revert acc. induction ds as [|c ds IH]; intros acc Hds Hrest; sapp.
  - by rewrite strtol_digits_no_digit.
  - simpl in Hds |- *. apply andb_true_iff in Hds as [-> Hds]. by apply IH.
Qed.

Lemma strtol_tail s ds rest :
  sign_ok s = true → all_digits ds = true → (String.length ds ≠ 0)%nat →
  starts_with isdigit rest = false →
  strtol (opt_char s +:+ ds +:+ rest) = strtol (opt_char s +:+ ds).
Proof.
  intros Hs Hds Hlen Hrest. unfold strtol.
  destruct s as [c|]; simpl in Hs |- *; sapp.
  - simpl. rewrite (sign_not_space c) by done.
    by rewrite !strtol_digits_tail.
  - destruct ds as [|c ds]; [done|]. sapp. simpl in Hds.
    apply andb_true_iff in Hds as [Hc Hds].
    cbn [skip_space]. rewrite (digit_not_space c) by done.
    pose proof (digit_not_sign c Hc) as [Hp Hm]%orb_false_iff. rewrite Hp, Hm.
    f_equal. cbn [strtol_digits]. rewrite Hc. by apply strtol_digits_tail.
Qed.

Lemma strtol_skip ws suffix :
  has_char (λ c, negb (isspace c)) ws = false →
  strtol (ws +:+ suffix) = strtol suffix.
Proof.
  intros Hws. unfold strtol.
  replace (skip_space (ws +:+ suffix)) with (skip_space suffix); [done|].
  induction ws as [|c ws IH]; sapp; [done|]. simpl in Hws |- *.
  apply orb_false_iff in Hws as [Hc Hws]. apply negb_false_iff in Hc.
  rewrite Hc. by apply IH.
Qed.

Lemma parse_same_exponent limit m c a b :
  is_eE c = true → has_char is_eE m = false → strtol a = strtol b →
  parse_wei_optimized limit (m +:+ String c a)
  = parse_wei_optimized limit (m +:+ String c b).
Proof.
  intros Hc Hm Hab. unfold parse_wei_optimized.
  rewrite !strpbrk_marker by done. simpl. by rewrite Hab.
Qed.

(** Only the start of what follows the first marker counts: after the
    exponent digits any text that does not begin with a digit is ignored
    (["5e3abc"], ["5e3e7"] and ["1e2.5"] parse like ["5e3"], ["5e3"] and
    ["1e2"]), and white space between the marker and the exponent is
    skipped. *)
Theorem exponent_tail_ignored :
  (∀ (limit : Z) (m : string) (c : ascii) (s : option ascii) (ds rest : string),
     is_eE c = true → has_char is_eE m = false →
     sign_ok s = true → all_digits ds = true → (String.length ds ≠ 0)%nat →
     starts_with isdigit rest = false →
     parse_wei_optimized limit (m +:+ String c (opt_char s +:+ ds +:+ rest))
     = parse_wei_optimized limit (m +:+ String c (opt_char s +:+ ds))) ∧
  (∀ (limit : Z) (m : string) (c : ascii) (ws suffix : string),
     is_eE c = true → has_char is_eE m = false →
     has_char (λ c, negb (isspace c)) ws = false →
     parse_wei_optimized limit (m +:+ String c (ws +:+ suffix))
     = parse_wei_optimized limit (m +:+ String c suffix)).
Proof.
  split.
  - intros limit m c s ds rest Hc Hm Hs Hds Hlen Hrest.
    apply parse_same_exponent; [done|done|]. by apply strtol_tail.
  - intros limit m c ws suffix Hc Hm Hws.
    apply parse_same_exponent; [done|done|]. by apply strtol_skip.
Qed.

Lemma exponent_tail_ignored_witness :
  parse_wei_optimized 100 "5e3e7" = parse_wei_optimized 100 "5e3" ∧
  parse_wei_optimized 100 "2.5E-1x" = parse_wei_optimized 100 "2.5E-1" ∧
  parse_wei_optimized 100 "7e 2" = parse_wei_optimized 100 "7e2".
Proof.
  destruct exponent_tail_ignored as [Htail Hskip].
  split; [|split].
  - apply (Htail 100 "5" "e"%char None "3" "e7"); try reflexivity. discriminate.
  - apply (Htail 100 "2.5" "E"%char (Some "-"%char) "1" "x"); try reflexivity.
    discriminate.
  - apply (Hskip 100 "7" "e"%char " " "2"); reflexivity.
Defined.

End WeiMore.

(** * More on the graph, the index and the loader *)

Module GraphMore.
Import Graph Index Loader DFS DFSFacts IndexFacts GraphFacts WeiParser GraphProofs.

Lemma sum_list_insert (l : list nat) i x y :
  l !! i = Some x → (sum_list (<[i:=y]> l) + x = sum_list l + y)%nat.
Proof.
  revert i. induction l as [|a l IH]; intros i; [done|].
  destruct i as [|i]; simpl.
  - intros [= ->]. lia.
  - intros H. specialize (IH i H). lia.
Qed.

Lemma insertEdge_cases G v w value :
  length (adjList G) = vertexAmount G →
  (accepted (vertexAmount G) (v, w, value) ∧
   insertEdge G v w value =
     (MkGraph (vertexAmount G) (S (edgesAmount G))
        (<[Z.to_nat v := Tx w value :: adj G v]> (adjList G)), 1) ∧
   adjList G !! Z.to_nat v = Some (adj G v)) ∨
  (¬ accepted (vertexAmount G) (v, w, value) ∧ insertEdge G v w value = (G, 0)).
Proof.
  intros Hlen. unfold insertEdge, accepted. simpl.
  destruct (Z.ltb_spec v 0), (Z.leb_spec (Z.of_nat (vertexAmount G)) v),
    (Z.ltb_spec w 0), (Z.leb_spec (Z.of_nat (vertexAmount G)) w); simpl;
    try (right; split; [lia|done]).
  left. split; [lia|]. split; [done|].
  unfold adj.
  destruct (adjList G !! Z.to_nat v) as [es|] eqn:E; [done|].
  apply lookup_ge_None in E. lia.
Qed.

Lemma build_snoc V es e :
  build V (es ++ [e]) = (insertEdge (build V es) e.1.1 e.1.2 e.2).1.
Proof. unfold build. by rewrite foldl_snoc. Qed.

(** Whatever the calls, the graph keeps its [V] list heads, edges between
    vertices only, and a counter [edgesAmount] that equals both the
    number of accepted calls and the number of records in the lists. *)
Theorem build_counts (V : nat) (es : list (Z * Z * Z)) :
  let G := build V es in
  vertexAmount G = V ∧ length (adjList G) = V ∧ wf_graph G ∧
  edgesAmount G = length (filter (accepted V) es) ∧
  edgesAmount G = edge_total G.
Proof.
  induction es as [|e es IH] using rev_ind.
  - simpl. split; [done|]. split; [apply length_replicate|].
    split; [apply initGraph_wf|]. split; [done|].
    unfold edge_total. simpl. induction V; simpl; [done|]. done.
  - rewrite build_snoc. destruct e as [[v w] value]. simpl.
    destruct IH as (HV & Hlen & Hwf & Hacc & Htot).
    split; [|split; [|split; [by apply insertEdge_wf|]]].
    + pose proof (insertEdge_counts (build V es) v w value) as [H _]. congruence.
    + destruct (insertEdge_cases (build V es) v w value) as [(_ & -> & _)|(_ & ->)];
        [congruence| |done]. simpl. by rewrite length_insert.
    + rewrite filter_app, length_app.
      destruct (insertEdge_cases (build V es) v w value)
        as [(Ha & -> & Hadj)|(Hna & ->)]; [congruence| |].
      * rewrite HV in Ha. rewrite filter_cons_True by done. simpl.
        split; [lia|]. unfold edge_total in *. simpl.
        rewrite list_fmap_insert.
        pose proof (sum_list_insert (length <$> adjList (build V es)) (Z.to_nat v)
                      (length (adj (build V es) v))
                      (length (Tx w value :: adj (build V es) v))) as Hsum.
        rewrite list_lookup_fmap, Hadj in Hsum. specialize (Hsum eq_refl).
        cbn [length] in Hsum |- *. lia.
      * rewrite HV in Hna. rewrite filter_cons_False by done. simpl.
        split; [lia|done].
Qed.

(** The list of a vertex holds the accepted edges that leave it, the
    last inserted first, each call kept as a record of its own. *)
Theorem build_adjacency (V : nat) (es : list (Z * Z * Z)) (v : Z) :
  0 <= v → adj (build V es) v = reverse (edges_from V v es).
Proof.
  intros Hv. induction es as [|e es IH] using rev_ind.
  - unfold build, adj, edges_from. simpl.
    destruct (replicate V [] !! Z.to_nat v) as [l|] eqn:E; [|done].
    by apply lookup_replicate in E as [-> _].
  - rewrite build_snoc. destruct e as [[a w] value]. simpl.
    destruct (build_counts V es) as (HV & Hlen & _).
    unfold edges_from. rewrite filter_app, fmap_app, reverse_app.
    fold (edges_from V v es). rewrite <- IH.
    destruct (insertEdge_cases (build V es) a w value)
      as [(Ha & -> & Hadj)|(Hna & ->)]; [congruence| |].
    + rewrite HV in Ha. simpl. unfold adj at 1. simpl.
      destruct (decide (a = v)) as [->|Hne].
      * rewrite list_lookup_insert_eq
          by (rewrite Hlen; destruct Ha as [Ha _]; simpl in Ha; lia).
        by rewrite filter_cons_True.
      * rewrite list_lookup_insert_ne by (destruct Ha as [Ha _]; simpl in Ha; lia).
        rewrite filter_cons_False by (intros [? _]; done). done.
    + rewrite HV in Hna. simpl.
      rewrite filter_cons_False by (intros [_ ?]; done). done.
Qed.

Lemma build_adjacency_witness :
  adj (build 2 [(0, 1, 5); (0, 1, 5); (3, 0, 1); (0, 0, 2)]) 0
  = [Tx 0 2; Tx 1 5; Tx 1 5].
Proof.
  rewrite (build_adjacency 2 [(0, 1, 5); (0, 1, 5); (3, 0, 1); (0, 0, 2)] 0).
  - vm_compute. reflexivity.
  - lia.
Defined.

(** *** The index *)

Lemma addToHash_keeps name' st name i :
  st.1 !! name = Some i → (addToHash name' st).1 !! name = Some i.
Proof.
  destruct st as [m n]. simpl. intros H. unfold addToHash.
  destruct (m !! name') eqn:E; simpl; [done|].
  rewrite lookup_insert_ne; [done|]. intros ->. congruence.
Qed.

Lemma intern_all_app names more st :
  intern_all (names ++ more) st = intern_all more (intern_all names st).
Proof. unfold intern_all. by rewrite foldl_app. Qed.

(** An index, once given, is never changed by later calls of [addToHash],
    for the same or for other identifiers; the counter never goes down
    and a call raises it by at most one. *)
Theorem index_stable :
  (∀ names more st name i,
     (intern_all names st).1 !! name = Some i →
     getVertexIndex (intern_all (names ++ more) st).1 name = Some i) ∧
  (∀ name st, (st.2 <= (addToHash name st).2 <= S st.2)%nat) ∧
  (∀ names st, (st.2 <= (intern_all names st).2 <= st.2 + length names)%nat).
Proof.
  assert (Hstep : ∀ name st, (st.2 <= (addToHash name st).2 <= S st.2)%nat).
  { intros name [m n]. unfold addToHash. destruct (m !! name); simpl; lia. }
  split; [|split; [done|]].
  - intros names more st name i H. rewrite intern_all_app.
    unfold getVertexIndex. generalize dependent (intern_all names st).
    clear st names. induction more as [|x more IH]; intros st H; [done|].
    simpl. apply IH. by apply addToHash_keeps.
  - intros names. unfold intern_all.
    induction names as [|x names IH]; intros st; simpl; [lia|].
    specialize (IH (addToHash x st)). specialize (Hstep x st). lia.
Qed.

Lemma index_stable_witness :
  getVertexIndex (intern_all (["a"; "b"] ++ ["c"; "b"; "a"]) (∅, O)).1 "b"
  = Some 1%nat.
Proof.
  destruct index_stable as [H _]. apply H. vm_compute. reflexivity.
Defined.


(** *** The loader *)

Lemma first_pass_represents file :
  represents (addAllVertexToHashmap file ∅)
             (first_seen (interned_names (String.length file) file)).
Proof.
  pose proof (intern_all_represents
                (interned_names (String.length file) file) _ _ represents_empty) as Hrep.
  simpl in Hrep. rewrite filter_not_in_nil in Hrep.
  by rewrite <- addAll_loop_names in Hrep.
Qed.

Lemma loadGraph_vertices limit file G stderr :
  loadGraph limit file = Loaded G stderr →
  vertexAmount G = (addAllVertexToHashmap file ∅).2.
Proof.
  intros H. unfold loadGraph, hashToGraph in H.
  destruct (addAllVertexToHashmap file ∅) as [vertex_map vertexCount].
  apply hashToGraph_loop_counts in H as [Hv _]. simpl in *. done.
Qed.

(** For every file the second pass never looks up an identifier that the
    first pass did not add, so [loadGraph] ends in one of two ways. Either
    it returns a graph, which has one vertex for each distinct identifier
    among the source and destination fields read, only edges that join two
    of its vertices and no negative edge value; or GMP aborts the process
    on one of the values that the second pass reads, which is the only
    thing that keeps the loader from returning. *)
Theorem loadGraph_safe (limit : Z) (file : string) :
  let V := length (first_seen (interned_names (String.length file) file)) in
  (∃ G stderr, loadGraph limit file = Loaded G stderr ∧
     wf_graph G ∧ nonneg_values G ∧ vertexAmount G = V ∧
     ∀ v, v ∈ values_read V file → parse_wei_optimized limit v ≠ ParseAbort) ∨
  (loadGraph limit file = LoadAbort ∧
     ∃ v, v ∈ values_read V file ∧ parse_wei_optimized limit v = ParseAbort).
Proof.
  intros V.
  assert (HV : (addAllVertexToHashmap file ∅).2 = V)
    by apply (first_pass_represents file).
  pose proof (loadGraph_total limit file) as Htotal. rewrite HV in Htotal.
  destruct Htotal as [(G & stderr & HG & Hwf & Hnn & Hall)|Habort]; [left|by right].
  exists G, stderr. split; [done|]. split; [done|]. split; [done|].
  split; [|done]. by rewrite (loadGraph_vertices limit file G stderr HG).
Qed.

Lemma int_of_size_t_small n : Z.of_nat n < 2 ^ 31 → int_of_size_t n = Z.of_nat n.
Proof.
  intros H. unfold int_of_size_t. rewrite Z.mod_small; lia.
Qed.

Lemma hashToGraph_loop_accounts limit vertex_map n :
  ∀ i file G stderr G' stderr',
    length (adjList G) = vertexAmount G →
    (∀ name idx, vertex_map !! name = Some idx → (idx < vertexAmount G)%nat) →
    Z.of_nat (vertexAmount G) < 2 ^ 31 →
    hashToGraph_loop limit n i file vertex_map G stderr = Loaded G' stderr' →
    (edgesAmount G' + length stderr' = edgesAmount G + length stderr + n)%nat.
Proof.
  induction n as [|n IH]; intros i file G stderr G' stderr' Hlen Hidx HV.
  - simpl. intros [= <- <-]. lia.
  - cbn [hashToGraph_loop].
    destruct (fscanf3 file) as [[[[a b] c]|] rest].
    + destruct (parse_wei_optimized limit c) as [value|code|]; [| |done].
      * unfold getVertexIndex.
        destruct (vertex_map !! a) as [fi|] eqn:Ha; [|done].
        destruct (vertex_map !! b) as [ti|] eqn:Hb; [|done].
        pose proof (Hidx _ _ Ha) as Hfi. pose proof (Hidx _ _ Hb) as Hti.
        rewrite !int_of_size_t_small by lia.
        destruct (insertEdge_cases G (Z.of_nat fi) (Z.of_nat ti) value Hlen)
          as [(_ & -> & _)|(Hna & _)].
        2:{ exfalso. apply Hna. unfold accepted. simpl. lia. }
        intros H. apply IH in H; simpl in *; [lia| |done|done].
        by rewrite length_insert.
      * intros H. apply IH in H; [|done|done|done].
        rewrite length_app in H. simpl in H. lia.
    + intros H. apply IH in H; [|done|done|done].
      rewrite length_app in H. simpl in H. lia.
Qed.

(** With fewer than [2 ^ 31] vertices (so that an index survives the
    conversion to [int]), each of the [vertexAmount] rounds of the second
    pass either inserts one edge or writes one warning: the edges and
    the warnings add up to the number of vertices. *)
Theorem loader_accounts (limit : Z) (file : string) (G : GraphDS)
    (stderr : list warning) :
  loadGraph limit file = Loaded G stderr →
  Z.of_nat (vertexAmount G) < 2 ^ 31 →
  (edgesAmount G + length stderr = vertexAmount G)%nat.
Proof.
  intros Hload HV.
  pose proof (loadGraph_vertices limit file G stderr Hload) as Hcount.
  pose proof (first_pass_represents file) as Hrep.
  unfold loadGraph, hashToGraph in Hload.
  destruct (addAllVertexToHashmap file ∅) as [vertex_map vertexCount].
  simpl in *. subst vertexCount.
  apply hashToGraph_loop_accounts in Hload; simpl in *; [lia| | |done].
  - apply length_replicate.
  - destruct Hrep as (Hn & _ & Hmap). simpl in *. intros name idx H.
    apply Hmap in H. apply lookup_lt_Some in H. lia.
Qed.

Lemma loader_accounts_witness :
  ∃ G stderr,
    loadGraph 100 ("A B 1 B C x C" +:+ FileFacts.newline) = Loaded G stderr ∧
    vertexAmount G = 3%nat ∧
    (edgesAmount G + length stderr = 3)%nat.
Proof.
  eexists. eexists. split; [vm_compute; reflexivity|]. split; [reflexivity|].
  apply (loader_accounts 100 ("A B 1 B C x C" +:+ FileFacts.newline)).
  - vm_compute. reflexivity.
  - simpl. lia.
Defined.
End GraphMore.

(** * More on the cycle search *)

Module DFSMore.
Import Graph DFS DFSFacts SearchFacts GraphFacts DFSProofs.

Section Steps.

Variable G : GraphDS.
Hypothesis Hwf : wf_graph G.

(** One round of the edge loop of the call for [v], with the three ways
    it can go. *)
Lemma edge_step rec bound v e st :
  call_spec G rec bound → loop_inv G v st → e ∈ adj G v →
  (unvisited st <= bound)%nat →
  let st1 := set_value st (transactionValue e) in
  let w := destination e in
  ∃ st2, (∀ next, edge_loop rec (e :: next) st = edge_loop rec next st2) ∧
    loop_inv G v st2 ∧ frame (pred (depth st)) st st2 ∧ in_range G w ∧
    ((get (visited st) w = 0 ∧ call_pre G st1 w ∧ rec st1 w = Some st2 ∧
      frame (depth st) st1 st2 ∧ get (visited st2) w ≠ 0) ∨
     (get (visited st) w ≠ 0 ∧ get (recStack st) w ≠ 0 ∧
      st2 = report st1 w (transactionValue e) ∧ dfs_inv G st1 ∧
      path st1 !! pred (depth st1) = Some v ∧ (1 <= depth st1)%nat) ∨
     (get (visited st) w ≠ 0 ∧ get (recStack st) w = 0 ∧ st2 = st1)).
Proof.
  intros Hrec Hli He Hu st1 w.
  destruct (set_value_step G Hwf st v e Hli He) as (Hinv1 & Hfr1 & Hval1 & Hchain1 & Hrange).
  fold st1 in Hinv1, Hfr1, Hval1, Hchain1. fold w in Hchain1, Hrange.
  assert (Hstep : ∀ next, edge_loop rec (e :: next) st =
     if get (visited st) w =? 0 then
       match rec st1 w with Some st2 => edge_loop rec next st2 | None => None end
     else if negb (get (recStack st) w =? 0)
          then edge_loop rec next (report st1 w (transactionValue e))
          else edge_loop rec next st1) by done.
  destruct (Z.eqb_spec (get (visited st) w) 0) as [Hfresh|Hvis].
  - assert (Hpre : call_pre G st1 w) by by split.
    destruct (Hrec st1 w Hpre) as (st2 & Hcall & Hinv2 & Hfr2 & Hvis2).
    { pose proof (fr_unvisited _ _ _ Hfr1). lia. }
    assert (Hfr : frame (pred (depth st)) st st2).
    { apply (frame_trans _ _ st1); [done|].
      apply (frame_weaken (depth st1)); [simpl; lia|done]. }
    exists st2. split; [intros next; by rewrite Hstep, Hcall|].
    split; [by apply (loop_inv_frame G v st)|]. split; [done|]. split; [done|].
    left. done.
  - destruct (Z.eqb_spec (get (recStack st) w) 0) as [Hoff|Hon].
    + exists st1. split; [intros next; by rewrite Hstep|].
      split; [by apply (loop_inv_frame G v st)|]. split; [done|]. split; [done|].
      right. right. done.
    + destruct (report_good G st1 v w (transactionValue e))
        as (r & Hout & Hgood & _); try done; try apply Hli.
      destruct (report_inv G st1 w (transactionValue e) r (pred (depth st))
                  Hinv1 Hout Hgood) as [Hinv2 Hfr2].
      exists (report st1 w (transactionValue e)).
      split; [intros next; by rewrite Hstep|].
      assert (Hfr : frame (pred (depth st)) st (report st1 w (transactionValue e)))
        by by apply (frame_trans _ _ st1).
      split; [by apply (loop_inv_frame G v st)|]. split; [done|]. split; [done|].
      right. left. split; [done|]. split; [done|]. split; [done|].
      split; [done|]. split; [apply Hli|apply Hli].
Qed.

(** What every call from the loop over the vertices keeps, that loop
    keeps. *)
Lemma root_loop_lift (P : dfs_state → Prop) fuel :
  (∀ st v st', call_pre G st v → (unvisited st <= fuel)%nat →
               recursiveDFS fuel G st v = Some st' → P st → P st') →
  ∀ vs st st',
    dfs_inv G st → depth st = O → (∀ v, v ∈ vs → in_range G v) →
    (unvisited st <= fuel)%nat →
    root_loop fuel G vs st = Some st' → P st → P st'.
Proof.
  intros Hcall. induction vs as [|v vs IH]; intros st st' Hinv Hd Hvs Hu.
  - simpl. by intros [= <-].
  - assert (Hrest : ∀ u, u ∈ vs → in_range G u).
    { intros u Hu'. apply Hvs. apply elem_of_cons. by right. }
    cbn [root_loop].
    destruct (Z.eqb_spec (get (visited st) v) 0) as [Hfresh|Hvis]; [|by apply IH].
    assert (Hpre : call_pre G st v).
    { split; [done| |done|].
      - apply Hvs. apply elem_of_cons. by left.
      - rewrite Hd, !take_0. constructor. }
    destruct (recursiveDFS_correct G Hwf fuel st v Hpre Hu)
      as (st1 & Hrun & Hinv1 & Hfr & _).
    rewrite Hrun. intros Hloop HP.
    apply (IH st1); try done.
    + by rewrite (fr_depth _ _ _ Hfr).
    + pose proof (fr_unvisited _ _ _ Hfr). lia.
    + by apply (Hcall st v).
Qed.

Lemma dfs_init_unvisited : (unvisited (dfs_init (vertexAmount G)) <= vertexAmount G)%nat.
Proof.
  unfold unvisited. simpl.
  etransitivity; [apply length_filter|]. by rewrite length_replicate.
Qed.

Lemma seqZ_in_range v : v ∈ seqZ 0 (Z.of_nat (vertexAmount G)) → in_range G v.
Proof. intros Hv%elem_of_seqZ. unfold in_range. lia. Qed.

(** A property of the state that the four kinds of step keep is kept by
    every call, by the loop over the vertices and by the whole search. *)
Section Preserved.

Variable P : dfs_state → Prop.
Hypothesis P_enter : ∀ st v, call_pre G st v → P st → P (enter st v).
Hypothesis P_set_value : ∀ st c, P st → P (set_value st c).
Hypothesis P_report : ∀ st v w c,
  dfs_inv G st → (1 <= depth st)%nat → path st !! pred (depth st) = Some v →
  in_range G w → get (recStack st) w ≠ 0 → P st → P (report st w c).
Hypothesis P_leave : ∀ st v, loop_inv G v st → P st → P (leave st v).

Lemma edge_loop_preserves rec bound v :
  call_spec G rec bound →
  (∀ st w st', call_pre G st w → (unvisited st <= bound)%nat →
               rec st w = Some st' → P st → P st') →
  ∀ es done st st',
    adj G v = done ++ es → loop_inv G v st → (unvisited st <= bound)%nat →
    edge_loop rec es st = Some st' → P st → P st' ∧ loop_inv G v st'.
Proof.
  intros Hrec HrecP. induction es as [|e es IH]; intros done st st' Hadj Hli Hu.
  - simpl. by intros [= <-].
  - assert (He : e ∈ adj G v).
    { rewrite Hadj. apply elem_of_app. right. apply elem_of_cons. by left. }
    destruct (edge_step rec bound v e st Hrec Hli He Hu)
      as (st2 & Hstep & Hli2 & Hfr & Hw & Hcase).
    rewrite Hstep. intros Hloop HP.
    apply (IH (done ++ [e]) st2 st'); [by rewrite <- app_assoc|done| |done|].
    { pose proof (fr_unvisited _ _ _ Hfr). lia. }
    destruct Hcase as [(Hfresh & Hpre & Hcall & _)|[(Hvis & Hon & -> & Hinv1 & Htop & Hd)|(_ & _ & ->)]].
    + apply (HrecP _ _ _ Hpre); [|done|by apply P_set_value].
      change (unvisited st <= bound)%nat. done.
    + apply (P_report _ v); try done. by apply P_set_value.
    + by apply P_set_value.
Qed.

Lemma recursiveDFS_preserves f :
  ∀ st v st', call_pre G st v → (unvisited st <= f)%nat →
              recursiveDFS f G st v = Some st' → P st → P st'.
Proof.
  induction f as [|f IH]; intros st v st' Hpre Hu; [done|].
  cbn [recursiveDFS].
  destruct (edge_loop (recursiveDFS f G) (adj G v) (enter st v)) as [st2|] eqn:E;
    [|done].
  intros [= <-] HP.
  destruct (enter_frame G st v Hpre) as (_ & _ & _ & _ & _ & _ & _ & Hcount & _).
  destruct (edge_loop_preserves (recursiveDFS f G) f v (recursiveDFS_correct G Hwf f) IH
              (adj G v) [] (enter st v) st2) as [HP2 Hli2]; try done.
  - by apply enter_loop_inv.
  - lia.
  - by apply P_enter.
  - by apply P_leave.
Qed.

Lemma root_loop_preserves fuel vs st st' :
  dfs_inv G st → depth st = O → (∀ v, v ∈ vs → in_range G v) →
  (unvisited st <= fuel)%nat →
  root_loop fuel G vs st = Some st' → P st → P st'.
Proof. apply (root_loop_lift P fuel), recursiveDFS_preserves. Qed.

Lemma depthFirstSearch_preserves st :
  P (dfs_init (vertexAmount G)) → depthFirstSearch G = Some st → P st.
Proof.
  intros Hinit Hrun. unfold depthFirstSearch in Hrun.
  apply (root_loop_preserves _ _ _ _ (dfs_init_inv G)) in Hrun; try done.
  - apply seqZ_in_range.
  - apply dfs_init_unvisited.
Qed.

End Preserved.

End Steps.


(** The vertices that [report] writes: the path from the position of [w]
    to the top, then [w] again. *)
Lemma report_vertices G st v w c :
  dfs_inv G st → (1 <= depth st)%nat →
  path st !! pred (depth st) = Some v →
  in_range G w → get (recStack st) w ≠ 0 →
  ∃ i,
    (i < depth st)%nat ∧ path st !! i = Some w ∧
    out (report st w c)
    = out st ++ [Cycle (S (cycle_count st))
                   (drop i (take (depth st) (path st)) ++ [w])
                   (max_step (foldl max_step 0
                      (slice (valuesPath st) i (pred (depth st)))) c)].
Proof.
  intros Hinv Hd Htop Hw Hrs.
  assert (Hin : w ∈ take (depth st) (path st)) by by apply (inv_stack _ _ Hinv).
  destruct (find_start_nodup _ _ _ (inv_nodup _ _ Hinv) Hin) as (i & Hi & Hpi & Hfind).
  exists i. split; [done|]. split; [done|].
  unfold report. simpl. rewrite Hfind, Htop. simpl. do 3 f_equal.
  rewrite slice_drop_take by lia.
  assert (Htp : take (depth st) (path st)
                = take (pred (depth st)) (path st) ++ [v]).
  { replace (depth st) with (S (pred (depth st))) at 1 by lia.
    by apply take_S_r. }
  rewrite Htp, drop_app_le.
  2:{ rewrite length_take_le; [lia|]. rewrite (inv_len_path _ _ Hinv).
      pose proof (inv_depth _ _ Hinv). lia. }
  by rewrite <- app_assoc.
Qed.

Lemma search_numbered G st :
  wf_graph G → depthFirstSearch G = Some st → numbered st.
Proof.
  intros Hwf. apply (depthFirstSearch_preserves G Hwf numbered); try done.
  intros st0 v w c _ _ _ _ _ [Hcount Hnos]. unfold numbered, report. simpl.
  rewrite length_app, fmap_app, Hnos, Hcount. simpl.
  split; [lia|].
  replace (length (out st0) + 1)%nat with (S (length (out st0))) by lia.
  by rewrite seq_S.
Qed.

(** The blocks of the output file are numbered 1, 2, ... in the order in
    which they are written, and the count that [depthFirstSearch] hands
    back in [*total_cycles_found] is the number of blocks. *)
Theorem cycles_numbered (G : GraphDS) :
  wf_graph G →
  ∃ st, depthFirstSearch G = Some st ∧
        cycle_count st = length (out st) ∧
        cycle_no <$> out st = seq 1 (length (out st)).
Proof.
  intros Hwf. destruct (depthFirstSearch_total G Hwf) as (st & Hst & _).
  exists st. split; [done|]. by apply (search_numbered G).
Qed.

Lemma cycles_numbered_witness :
  ∃ st, depthFirstSearch (build 2 [(0, 1, 3); (1, 0, 4); (1, 1, 2)]) = Some st ∧
        cycle_count st = 2%nat ∧ cycle_no <$> out st = [1; 2]%nat.
Proof.
  destruct (cycles_numbered (build 2 [(0, 1, 3); (1, 0, 4); (1, 1, 2)]))
    as (st & Hst & Hcount & Hnos).
  { apply (GraphProofs.foldl_insert_wf (initGraph 2)), GraphProofs.initGraph_wf. }
  exists st. split; [exact Hst|].
  assert (Hlen : length (out st) = 2%nat).
  { vm_compute in Hst. injection Hst as <-. reflexivity. }
  rewrite Hlen in Hcount, Hnos. split; [exact Hcount|exact Hnos].
Defined.

(** Every cycle written is simple: distinct vertices of the graph, then
    the first of them once more. *)
Theorem cycles_simple (G : GraphDS) :
  wf_graph G →
  ∃ st, depthFirstSearch G = Some st ∧ ∀ r, r ∈ out st → simple_cycle G r.
Proof.
  intros Hwf. destruct (depthFirstSearch_total G Hwf) as (st & Hst & _).
  exists st. split; [done|].
  apply (depthFirstSearch_preserves G Hwf (λ st, ∀ r, r ∈ out st → simple_cycle G r));
    try done.
  - intros st0 v w c Hinv Hd Htop Hw Hrs HP r.
    destruct (report_vertices G st0 v w c Hinv Hd Htop Hw Hrs) as (i & Hi & Hpi & ->).
    intros [Hr| ->%list_elem_of_singleton]%elem_of_app; [by apply HP|].
    exists (drop i (take (depth st0) (path st0))), w. simpl.
    pose proof (take_drop i (take (depth st0) (path st0))) as Hsplit.
    pose proof (inv_nodup _ _ Hinv) as Hnd. rewrite <- Hsplit in Hnd.
    apply NoDup_app in Hnd as (_ & _ & Hnd).
    split; [done|]. split; [|split; [done|]].
    + rewrite head_lookup, lookup_drop, Nat.add_0_r, lookup_take_lt by lia. done.
    + intros u Hu. apply (inv_path _ _ Hinv). rewrite <- Hsplit.
      apply elem_of_app. by right.
  - simpl. by intros r ?%elem_of_nil.
Qed.

Lemma cycles_simple_witness :
  ∃ st, depthFirstSearch DFSExamples.triangle = Some st ∧
        ∀ r, r ∈ out st → simple_cycle DFSExamples.triangle r.
Proof.
  apply (cycles_simple DFSExamples.triangle).
  apply GraphProofs.foldl_insert_wf, GraphProofs.initGraph_wf.
Defined.

(** *** One cycle per edge at most *)

Lemma pending_insert (l : list Z) (k : list (list Transaction)) i es :
  l !! i = Some 0 → k !! i = Some es →
  (sum_list (zip_with (λ vis es, if (vis =? 0)%Z then length es else O) (<[i:=1%Z]> l) k)
   + length es
   = sum_list (zip_with (λ vis es, if (vis =? 0)%Z then length es else O) l k))%nat.
Proof.
  revert k i. induction l as [|x l IH]; intros k i; [done|].
  destruct k as [|y k]; [by destruct i|].
  destruct i as [|i]; simpl.
  - intros [= ->] [= ->]. simpl. lia.
  - intros Hl Hk. specialize (IH k i Hl Hk). lia.
Qed.

Lemma pending_enter G st v :
  length (visited st) = length (adjList G) → get (visited st) v = 0 →
  (pending_edges G (enter st v) + length (adj G v) = pending_edges G st)%nat.
Proof.
  intros Hlen Hv. unfold pending_edges, enter, set, adj, get in *. simpl.
  destruct (visited st !! Z.to_nat v) as [x|] eqn:E; simpl in Hv.
  - subst x.
    destruct (adjList G !! Z.to_nat v) as [es|] eqn:E'.
    + simpl. by apply pending_insert.
    + apply lookup_lt_Some in E. apply lookup_ge_None in E'. lia.
  - apply lookup_ge_None in E. rewrite list_insert_ge by done.
    rewrite (proj2 (lookup_ge_None _ _)) by lia. simpl. lia.
Qed.

Lemma pending_init (k : list (list Transaction)) :
  sum_list (zip_with (λ vis es, if vis =? 0 then length es else O)
                     (replicate (length k) 0) k)
  = sum_list (length <$> k).
Proof. induction k as [|y k IH]; simpl; [done|]. by rewrite IH. Qed.

Lemma edge_loop_bound G rec :
  (∀ st w st', length (visited st) = length (adjList G) →
     get (visited st) w = 0 → rec st w = Some st' →
     length (visited st') = length (adjList G) ∧
     (cycle_count st' + pending_edges G st' <= cycle_count st + pending_edges G st)%nat) →
  ∀ es st st', length (visited st) = length (adjList G) →
     edge_loop rec es st = Some st' →
     length (visited st') = length (adjList G) ∧
     (cycle_count st' + pending_edges G st'
      <= cycle_count st + pending_edges G st + length es)%nat.
Proof.
  intros Hrec. induction es as [|e es IH]; intros st st' Hlen.
  - simpl. intros [= <-]. split; [done|lia].
  - cbn [edge_loop].
    set (st1 := set_value st (transactionValue e)).
    change (visited st1) with (visited st). change (recStack st1) with (recStack st).
    destruct (Z.eqb_spec (get (visited st) (destination e)) 0) as [Hfresh|Hvis].
    + destruct (rec st1 (destination e)) as [st2|] eqn:E; [|done].
      destruct (Hrec st1 (destination e) st2 Hlen Hfresh E) as [Hlen2 Hle].
      intros H. destruct (IH st2 st' Hlen2 H) as [Hlen' Hle'].
      split; [done|]. simpl.
      change (cycle_count st1) with (cycle_count st) in Hle.
      change (pending_edges G st1) with (pending_edges G st) in Hle. lia.
    + destruct (negb (get (recStack st) (destination e) =? 0)).
      * intros H.
        destruct (IH (report st1 (destination e) (transactionValue e)) st' Hlen H)
          as [Hlen' Hle'].
        split; [done|].
        change (pending_edges G (report st1 (destination e) (transactionValue e)))
          with (pending_edges G st) in Hle'.
        change (cycle_count (report st1 (destination e) (transactionValue e)))
          with (S (cycle_count st)) in Hle'.
        simpl. lia.
      * intros H. destruct (IH st1 st' Hlen H) as [Hlen' Hle']. split; [done|].
        simpl.
        change (cycle_count st1) with (cycle_count st) in Hle'.
        change (pending_edges G st1) with (pending_edges G st) in Hle'. lia.
Qed.

Lemma recursiveDFS_bound G f :
  ∀ st v st', length (visited st) = length (adjList G) →
    get (visited st) v = 0 → recursiveDFS f G st v = Some st' →
    length (visited st') = length (adjList G) ∧
    (cycle_count st' + pending_edges G st' <= cycle_count st + pending_edges G st)%nat.
Proof.
  induction f as [|f IH]; intros st v st' Hlen Hv; [done|].
  cbn [recursiveDFS].
  destruct (edge_loop (recursiveDFS f G) (adj G v) (enter st v)) as [st2|] eqn:E;
    [|done].
  intros [= <-].
  destruct (edge_loop_bound G (recursiveDFS f G) IH (adj G v) (enter st v) st2)
    as [Hlen2 Hle]; [by simpl; rewrite length_set|done|].
  pose proof (pending_enter G st v Hlen Hv) as Hpend.
  split; [done|].
  change (cycle_count (leave st2 v)) with (cycle_count st2).
  change (pending_edges G (leave st2 v)) with (pending_edges G st2).
  change (cycle_count (enter st v)) with (cycle_count st) in Hle. lia.
Qed.

Lemma root_loop_bound G fuel vs :
  ∀ st st', length (visited st) = length (adjList G) →
    root_loop fuel G vs st = Some st' →
    (cycle_count st' + pending_edges G st' <= cycle_count st + pending_edges G st)%nat.
Proof.
  induction vs as [|v vs IH]; intros st st' Hlen.
  - simpl. intros [= <-]. lia.
  - cbn [root_loop].
    destruct (Z.eqb_spec (get (visited st) v) 0) as [Hfresh|Hvis]; [|by apply IH].
    destruct (recursiveDFS fuel G st v) as [st1|] eqn:E; [|done].
    destruct (recursiveDFS_bound G fuel st v st1 Hlen Hfresh E) as [Hlen1 Hle].
    intros H. specialize (IH st1 st' Hlen1 H). lia.
Qed.

(** The search writes at most as many cycles as the graph has edge
    records: every cycle comes from looking at one edge, and no edge is
    looked at twice. *)
Theorem cycles_bounded_by_edges (G : GraphDS) :
  wf_graph G →
  ∃ st, depthFirstSearch G = Some st ∧ (cycle_count st <= edge_total G)%nat.
Proof.
  intros Hwf. destruct (depthFirstSearch_total G Hwf) as (st & Hst & _).
  exists st. split; [done|].
  unfold depthFirstSearch in Hst.
  apply root_loop_bound in Hst.
  - unfold pending_edges, edge_total in *. simpl in Hst.
    destruct Hwf as [Hlen _]. rewrite <- Hlen, pending_init in Hst. lia.
  - simpl. rewrite length_replicate. by destruct Hwf.
Qed.

Lemma cycles_bounded_by_edges_witness :
  ∃ st, depthFirstSearch DFSExamples.triangle = Some st ∧
        (cycle_count st <= 3)%nat.
Proof.
  apply (cycles_bounded_by_edges DFSExamples.triangle).
  apply GraphProofs.foldl_insert_wf, GraphProofs.initGraph_wf.
Defined.

(** *** A cycle is written exactly when the graph has one *)

Lemma chain_tc G vs cs x y :
  chain G vs cs → cs ≠ [] → head vs = Some x → last vs = Some y →
  tc (edge G) x y.
Proof.
  intros Hch. revert x. induction Hch as [z|a b vs c cs Hab Hch IH]; intros x; [done|].
  intros _ [= ->] Hlast. change (last (b :: vs) = Some y) in Hlast.
  destruct cs as [|c' cs'].
  - inversion Hch; subst. injection Hlast as <-. apply tc_once. by exists c.
  - eapply tc_l; [by exists c|]. by apply IH.
Qed.

Lemma tc_first {A} (R : relation A) x z : tc R x z → ∃ y, R x y ∧ rtc R y z.
Proof.
  destruct 1 as [x z H|x y z H1 H2].
  - exists z. split; [done|apply rtc_refl].
  - exists y. split; [done|by apply tc_rtc].
Qed.

Lemma tc_final {A} (R : relation A) x z : tc R x z → ∃ y, R y z.
Proof. induction 1 as [x z H|x y z H1 H2 IH]; [by exists x|done]. Qed.

Lemma finished_frame G k st st' u :
  frame k st st' → finished G st u → finished G st' u.
Proof.
  intros Hfr (Hu & Hvis & Hoff). split; [done|].
  split; [by apply (fr_visited _ _ _ Hfr)|].
  by rewrite (fr_recStack _ _ _ Hfr).
Qed.

Lemma frame_out_nil k st st' : frame k st st' → out st' = [] → out st = [].
Proof.
  intros Hfr H. destruct (fr_out _ _ _ Hfr) as [new Hn].
  rewrite H in Hn. symmetry in Hn. by apply app_eq_nil in Hn as [? _].
Qed.

Lemma closed_reach G st :
  (∀ x y, finished G st x → edge G x y → finished G st y) →
  ∀ y z, rtc (edge G) y z → finished G st y → finished G st z.
Proof. intros Hcl y z Hr. induction Hr; eauto. Qed.

Lemma get_replicate_0 n u : get (replicate n 0) u = 0.
Proof.
  unfold get. destruct (replicate n 0 !! Z.to_nat u) as [x|] eqn:E; [|done].
  by apply lookup_replicate in E as [-> _].
Qed.

Section Acyclic.

Variable G : GraphDS.
Hypothesis Hwf : wf_graph G.

(** The vertex of a call that has returned is finished. *)
Lemma call_finished st st' w :
  call_pre G st w → dfs_inv G st' → frame (depth st) st st' →
  get (visited st') w ≠ 0 → finished G st' w.
Proof.
  intros [Hinv Hw Hfresh _] Hinv' Hfr Hvis.
  split; [done|]. split; [done|].
  destruct (decide (get (recStack st') w = 0)) as [|Hon]; [done|].
  exfalso. apply (inv_stack _ _ Hinv' w Hw) in Hon.
  rewrite (fr_depth _ _ _ Hfr), (fr_path _ _ _ Hfr) in Hon.
  by apply (inv_path _ _ Hinv) in Hon as (_ & Hv & _).
Qed.

Lemma loop_inv_top st v :
  loop_inv G v st →
  in_range G v ∧ get (visited st) v ≠ 0 ∧ get (recStack st) v ≠ 0.
Proof.
  intros [Hinv Htop Hd _]. apply (inv_path _ _ Hinv).
  apply list_elem_of_lookup. exists (pred (depth st)).
  by rewrite lookup_take_lt by lia.
Qed.

Lemma finished_enter st v u :
  call_pre G st v → finished G (enter st v) u ↔ finished G st u.
Proof.
  intros [Hinv Hv Hfresh _].
  destruct (in_range_index G st v Hinv Hv) as [Hlv Hlr].
  unfold finished. simpl.
  destruct (decide (u = v)) as [->|Hne].
  - rewrite (get_set_eq (recStack st)) by done. rewrite Hfresh.
    split; intros (_ & ? & ?); done.
  - split; intros (Hu & H1 & H2);
      pose proof (in_range_ne G v u Hv Hu (not_eq_sym Hne)) as Hn.
    + rewrite get_set_ne in H1, H2 by done. done.
    + rewrite !get_set_ne by done. done.
Qed.

Lemma finished_leave st v u :
  loop_inv G v st → finished G (leave st v) u ↔ finished G st u ∨ u = v.
Proof.
  intros Hli. destruct (loop_inv_top st v Hli) as (Hv & Hvis & Hon).
  destruct (in_range_index G st v (li_inv _ _ _ Hli) Hv) as [Hlv Hlr].
  unfold finished. simpl.
  destruct (decide (u = v)) as [->|Hne].
  - rewrite get_set_eq by done. split; [by right|done].
  - split.
    + intros (Hu & H1 & H2). left.
      rewrite get_set_ne in H2 by by apply (in_range_ne G). done.
    + intros [(Hu & H1 & H2)|]; [|done].
      rewrite get_set_ne by by apply (in_range_ne G). done.
Qed.

(** The return of the call for [v], all of whose edges lead to finished
    vertices. *)
Lemma leave_no_cycle st v :
  loop_inv G v st → no_cycle_so_far G st →
  (out st = [] → ∀ e, e ∈ adj G v → finished G st (destination e)) →
  no_cycle_so_far G (leave st v).
Proof.
  intros Hli Hnc Hsucc Hout. change (out st = []) in Hout.
  destruct (Hnc Hout) as [Hcl Hac]. specialize (Hsucc Hout).
  destruct (loop_inv_top st v Hli) as (Hv & Hvis & Hon).
  assert (Hvsucc : ∀ y, edge G v y → finished G st y).
  { intros y [c Hc]. apply (Hsucc (Tx y c) Hc). }
  split.
  - intros x y Hx Hxy. apply (finished_leave st v y Hli). left.
    destruct (proj1 (finished_leave st v x Hli) Hx) as [Hx'| ->].
    + by apply (Hcl x y).
    + by apply Hvsucc.
  - intros x Hx Hcyc.
    destruct (proj1 (finished_leave st v x Hli) Hx) as [Hx'| ->].
    + by apply (Hac x).
    + apply tc_first in Hcyc as (y & Hvy & Hyv).
      assert (Hf : finished G st v).
      { apply (closed_reach G st Hcl y v Hyv). by apply Hvsucc. }
      by destruct Hf as (_ & _ & Hoff).
Qed.

Lemma edge_loop_no_cycle rec bound v :
  call_spec G rec bound →
  (∀ st w st', call_pre G st w → (unvisited st <= bound)%nat →
               rec st w = Some st' →
               no_cycle_so_far G st → no_cycle_so_far G st') →
  ∀ es done st st',
    adj G v = done ++ es → loop_inv G v st → (unvisited st <= bound)%nat →
    edge_loop rec es st = Some st' → no_cycle_so_far G st →
    (out st = [] → ∀ e, e ∈ done → finished G st (destination e)) →
    no_cycle_so_far G st' ∧ loop_inv G v st' ∧
    (out st' = [] → ∀ e, e ∈ adj G v → finished G st' (destination e)).
Proof.
  intros Hrec HrecP. induction es as [|e es IH]; intros done st st' Hadj Hli Hu.
  - simpl. intros [= <-] Hnc Hdone. rewrite app_nil_r in Hadj. by rewrite Hadj.
  - assert (He : e ∈ adj G v).
    { rewrite Hadj. apply elem_of_app. right. apply elem_of_cons. by left. }
    destruct (edge_step G Hwf rec bound v e st Hrec Hli He Hu)
      as (st2 & Hstep & Hli2 & Hfr & Hw & Hcase).
    rewrite Hstep. intros Hloop Hnc Hdone.
    apply (IH (done ++ [e]) st2 st'); [by rewrite <- app_assoc|done| |done| |].
    { pose proof (fr_unvisited _ _ _ Hfr). lia. }
    { destruct Hcase as [(Hfresh & Hpre & Hcall & _)|[(Hvis & Hon & -> & _)|(_ & _ & ->)]].
      - apply (HrecP _ _ _ Hpre); [|done|exact Hnc].
        change (unvisited st <= bound)%nat. done.
      - intros Hout. simpl in Hout. by apply app_eq_nil in Hout as [_ ?].
      - exact Hnc. }
    intros Hout2 e' [He'| ->%list_elem_of_singleton]%elem_of_app.
    + apply (finished_frame G _ st st2 _ Hfr). apply Hdone; [|done].
      by apply (frame_out_nil _ st st2 Hfr).
    + destruct Hcase as [(Hfresh & Hpre & Hcall & Hfr2 & Hvis2)|[(Hvis & Hon & -> & _)|(Hvis & Hoff & ->)]].
      * apply (call_finished (set_value st (transactionValue e))); try done.
        apply Hli2.
      * simpl in Hout2. by apply app_eq_nil in Hout2 as [_ ?].
      * done.
Qed.

Lemma recursiveDFS_no_cycle f :
  ∀ st v st', call_pre G st v → (unvisited st <= f)%nat →
              recursiveDFS f G st v = Some st' →
              no_cycle_so_far G st → no_cycle_so_far G st'.
Proof.
  induction f as [|f IH]; intros st v st' Hpre Hu; [done|].
  cbn [recursiveDFS].
  destruct (edge_loop (recursiveDFS f G) (adj G v) (enter st v)) as [st2|] eqn:E;
    [|done].
  intros [= <-] Hnc.
  destruct (enter_frame G st v Hpre) as (_ & _ & _ & _ & _ & Hout & _ & Hcount & _).
  assert (Hnc1 : no_cycle_so_far G (enter st v)).
  { intros Hout'. rewrite Hout in Hout'. destruct (Hnc Hout') as [Hcl Hac]. split.
    - intros x y Hx Hxy. apply (finished_enter st v y Hpre).
      apply (finished_enter st v x Hpre) in Hx. by apply (Hcl x y).
    - intros x Hx. apply (finished_enter st v x Hpre) in Hx. by apply Hac. }
  destruct (edge_loop_no_cycle (recursiveDFS f G) f v (recursiveDFS_correct G Hwf f) IH
              (adj G v) [] (enter st v) st2 eq_refl (enter_loop_inv G st v Hpre))
    as (Hnc2 & Hli2 & Hsucc); [lia|done|done| |].
  - by intros _ e ?%elem_of_nil.
  - by apply (leave_no_cycle st2 v).
Qed.

Lemma depthFirstSearch_no_cycle st :
  depthFirstSearch G = Some st → no_cycle_so_far G st.
Proof.
  intros Hrun. unfold depthFirstSearch in Hrun.
  apply (root_loop_lift G Hwf (no_cycle_so_far G) _ (recursiveDFS_no_cycle _)
           _ _ _ (dfs_init_inv G)) in Hrun; try done.
  - apply seqZ_in_range.
  - apply dfs_init_unvisited.
  - intros _. split.
    + intros x y (_ & Hvis & _). simpl in Hvis. by rewrite get_replicate_0 in Hvis.
    + intros x (_ & Hvis & _). simpl in Hvis. by rewrite get_replicate_0 in Hvis.
Qed.

End Acyclic.

(** The search is exact about the existence of a cycle: the count it
    hands back is 0, and nothing is written, exactly when no vertex of the
    graph reaches itself along one or more edges. *)
Theorem cycle_found_iff (G : GraphDS) :
  wf_graph G →
  ∃ st, depthFirstSearch G = Some st ∧
        (cycle_count st = O ↔ out st = []) ∧
        (out st = [] ↔ ∀ x, ¬ tc (edge G) x x).
Proof.
  intros Hwf. destruct (depthFirstSearch_total G Hwf) as (st & Hst & Hinv & Hd & Hall).
  exists st. split; [done|].
  destruct (search_numbered G st Hwf Hst) as [Hcount _].
  split.
  { rewrite Hcount. split; [apply nil_length_inv|by intros ->]. }
  split.
  - intros Hout x Hcyc.
    destruct (depthFirstSearch_no_cycle G Hwf st Hst Hout) as [_ Hac].
    apply (Hac x); [|done].
    assert (Hx : in_range G x).
    { destruct (tc_final _ _ _ Hcyc) as (y & c & Hc).
      apply (adj_in_range G Hwf y (Tx x c) Hc). }
    split; [done|]. split; [by apply Hall|].
    destruct (decide (get (recStack st) x = 0)) as [|Hon]; [done|].
    apply (inv_stack _ _ Hinv x Hx) in Hon. rewrite Hd, take_0 in Hon.
    by apply elem_of_nil in Hon.
  - intros Hac. destruct (out st) as [|r l] eqn:E; [done|]. exfalso.
    destruct (inv_out _ _ Hinv r) as (cs & Hch & Hcs & Hends & _).
    { rewrite E. apply elem_of_cons. by left. }
    destruct (cycle_vertices r) as [|x vs] eqn:Ev; [by inversion Hch|].
    apply (Hac x). by apply (chain_tc G (x :: vs) cs).
Qed.

Lemma cycle_found_iff_witness :
  ∃ st, depthFirstSearch DFSExamples.triangle = Some st ∧
        (cycle_count st = O ↔ out st = []) ∧
        (out st = [] ↔ ∀ x, ¬ tc (edge DFSExamples.triangle) x x).
Proof.
  apply (cycle_found_iff DFSExamples.triangle).
  apply GraphProofs.foldl_insert_wf, GraphProofs.initGraph_wf.
Defined.
End DFSMore.

(** * The flow written for a cycle *)

Module FlowProofs.
Import Graph DFS DFSFacts SearchFacts GraphFacts FlowFacts DFSProofs DFSMore.

(** *** The edges that the search follows *)

Lemma first_value_first done e rest :
  (∀ e', e' ∈ done → destination e' ≠ destination e) →
  first_value (done ++ e :: rest) (destination e) = Some (transactionValue e).
Proof.
  induction done as [|x done IH]; intros H; simpl.
  - by rewrite Z.eqb_refl.
  - destruct (Z.eqb_spec (destination x) (destination e)) as [E|_].
    + exfalso. apply (H x); [apply elem_of_cons; by left|done].
    + apply IH. intros e' He'. apply H. apply elem_of_cons. by right.
Qed.

Lemma tree_values_cons G x y vs :
  tree_values G (x :: y :: vs)
  = default 0 (first_value (adj G x) y) :: tree_values G (y :: vs).
Proof. reflexivity. Qed.

Lemma tree_values_snoc G vs u w :
  last vs = Some u →
  tree_values G (vs ++ [w])
  = tree_values G vs ++ [default 0 (first_value (adj G u) w)].
Proof.
  induction vs as [|x vs IH]; [done|].
  destruct vs as [|y vs].
  - simpl. by intros [= ->].
  - intros Hlast. rewrite last_cons_cons in Hlast.
    change ((x :: y :: vs) ++ [w]) with (x :: y :: (vs ++ [w])).
    rewrite !tree_values_cons.
    change (y :: (vs ++ [w])) with ((y :: vs) ++ [w]).
    by rewrite IH.
Qed.

Lemma tree_values_drop G vs i :
  tree_values G (drop i vs) = drop i (tree_values G vs).
Proof.
  revert vs. induction i as [|i IH]; intros vs; [by rewrite !drop_0|].
  destruct vs as [|x vs]; [done|].
  destruct vs as [|y vs].
  - simpl. by rewrite drop_nil.
  - rewrite tree_values_cons. cbn [drop]. apply IH.
Qed.

Lemma length_tree_values G vs : length (tree_values G vs) = pred (length vs).
Proof.
  induction vs as [|x vs IH]; [done|].
  destruct vs as [|y vs]; [done|].
  rewrite tree_values_cons. cbn [length] in *. by rewrite IH.
Qed.

Lemma maker_snoc r vs w : cycle_vertices r = vs ++ [w] → maker r = last vs.
Proof.
  intros H. unfold maker. rewrite H, reverse_snoc, <- head_reverse.
  by destruct (reverse vs).
Qed.

Lemma filter_none {A} (P : A → Prop) `{∀ x, Decision (P x)} (l : list A) :
  (∀ x, x ∈ l → ¬ P x) → filter P l = [].
Proof.
  induction l as [|x l IH]; intros Hn; [done|].
  rewrite filter_cons_False by (apply Hn, elem_of_cons; by left).
  apply IH. intros y Hy. apply Hn, elem_of_cons. by right.
Qed.

(** *** The path and its segments *)

Lemma segment_head st i w :
  (i < depth st)%nat → path st !! i = Some w → head (segment st i) = Some w.
Proof.
  intros Hi Hw. unfold segment.
  by rewrite head_lookup, lookup_drop, Nat.add_0_r, lookup_take_lt by lia.
Qed.

Lemma segment_last G st v i :
  loop_inv G v st → (i < depth st)%nat → last (segment st i) = Some v.
Proof.
  intros [Hinv Htop Hd _] Hi. unfold segment.
  assert (Hlen : length (take (depth st) (path st)) = depth st).
  { apply length_take_le. rewrite (inv_len_path _ _ Hinv). apply (inv_depth _ _ Hinv). }
  rewrite last_lookup, length_drop, lookup_drop, Hlen.
  replace (i + pred (depth st - i))%nat with (pred (depth st)) by lia.
  by rewrite lookup_take_lt by lia.
Qed.

(** Two states with the same path below the same depth have the same
    segments. *)
Lemma segment_same st st' i :
  depth st' = depth st →
  take (depth st) (path st') = take (depth st) (path st) →
  segment st' i = segment st i.
Proof. intros Hd Hp. unfold segment. by rewrite Hd, Hp. Qed.

Lemma path_same st st' i :
  take (depth st) (path st') = take (depth st) (path st) →
  (i < depth st)%nat → path st' !! i = path st !! i.
Proof.
  intros Hp Hi.
  rewrite <- (lookup_take_lt (path st') (depth st)) by done.
  rewrite Hp. by rewrite lookup_take_lt.
Qed.

(** The vertices on the path are on it once, and on the stack. *)
Lemma on_path G st v i w :
  loop_inv G v st → (i < depth st)%nat → path st !! i = Some w →
  in_range G w ∧ get (visited st) w ≠ 0 ∧ get (recStack st) w ≠ 0.
Proof.
  intros Hli Hi Hw. apply (inv_path _ _ (li_inv _ _ _ Hli)).
  apply list_elem_of_lookup. exists i. by rewrite lookup_take_lt.
Qed.

Lemma path_once G st v i j w :
  loop_inv G v st → (i < depth st)%nat → (j < depth st)%nat →
  path st !! i = Some w → path st !! j = Some w → i = j.
Proof.
  intros Hli Hi Hj Hwi Hwj.
  apply (NoDup_lookup _ _ _ w (inv_nodup _ _ (li_inv _ _ _ Hli)));
    by rewrite lookup_take_lt.
Qed.

Lemma segment_chain G st v i :
  loop_inv G v st → tree_inv G st → (i < depth st)%nat →
  chain G (segment st i) (tree_values G (segment st i)).
Proof.
  intros Hli Htree Hi. pose proof (li_chain _ _ _ Hli) as Hch.
  rewrite Htree in Hch. unfold segment. rewrite tree_values_drop.
  apply chain_drop; [done|].
  rewrite length_tree_values, length_take_le; [lia|].
  rewrite (inv_len_path _ _ (li_inv _ _ _ Hli)).
  apply (inv_depth _ _ (li_inv _ _ _ Hli)).
Qed.

(** *** The steps of the search *)

Section Flows.

Variable G : GraphDS.
Hypothesis Hwf : wf_graph G.

(** The record that [report] writes for the edge to [w] of value [c]. *)
Lemma report_record st v w c :
  dfs_inv G (set_value st c) → (1 <= depth st)%nat →
  path st !! pred (depth st) = Some v →
  tree_inv G st → in_range G w → get (recStack st) w ≠ 0 →
  ∃ i n, (i < depth st)%nat ∧ path st !! i = Some w ∧
    out (report (set_value st c) w c)
    = out st ++ [Cycle n (segment st i ++ [w]) (walk_flow G (segment st i) c)].
Proof.
  intros Hinv Hd Htop Htree Hw Hon.
  destruct (report_vertices G (set_value st c) v w c Hinv Hd Htop Hw Hon)
    as (i & Hi & Hpi & Hout).
  change (i < depth st)%nat in Hi. change (path st !! i = Some w) in Hpi.
  exists i, (S (cycle_count st)). split; [done|]. split; [done|].
  rewrite Hout. cbn [set_value out depth path valuesPath cycle_count].
  do 3 f_equal. unfold walk_flow, segment.
  rewrite <- foldl_max_step_snoc. do 2 f_equal.
  rewrite slice_drop_take by lia. rewrite take_insert_ge by lia.
  unfold tree_inv in Htree. by rewrite Htree, tree_values_drop.
Qed.

Lemma loop_records_same v done st st' :
  depth st' = depth st →
  take (depth st) (path st') = take (depth st) (path st) →
  out st' = out st →
  loop_records G v done st → loop_records G v done st'.
Proof.
  intros Hd Hp Ho [N L]. unfold loop_records. rewrite Ho, Hd. split.
  - intros r Hr Hm. destruct (N r Hr Hm) as (i & w & Hi & Hw & HV).
    exists i, w. split; [done|].
    by rewrite (path_same st st' i Hp Hi), (segment_same st st' i Hd Hp).
  - intros i w Hi Hw. rewrite (path_same st st' i Hp Hi) in Hw.
    rewrite (segment_same st st' i Hd Hp). by apply L.
Qed.

(** An edge that does not lead to the path adds nothing to answer. *)
Lemma loop_records_off v done e st :
  (∀ i, (i < depth st)%nat → path st !! i ≠ Some (destination e)) →
  loop_records G v done st → loop_records G v (done ++ [e]) st.
Proof.
  intros Hoff [N L]. split; [done|]. intros i w Hi Hw.
  rewrite filter_app, filter_cons_False, filter_nil, app_nil_r; [by apply L|].
  intros E. apply (Hoff i Hi). by rewrite E.
Qed.

(** Records from other loops do not count. *)
Lemma loop_records_more v done st new st' :
  loop_inv G v st → depth st' = depth st →
  take (depth st) (path st') = take (depth st) (path st) →
  out st' = out st ++ new → (∀ r, r ∈ new → maker r ≠ Some v) →
  loop_records G v done st → loop_records G v done st'.
Proof.
  intros Hli Hd Hp Ho Hnew [N L]. unfold loop_records. rewrite Ho, Hd. split.
  - intros r [Hr|Hr]%elem_of_app Hm; [|by apply Hnew in Hr].
    destruct (N r Hr Hm) as (i & w & Hi & Hw & HV). exists i, w. split; [done|].
    by rewrite (path_same st st' i Hp Hi), (segment_same st st' i Hd Hp).
  - intros i w Hi Hw. rewrite (path_same st st' i Hp Hi) in Hw.
    rewrite (segment_same st st' i Hd Hp).
    rewrite filter_app, (filter_none _ new), app_nil_r; [by apply L|].
    intros r Hr HV. apply (Hnew r Hr).
    rewrite (maker_snoc r _ w HV). by apply (segment_last G st v).
Qed.

(** The record written for the edge [e] answers [e]. *)
Lemma loop_records_report v done e st i n st' :
  loop_inv G v st → (i < depth st)%nat →
  path st !! i = Some (destination e) →
  depth st' = depth st → path st' = path st →
  out st' = out st ++ [Cycle n (segment st i ++ [destination e])
                         (walk_flow G (segment st i) (transactionValue e))] →
  loop_records G v done st → loop_records G v (done ++ [e]) st'.
Proof.
  intros Hli Hi Hwi Hd Hp Ho [N L].
  unfold loop_records, segment. rewrite Ho, Hd, Hp.
  fold (segment st i). split.
  - intros r [Hr|Hr%list_elem_of_singleton]%elem_of_app Hm; [by apply N|].
    exists i, (destination e). by rewrite Hr.
  - intros j w Hj Hwj. fold (segment st j). rewrite !filter_app, !fmap_app.
    rewrite (L j w Hj Hwj). f_equal.
    destruct (decide (destination e = w)) as [<-|Hne].
    + assert (j = i) as -> by by apply (path_once G st v j i (destination e)).
      rewrite filter_cons_True, filter_nil by done.
      by rewrite filter_cons_True, filter_nil.
    + rewrite filter_cons_False, filter_nil; [|simpl].
      * by rewrite filter_cons_False, filter_nil.
      * intros [_ E]%app_inj_tail. done.
Qed.

Lemma same_vertices_maker r r' :
  cycle_vertices r = cycle_vertices r' → maker r = maker r'.
Proof. intros H. unfold maker. by rewrite H. Qed.

(** A record from the loop of a vertex on the stack leaves the records of
    the vertices whose call has returned as they are. *)
Lemma records_inv_report v r st st' :
  visited st' = visited st → recStack st' = recStack st →
  out st' = out st ++ [r] → maker r = Some v →
  in_range G v → get (visited st) v ≠ 0 → get (recStack st) v ≠ 0 →
  records_inv G st → records_inv G st'.
Proof.
  intros Hv Hrs Ho Hm Hr Hvis Hon Hrec r'.
  rewrite Ho, Hv, Hrs.
  intros [Hr'| ->%list_elem_of_singleton]%elem_of_app.
  - destruct (Hrec r' Hr') as (u & Hmu & Hur & Huv & Hex).
    exists u. split; [done|]. split; [done|]. split; [done|].
    intros Hoff. destruct (Hex Hoff) as (vs & u' & w & HV & Hh & Hl & Hch & Hfl).
    exists vs, u', w. split; [done|]. split; [done|]. split; [done|].
    split; [done|].
    rewrite filter_app, filter_cons_False, filter_nil, app_nil_r; [done|].
    intros E. apply same_vertices_maker in E. rewrite Hm, Hmu in E.
    injection E as ->. done.
  - exists v. done.
Qed.

Lemma records_inv_same st st' :
  visited st' = visited st → recStack st' = recStack st → out st' = out st →
  records_inv G st → records_inv G st'.
Proof. intros Hv Hrs Ho H r. rewrite Ho, Hv, Hrs. apply H. Qed.

Lemma tree_inv_frame v st st' :
  loop_inv G v st → frame (pred (depth st)) st st' →
  tree_inv G st → tree_inv G st'.
Proof.
  intros Hli [Hd Hp Hv _ _ _ _ _] Htree. unfold tree_inv in *.
  by rewrite Hd, Hp, Hv.
Qed.

Lemma adds_from_trans (F F' : Z → Prop) st st2 st' :
  adds_from F st st2 → adds_from F' st2 st' → (∀ u, F' u → F u) →
  adds_from F st st'.
Proof.
  intros (n1 & Ho1 & H1) (n2 & Ho2 & H2) Himp.
  exists (n1 ++ n2). split; [by rewrite Ho2, Ho1, app_assoc|].
  intros r [Hr|Hr]%elem_of_app; [by apply H1|].
  destruct (H2 r Hr) as (u & Hm & Hu). exists u. split; [done|by apply Himp].
Qed.

Lemma top_of_path v st :
  loop_inv G v st → last (take (depth st) (path st)) = Some v.
Proof.
  intros [Hinv Htop Hd _].
  rewrite last_lookup, length_take_le, lookup_take_lt; [done|lia|].
  rewrite (inv_len_path _ _ Hinv). apply (inv_depth _ _ Hinv).
Qed.

(** The state in which the call for the destination of [e] is made. *)
Lemma tree_pre_call v done e es st :
  adj G v = done ++ e :: es → loop_inv G v st → tree_inv G st →
  done_visited st done → get (visited st) (destination e) = 0 →
  tree_pre G (set_value st (transactionValue e)) (destination e).
Proof.
  intros Hadj Hli Htree Hdone Hfresh.
  pose proof (li_inv _ _ _ Hli) as Hinv. pose proof (li_depth _ _ _ Hli) as Hd.
  unfold tree_pre. cbn [set_value depth path valuesPath].
  rewrite (tree_values_snoc G _ v) by by apply top_of_path.
  rewrite Hadj, first_value_first.
  2:{ intros e' He' E. apply (Hdone e' He'). by rewrite E. }
  unfold tree_inv in Htree. rewrite <- Htree. simpl.
  replace (depth st) with (S (pred (depth st))) at 1 by lia.
  apply take_S_insert. rewrite (inv_len_values _ _ Hinv).
  pose proof (inv_depth _ _ Hinv). lia.
Qed.

(** The edge loop of the call for [v], from any of its states on. *)
Lemma edge_loop_flows rec bound v :
  call_spec G rec bound → flow_spec G rec bound →
  ∀ es done st st',
    adj G v = done ++ es → loop_inv G v st → (unvisited st <= bound)%nat →
    loop_flows G v done st → edge_loop rec es st = Some st' →
    loop_inv G v st' ∧ loop_flows G v (adj G v) st' ∧
    adds_from (λ u, u = v ∨ get (visited st) u = 0) st st'.
Proof.
  intros Hrec Hflow. induction es as [|e es IH]; intros done st st' Hadj Hli Hu Hfl.
  - simpl. intros [= <-]. rewrite app_nil_r in Hadj. rewrite Hadj.
    split; [done|]. split; [done|]. exists []. split; [by rewrite app_nil_r|].
    by intros r ?%elem_of_nil.
  - assert (He : e ∈ adj G v).
    { rewrite Hadj. apply elem_of_app. right. apply elem_of_cons. by left. }
    destruct (edge_step G Hwf rec bound v e st Hrec Hli He Hu)
      as (st2 & Hstep & Hli2 & Hfr & Hw & Hcase).
    rewrite Hstep. intros Hloop.
    destruct Hfl as (Htree & Hdone & Hrecs & Hlr).
    destruct (loop_inv_top G st v Hli) as (Hvr & Hvvis & Hvon).
    assert (Hstep2 : done_visited st2 (done ++ [e]) ∧ records_inv G st2 ∧
                     loop_records G v (done ++ [e]) st2 ∧
                     adds_from (λ u, u = v ∨ get (visited st) u = 0) st st2).
    { destruct Hcase as [(Hfresh & Hpre & Hcall & Hfr2 & Hvis2)|
                         [(Hvis & Hon & -> & Hinv1 & Htop & Hd)|(Hvis & Hoff & ->)]].
      - destruct (Hflow _ _ _ Hpre Hu
                    (tree_pre_call v done e es st Hadj Hli Htree Hdone Hfresh)
                    Hrecs Hcall) as [Hrecs2 (new & Hnew & Hmakers)].
        assert (Hother : ∀ r, r ∈ new → maker r ≠ Some v).
        { intros r Hr. destruct (Hmakers r Hr) as (u & -> & Hu0).
          intros [= ->]. done. }
        split; [|split; [done|split]].
        + intros e' [He'| ->%list_elem_of_singleton]%elem_of_app; [|done].
          apply (fr_visited _ _ _ Hfr). by apply Hdone.
        + apply (loop_records_more v _ st new st2 Hli (fr_depth _ _ _ Hfr)
                   (fr_path _ _ _ Hfr) Hnew Hother).
          apply loop_records_off; [|done].
          intros i Hi Hpi. destruct (on_path G st v i _ Hli Hi Hpi) as (_ & ? & _).
          done.
        + exists new. split; [done|]. intros r Hr.
          destruct (Hmakers r Hr) as (u & Hm & Hu0). exists u. split; [done|by right].
      - destruct (report_record st v (destination e) (transactionValue e)
                    Hinv1 Hd Htop Htree Hw Hon) as (i & n & Hi & Hpi & Hout).
        assert (Hm : maker (Cycle n (segment st i ++ [destination e])
                              (walk_flow G (segment st i) (transactionValue e)))
                     = Some v).
        { rewrite (maker_snoc _ (segment st i) (destination e)) by done.
          by apply (segment_last G st v). }
        split; [|split; [|split]].
        + intros e' [He'| ->%list_elem_of_singleton]%elem_of_app; [by apply Hdone|done].
        + by apply (records_inv_report v _ st
                      (report (set_value st (transactionValue e)) (destination e)
                              (transactionValue e))
                      eq_refl eq_refl Hout Hm).
        + by apply (loop_records_report v done e st i n).
        + eexists. split; [exact Hout|].
          intros r ->%list_elem_of_singleton. exists v. split; [done|by left].
      - split; [|split; [|split]].
        + intros e' [He'| ->%list_elem_of_singleton]%elem_of_app; [by apply Hdone|done].
        + by apply (records_inv_same st (set_value st (transactionValue e))).
        + apply (loop_records_same v _ st (set_value st (transactionValue e)));
            try done.
          apply loop_records_off; [|done].
          intros i Hi Hpi. destruct (on_path G st v i _ Hli Hi Hpi) as (_ & _ & ?).
          done.
        + exists []. split; [by rewrite app_nil_r|]. by intros r ?%elem_of_nil. }
    destruct Hstep2 as (Hdone2 & Hrecs2 & Hlr2 & Hadds2).
    destruct (IH (done ++ [e]) st2 st') as (Hli' & Hfl' & Hadds').
    + by rewrite <- app_assoc.
    + done.
    + pose proof (fr_unvisited _ _ _ Hfr). lia.
    + split; [by apply (tree_inv_frame v st)|]. done.
    + done.
    + split; [done|]. split; [done|].
      apply (adds_from_trans _ _ st st2 st' Hadds2 Hadds').
      intros u [->|Hu0]; [by left|]. right.
      destruct (decide (get (visited st) u = 0)) as [|Hn]; [done|].
      by apply (fr_visited _ _ _ Hfr) in Hn.
Qed.

(** The state after the first four statements of the call for [v]. *)
Lemma enter_flows st v :
  call_pre G st v → tree_pre G st v → records_inv G st →
  loop_flows G v [] (enter st v).
Proof.
  intros Hpre Htp Hrecs.
  destruct (enter_frame G st v Hpre) as (Hd & Hp & Hvp & Hvis & Hrs & Hout & _).
  pose proof (enter_loop_inv G st v Hpre) as Hli.
  pose proof (call_pre_depth G st v Hpre) as Hroom.
  pose proof Hpre as [Hinv Hv Hfresh _].
  assert (Hnone : ∀ r, r ∈ out st → maker r ≠ Some v).
  { intros r Hr Hm. destruct (Hrecs r Hr) as (u & Hmu & _ & Huv & _).
    rewrite Hm in Hmu. injection Hmu as <-. done. }
  split; [|split; [|split; [|split]]].
  - unfold tree_inv. cbn [enter depth path valuesPath Nat.pred].
    rewrite take_S_insert by by rewrite (inv_len_path _ _ Hinv). exact Htp.
  - by intros e ?%elem_of_nil.
  - intros r Hr. change (r ∈ out st) in Hr.
    destruct (Hrecs r Hr) as (u & Hmu & Hur & Huv & Hex).
    exists u. split; [done|]. split; [done|]. split; [by apply Hvis|].
    intros Hoff. apply Hex. by rewrite <- (Hrs u Huv).
  - intros r Hr Hm. by apply Hnone in Hr.
  - intros i w Hi Hw. rewrite filter_nil. simpl.
    rewrite (filter_none _ (out (enter st v))); [done|].
    intros r Hr HV. apply (Hnone r Hr).
    rewrite (maker_snoc r _ w HV). by apply (segment_last G (enter st v) v).
Qed.

(** The state after the last two statements of the call for [v]. *)
Lemma leave_flows st v :
  loop_inv G v st → loop_flows G v (adj G v) st → records_inv G (leave st v).
Proof.
  intros Hli (Htree & _ & Hrecs & N & L) r Hr. change (r ∈ out st) in Hr.
  destruct (loop_inv_top G st v Hli) as (Hvr & _ & _).
  destruct (Hrecs r Hr) as (u & Hmu & Hur & Huv & Hex).
  exists u. split; [done|]. split; [done|]. split; [done|].
  intros Hoff. destruct (decide (u = v)) as [->|Hne].
  - destruct (N r Hr Hmu) as (i & w & Hi & Hw & HV).
    exists (segment st i), v, w. split; [done|].
    split; [by apply segment_head|]. split; [by apply (segment_last G st v)|].
    split; [by apply (segment_chain G st v)|].
    rewrite HV. apply (L i w Hi Hw).
  - apply Hex. cbn [leave recStack] in Hoff.
    by rewrite get_set_ne in Hoff by by apply (in_range_ne G).
Qed.

Lemma recursiveDFS_flows f : flow_spec G (recursiveDFS f G) f.
Proof.
  induction f as [|f IH]; intros st v st' Hpre Hu Htp Hrecs; [done|].
  cbn [recursiveDFS].
  destruct (edge_loop (recursiveDFS f G) (adj G v) (enter st v)) as [st2|] eqn:E;
    [|done].
  intros [= <-].
  destruct (enter_frame G st v Hpre) as (_ & _ & _ & Hvis & _ & _ & _ & Hcount & _).
  pose proof Hpre as [_ _ Hfresh _].
  destruct (edge_loop_flows (recursiveDFS f G) f v (recursiveDFS_correct G Hwf f) IH
              (adj G v) [] (enter st v) st2 eq_refl (enter_loop_inv G st v Hpre))
    as (Hli2 & Hfl2 & new & Hnew & Hmakers); [lia|by apply enter_flows|done|].
  split; [by apply leave_flows|].
  exists new. split; [exact Hnew|]. intros r Hr.
  destruct (Hmakers r Hr) as (u & Hm & Hu0). exists u. split; [done|].
  destruct Hu0 as [->|Hu0]; [done|].
  destruct (decide (get (visited st) u = 0)) as [|Hn]; [done|].
  by apply Hvis in Hn.
Qed.

Lemma depthFirstSearch_flows st :
  depthFirstSearch G = Some st → records_inv G st.
Proof.
  intros Hrun. unfold depthFirstSearch in Hrun.
  apply (root_loop_lift G Hwf (λ st, depth st = O ∧ records_inv G st)
           (vertexAmount G)) in Hrun; try done.
  - by destruct Hrun.
  - intros st0 v st1 Hpre Hu Hcall [Hd Hrecs].
    destruct (recursiveDFS_correct G Hwf _ st0 v Hpre Hu) as (st1' & Hcall' & _ & Hfr & _).
    rewrite Hcall in Hcall'. injection Hcall' as <-.
    split; [by rewrite (fr_depth _ _ _ Hfr)|].
    apply (recursiveDFS_flows _ st0 v st1 Hpre Hu); [|done|done].
    unfold tree_pre. by rewrite Hd.
  - apply dfs_init_inv.
  - apply seqZ_in_range.
  - apply dfs_init_unvisited.
  - split; [done|]. by intros r ?%elem_of_nil.
Qed.

End Flows.


(** *** The largest of a list without negative values *)

Lemma largest_nonneg (l : list Z) :
  l ≠ [] → (∀ x, x ∈ l → 0 <= x) → largest l (foldl Z.max 0 l).
Proof.
  intros Hne Hnn. rewrite <- foldl_max_step_max.
  destruct (foldl_max_step_spec l 0) as (Hzero & Hall & Hin).
  split; [|done]. destruct Hin as [Hm|Hm]; [|done].
  destruct l as [|x l]; [done|].
  assert (Hx : x ∈ x :: l) by (apply elem_of_cons; by left).
  pose proof (Hall x Hx). pose proof (Hnn x Hx).
  replace (foldl max_step 0 (x :: l)) with x by lia. done.
Qed.

Lemma walk_flow_max G vs (l : list Z) :
  walk_flow G vs <$> l = (λ c, foldl Z.max 0 (tree_values G vs ++ [c])) <$> l.
Proof.
  apply list_fmap_ext. intros i c _. unfold walk_flow. apply foldl_max_step_max.
Qed.

Lemma closing_values_nonneg G u w c :
  nonneg_values G → c ∈ closing_values G u w → 0 <= c.
Proof.
  intros Hnn (e & -> & He)%list_elem_of_fmap.
  apply list_elem_of_filter in He as [_ He]. unfold adj in He.
  destruct (adjList G !! Z.to_nat u) as [es|] eqn:E; simpl in He.
  - apply (Hnn es e); [|done]. apply list_elem_of_lookup. eauto.
  - by apply elem_of_nil in He.
Qed.

(** *** The claim about the flow *)

(** C5, as stated, fails: [cycle_max_value] starts at 0, so on a cycle
    whose edges all carry negative values the flow written is 0, which is
    the value of no edge. The graph has one vertex and the edge 0 -> 0 of
    value -7. *)
Lemma max_flow_starts_at_zero :
  let G := (insertEdge (initGraph 1) 0 0 (-7)).1 in
  wf_graph G ∧ adj G 0 = [Tx 0 (-7)] ∧
  ∃ st r, depthFirstSearch G = Some st ∧ out st = [r] ∧
          cycle_vertices r = [0; 0] ∧ max_flow r = 0 ∧
          ∀ cs, chain G (cycle_vertices r) cs → max_flow r ∉ cs.
Proof.
  intros G.
  split; [apply GraphProofs.insertEdge_wf, GraphProofs.initGraph_wf|].
  split; [reflexivity|].
  eexists. exists (Cycle 1 [0; 0] 0).
  split; [vm_compute; reflexivity|]. split; [reflexivity|].
  split; [reflexivity|]. split; [reflexivity|].
  simpl. intros cs Hchain.
  inversion Hchain as [|x y vs c cs' He Hrest]; subst.
  inversion Hrest; subst.
  change (adj G 0) with [Tx 0 (-7)] in He.
  apply list_elem_of_singleton in He. injection He as ->.
  intros [H|H%elem_of_nil]%elem_of_cons; [discriminate|done].
Qed.

(** C5, amended. The search returns, and every record [r] it writes
    shows a walk [vs] from a vertex [w] to a vertex [u] along edges that
    the search follows (from each vertex, the first record of its list
    that leads to the next vertex), closed by an edge from [u] to [w].
    The records with the vertices of [r] are as many as the edges from [u]
    to [w], in the order of the list of [u], and the flow of each is the
    largest of 0, the values of the edges of the walk and the value of
    its closing edge. On a graph that [loadGraph] returns no value is
    negative, and the flow is the largest of these edge values. The
    3-cycle 0 -> 1 (5), 1 -> 2 (9), 2 -> 0 (2) is written once, with flow
    9; with the two edges 0 -> 1 of values 9 and 1 and the edge 1 -> 0 of
    value 2, the cycle written follows the newer edge and has flow 2. *)
Theorem cycle_max_flow :
  (∀ G, wf_graph G →
     ∃ st, depthFirstSearch G = Some st ∧
       ∀ r, r ∈ out st →
         ∃ vs u w,
           cycle_vertices r = vs ++ [w] ∧ head vs = Some w ∧ last vs = Some u ∧
           chain G vs (tree_values G vs) ∧
           max_flow <$> filter (λ r', cycle_vertices r' = cycle_vertices r) (out st)
           = (λ c, foldl Z.max 0 (tree_values G vs ++ [c]))
               <$> closing_values G u w) ∧
  (∀ limit file G stderr, Loader.loadGraph limit file = Loader.Loaded G stderr →
     ∃ st, depthFirstSearch G = Some st ∧
       ∀ r, r ∈ out st →
         ∃ vs u w,
           cycle_vertices r = vs ++ [w] ∧ head vs = Some w ∧ last vs = Some u ∧
           chain G vs (tree_values G vs) ∧
           Forall2 (λ flow c, largest (tree_values G vs ++ [c]) flow)
             (max_flow <$> filter (λ r', cycle_vertices r' = cycle_vertices r) (out st))
             (closing_values G u w)) ∧
  option_map out (depthFirstSearch DFSExamples.triangle)
    = Some [Cycle 1 [0; 1; 2; 0] 9] ∧
  option_map out (depthFirstSearch parallel) = Some [Cycle 1 [0; 1; 0] 2].
Proof.
  assert (Hgen : ∀ G, wf_graph G →
     ∃ st, depthFirstSearch G = Some st ∧
       ∀ r, r ∈ out st →
         ∃ vs u w,
           cycle_vertices r = vs ++ [w] ∧ head vs = Some w ∧ last vs = Some u ∧
           chain G vs (tree_values G vs) ∧
           max_flow <$> filter (λ r', cycle_vertices r' = cycle_vertices r) (out st)
           = (λ c, foldl Z.max 0 (tree_values G vs ++ [c]))
               <$> closing_values G u w).
  { intros G Hwf.
    destruct (depthFirstSearch_total G Hwf) as (st & Hst & Hinv & Hd & _).
    exists st. split; [done|]. intros r Hr.
    destruct (depthFirstSearch_flows G Hwf st Hst r Hr) as (u & _ & Hur & _ & Hex).
    destruct Hex as (vs & u' & w & HV & Hh & Hl & Hch & Hfl).
    { destruct (decide (get (recStack st) u = 0)) as [|Hon]; [done|].
      apply (inv_stack _ _ Hinv u Hur) in Hon. rewrite Hd, take_0 in Hon.
      by apply elem_of_nil in Hon. }
    exists vs, u', w. split; [done|]. split; [done|]. split; [done|].
    split; [done|]. by rewrite <- walk_flow_max. }
  split; [exact Hgen|]. split; [|split; reflexivity].
  intros limit file G stderr Hload.
  destruct (GraphProofs.loadGraph_loaded limit file G stderr Hload) as [Hwf Hnn].
  destruct (Hgen G Hwf) as (st & Hst & Hall).
  exists st. split; [done|]. intros r Hr.
  destruct (Hall r Hr) as (vs & u & w & HV & Hh & Hl & Hch & Hfl).
  exists vs, u, w. split; [done|]. split; [done|]. split; [done|].
  split; [done|]. rewrite Hfl.
  apply Forall2_fmap_l, Forall_Forall2_diag, Forall_forall.
  intros c Hc. simpl. apply largest_nonneg.
  - by destruct (tree_values G vs).
  - intros x [Hx| ->%list_elem_of_singleton]%elem_of_app.
    + by apply (chain_values_nonneg G _ _ Hnn Hch).
    + by apply (closing_values_nonneg G u w).
Qed.

Lemma cycle_max_flow_witness :
  (∃ st, depthFirstSearch parallel = Some st ∧
     ∀ r, r ∈ out st →
       ∃ vs u w,
         cycle_vertices r = vs ++ [w] ∧ head vs = Some w ∧ last vs = Some u ∧
         chain parallel vs (tree_values parallel vs) ∧
         max_flow <$> filter (λ r', cycle_vertices r' = cycle_vertices r) (out st)
         = (λ c, foldl Z.max 0 (tree_values parallel vs ++ [c]))
             <$> closing_values parallel u w) ∧
  tree_values parallel [0; 1] = [1] ∧ closing_values parallel 1 0 = [2] ∧
  (∃ st, depthFirstSearch (MkGraph 2 2 [[Tx 1 1]; [Tx 0 2]]) = Some st ∧
     ∀ r, r ∈ out st →
       ∃ vs u w,
         cycle_vertices r = vs ++ [w] ∧ head vs = Some w ∧ last vs = Some u ∧
         chain (MkGraph 2 2 [[Tx 1 1]; [Tx 0 2]]) vs
               (tree_values (MkGraph 2 2 [[Tx 1 1]; [Tx 0 2]]) vs) ∧
         Forall2 (λ flow c,
                    largest (tree_values (MkGraph 2 2 [[Tx 1 1]; [Tx 0 2]]) vs ++ [c])
                            flow)
           (max_flow <$> filter (λ r', cycle_vertices r' = cycle_vertices r) (out st))
           (closing_values (MkGraph 2 2 [[Tx 1 1]; [Tx 0 2]]) u w)).
Proof.
  destruct cycle_max_flow as (Hgen & Hload & _).
  split; [|split; [reflexivity|split; [reflexivity|]]].
  - apply (Hgen parallel).
    apply GraphProofs.foldl_insert_wf, GraphProofs.initGraph_wf.
  - apply (Hload 100 FileFacts.three_lines _ []). vm_compute. reflexivity.
Defined.
End FlowProofs.

(** * The whole program *)

Module MainProofs.
Import Graph Index Loader DFS DFSFacts SearchFacts GraphFacts WeiParser Main.

Lemma depthFirstSearch_file_runs w G filename :
  wf_graph G →
  ∃ st, depthFirstSearch G = Some st ∧
    (∀ r, r ∈ out st → good_cycle G r) ∧ cycle_count st = length (out st) ∧
    depthFirstSearch_file w G filename 0
    = Some (if (vertexAmount G =? 0)%nat || negb (writable w filename)
            then Ran None 0
            else Ran (Some (filename, out st)) (cycle_count st)).
Proof.
  intros Hwf.
  destruct (DFSProofs.depthFirstSearch_total G Hwf) as (st & Hst & Hinv & _).
  exists st. split; [done|]. split; [apply (inv_out _ _ Hinv)|].
  split; [apply (DFSMore.search_numbered G st Hwf Hst)|].
  unfold depthFirstSearch_file. rewrite Hst.
  destruct (vertexAmount G =? 0)%nat; [done|].
  by destruct (writable w filename).
Qed.

Lemma output_name w opts :
  parsed opts → ∃ outName, make_output_filename w opts = Some outName.
Proof.
  intros [Hout _]. unfold make_output_filename.
  destruct (user_specified_output opts); [by apply Hout|by eexists].
Qed.

(** [main] once the input file is open. *)
Lemma main_opened w opts input file outName :
  parsed opts → show_help opts = false → short_help opts = false →
  positionals opts !! 0%nat = Some input → readable w input = Some file →
  make_output_filename w opts = Some outName →
  main w opts =
    match loadGraph (pow_limit w) file with
    | Loaded graph _ => depthFirstSearch_file w graph outName 0
    | LoadAbort => Some Killed
    | LoadUndefined => None
    end.
Proof.
  intros [_ Hcount] Hh Hu Hpos Hread Hname.
  unfold main, openFile. rewrite Hh, Hu, Hname, Hpos, Hread.
  apply lookup_lt_Some in Hpos.
  by destruct (Z.ltb_spec (positional_count opts) 1) as [Hlt|_]; [lia|].
Qed.

(** Once the input file is open, [main] ends in one of two ways,
    whatever the file holds. Either GMP aborts the process while the
    graph is loaded, on one of the values that the second pass reads; or
    none of these values does, the loader returns a graph, the search
    returns, and [main] reaches its last [return 0]: the output file, if
    one is created, holds sound cycles only and as many as are counted,
    and no output file is created when the graph has no vertex or the
    name cannot be opened for writing. *)
Theorem main_runs (w : world) (opts : CLIOptions) (input file : string) :
  parsed opts →
  show_help opts = false → short_help opts = false →
  positionals opts !! 0%nat = Some input →
  readable w input = Some file →
  let N := (addAllVertexToHashmap file ∅).2 in
  ∃ outName, make_output_filename w opts = Some outName ∧
    ((main w opts = Some Killed ∧
      ∃ v, v ∈ values_read N file ∧
           parse_wei_optimized (pow_limit w) v = ParseAbort) ∨
     (∃ G stderr st,
        (∀ v, v ∈ values_read N file →
              parse_wei_optimized (pow_limit w) v ≠ ParseAbort) ∧
        loadGraph (pow_limit w) file = Loaded G stderr ∧
        depthFirstSearch G = Some st ∧
        (∀ r, r ∈ out st → good_cycle G r) ∧
        cycle_count st = length (out st) ∧
        main w opts
        = Some (if (vertexAmount G =? 0)%nat || negb (writable w outName)
                then Ran None 0
                else Ran (Some (outName, out st)) (cycle_count st)))).
Proof.
  intros Hp Hh Hu Hpos Hread N.
  destruct (output_name w opts Hp) as [outName Hname].
  exists outName. split; [done|].
  rewrite (main_opened w opts input file outName) by done.
  destruct (GraphProofs.loadGraph_total (pow_limit w) file)
    as [(G & stderr & Hload & Hwf & _ & Hall)|(Hload & Hv)].
  - right.
    destruct (depthFirstSearch_file_runs w G outName Hwf)
      as (st & Hst & Hgood & Hnum & Hrun).
    exists G, stderr, st. by rewrite Hload.
  - left. by rewrite Hload.
Qed.

Lemma main_runs_witness :
  ∃ outName, make_output_filename example_world example_options = Some outName ∧
    ((main example_world example_options = Some Killed ∧
      ∃ v, v ∈ values_read 2 FileFacts.three_lines ∧
           parse_wei_optimized 1000 v = ParseAbort) ∨
     (∃ G stderr st,
        (∀ v, v ∈ values_read 2 FileFacts.three_lines →
              parse_wei_optimized 1000 v ≠ ParseAbort) ∧
        loadGraph 1000 FileFacts.three_lines = Loaded G stderr ∧
        depthFirstSearch G = Some st ∧
        (∀ r, r ∈ out st → good_cycle G r) ∧
        cycle_count st = length (out st) ∧
        main example_world example_options
        = Some (if (vertexAmount G =? 0)%nat || negb (writable example_world outName)
                then Ran None 0
                else Ran (Some (outName, out st)) (cycle_count st)))).
Proof.
  apply (main_runs example_world example_options "tx.txt" FileFacts.three_lines).
  - split; [discriminate|reflexivity].
  - reflexivity.
  - reflexivity.
  - reflexivity.
  - reflexivity.
Defined.

(** [main] ends for all options that [parse_cli_args] can leave: with
    status 0, with status 1, or killed by the [abort] of GMP. The status
    is 1 exactly when no help was asked for and either no input file is
    named or the one named cannot be opened. The process is killed
    exactly when no help was asked for, the input file opens, and one of
    the values that the second pass reads makes GMP abort; nothing else
    in a file that opens keeps the program from its status 0. *)
Theorem main_exit_status (w : world) (opts : CLIOptions) :
  parsed opts →
  ∃ o, main w opts = Some o ∧
    (status o = Some 0 ∨ status o = Some 1 ∨ o = Killed) ∧
    (status o = Some 1 ↔
     show_help opts = false ∧ short_help opts = false ∧
     match positionals opts with
     | [] => True
     | input :: _ => readable w input = None
     end) ∧
    (o = Killed ↔
     show_help opts = false ∧ short_help opts = false ∧
     ∃ input file v,
       head (positionals opts) = Some input ∧ readable w input = Some file ∧
       v ∈ values_read (addAllVertexToHashmap file ∅).2 file ∧
       parse_wei_optimized (pow_limit w) v = ParseAbort).
Proof.
  intros Hp. pose proof Hp as [Hout Hcount].
  destruct (show_help opts) eqn:Hh.
  { exists (Exit 0). unfold main. rewrite Hh. simpl.
    split; [done|]. split; [by left|].
    split; (split; [done|by intros (? & _)]). }
  destruct (short_help opts) eqn:Hu.
  { exists (Exit 0). unfold main. rewrite Hh, Hu. simpl.
    split; [done|]. split; [by left|].
    split; (split; [done|by intros (_ & ? & _)]). }
  destruct (positionals opts) as [|input rest] eqn:Hpos.
  { exists (Exit 1). unfold main. rewrite Hh, Hu, Hcount, Hpos. simpl.
    split; [done|]. split; [right; by left|]. split; [done|].
    split; [done|]. by intros (_ & _ & input & file & v & ? & _). }
  assert (Hfirst : positionals opts !! 0%nat = Some input) by by rewrite Hpos.
  destruct (output_name w opts Hp) as [outName Hname].
  destruct (readable w input) as [file|] eqn:Hread.
  - rewrite (main_opened w opts input file outName) by done.
    destruct (GraphProofs.loadGraph_total (pow_limit w) file)
      as [(G & stderr & -> & Hwf & _ & Hall)|(-> & v & Hv & Habort)].
    + destruct (depthFirstSearch_file_runs w G outName Hwf) as (st & _ & _ & _ & ->).
      eexists. split; [done|].
      set (o := if (vertexAmount G =? 0)%nat || negb (writable w outName)
                then Ran None 0
                else Ran (Some (outName, out st)) (cycle_count st)).
      assert (Hs : status o = Some 0 ∧ o ≠ Killed)
        by (unfold o; by destruct (_ || _)).
      destruct Hs as [Hs Hk]. rewrite Hs.
      split; [by left|]. split; [split; [done|by intros (_ & _ & ?)]|].
      split; [done|].
      intros (_ & _ & input' & file' & v & [= <-] & Hread' & Hv & Habort).
      rewrite Hread in Hread'. injection Hread' as <-.
      by apply Hall in Hv.
    + exists Killed. split; [done|]. split; [by do 2 right|].
      split; [split; [done|by intros (_ & _ & ?)]|].
      split; [intros _|done]. split; [done|]. split; [done|].
      by exists input, file, v.
  - exists (Exit 1). unfold main, openFile. rewrite Hh, Hu, Hcount, Hpos, Hname.
    simpl length.
    destruct (Z.ltb_spec (Z.of_nat (S (length rest))) 1) as [Hlt|_]; [lia|].
    simpl. rewrite Hread.
    split; [done|]. split; [right; by left|]. split; [done|].
    split; [done|].
    intros (_ & _ & input' & file & v & [= <-] & Hread' & _).
    by rewrite Hread in Hread'.
Qed.

Lemma main_exit_status_witness :
  ∃ o, main example_world example_options = Some o ∧
    (status o = Some 0 ∨ status o = Some 1 ∨ o = Killed) ∧
    (status o = Some 1 ↔
     show_help example_options = false ∧ short_help example_options = false ∧
     readable example_world "tx.txt" = None) ∧
    (o = Killed ↔
     show_help example_options = false ∧ short_help example_options = false ∧
     ∃ input file v,
       head (positionals example_options) = Some input ∧
       readable example_world input = Some file ∧
       v ∈ values_read (addAllVertexToHashmap file ∅).2 file ∧
       parse_wei_optimized 1000 v = ParseAbort).
Proof.
  apply (main_exit_status example_world example_options).
  split; [discriminate|reflexivity].
Defined.

End MainProofs.
